(** * GraphStorm: data utilities, distributed inference and the
      edge-prediction trainer, embedded in Rocq.

    The development follows three source files:
    - [python/graphstorm/data/utils.py]            (module [DataUtils]),
    - [python/graphstorm/model/gnn_encoder_base.py] (module [GnnEncoderBase]),
    - [python/graphstorm/trainer/ep_trainer.py]     (module [EpTrainer]).

    Python dictionaries that are only looked up are [gmap]s; tensors are
    records of a shape and a payload; exceptions are an explicit sum;
    calls into torch / DGL / the evaluator are oracles recorded in a trace. *)

From Stdlib Require Import ZArith Lia Ascii.
From stdpp Require Import gmap strings list fin_maps fin_sets numbers pretty.

#[local] Set Warnings "-register-all".

Local Open Scope string_scope.
Local Open Scope nat_scope.
Local Open Scope list_scope.

(** ** Python results *)

Module Py.

(** The exceptions that the modelled code can raise. *)
Inductive exn : Type :=
| AssertionError
| TypeError
| KeyError
| IndexError
| RuntimeError
| AttributeError
| FileNotFoundError
| UnpicklingError
| UnicodeDecodeError
| UnboundLocalError.

(** Outcome of a call: a value, a raised exception, or a call that never
    returns (only the blocking communication primitives can hang). *)
Inductive result (A : Type) : Type :=
| Ok (a : A)
| Raise (e : exn)
| Hang.
Arguments Ok {A} a.
Arguments Raise {A} e.
Arguments Hang {A}.

Definition bind {A B} (r : result A) (k : A → result B) : result B :=
  match r with
  | Ok a => k a
  | Raise e => Raise e
  | Hang => Hang
  end.

(** [assert c] *)
Definition py_assert (c : bool) : result unit :=
  if c then Ok tt else Raise AssertionError.

(** [for x in xs: acc = body(acc, x)], stopping at the first exception. *)
Fixpoint for_each {A S} (body : S → A → result S) (xs : list A) (s : S)
  : result S :=
  match xs with
  | [] => Ok s
  | x :: xs' => bind (body s x) (for_each body xs')
  end.

(** [l[i]] and [l[i] = v] on Python lists, for [i >= 0]. *)
Definition list_item {A} (l : list A) (i : nat) : result A :=
  match l !! i with Some a => Ok a | None => Raise IndexError end.

Definition list_setitem {A} (l : list A) (i : nat) (v : A)
  : result (list A) :=
  if decide (i < length l) then Ok (<[i := v]> l) else Raise IndexError.

(** Code with effects: a state [S] (traces, oracles' states) is threaded
    through; an exception or a hang leaves the state reached so far. *)
Definition io (S A : Type) : Type := S → result A * S.

Definition io_ret {S A} (a : A) : io S A := λ s, (Ok a, s).

Definition io_bind {S A B} (m : io S A) (k : A → io S B) : io S B :=
  λ s, match m s with
       | (Ok a, s') => k a s'
       | (Raise e, s') => (Raise e, s')
       | (Hang, s') => (Hang, s')
       end.

(** A pure computation that may raise. *)
Definition io_lift {S A} (r : result A) : io S A := λ s, (r, s).

Fixpoint io_for {S A X} (body : X → A → io S X) (xs : list A) (x : X)
  : io S X :=
  match xs with
  | [] => io_ret x
  | a :: xs' => io_bind (body x a) (io_for body xs')
  end.

(** Insertion-ordered dictionaries with string keys, for the
    dictionaries that the code iterates over. *)
Definition odict (V : Type) : Type := list (string * V).

Fixpoint odict_get {V} (d : odict V) (k : string) : option V :=
  match d with
  | [] => None
  | (k', v) :: d' => if String.eqb k' k then Some v else odict_get d' k
  end.

(** [k in d] *)
Definition odict_mem {V} (d : odict V) (k : string) : bool :=
  match odict_get d k with Some _ => true | None => false end.

(** [d[k] = v]: an existing key keeps its position. *)
Fixpoint odict_set {V} (d : odict V) (k : string) (v : V) : odict V :=
  match d with
  | [] => [(k, v)]
  | (k', v') :: d' =>
      if String.eqb k' k then (k', v) :: d' else (k', v') :: odict_set d' k v
  end.

(** [d[k]], raising [KeyError] on a missing key. *)
Definition odict_item {V} (d : odict V) (k : string) : result V :=
  match odict_get d k with Some v => Ok v | None => Raise KeyError end.

(** A specification of code with effects: from a state satisfying [P] the
    code either returns [a] in a state satisfying [Q a], or stops (by an
    exception or for ever) in a state satisfying [E]. *)
Definition triple {S A} (P : S → Prop) (m : io S A)
    (Q : A → S → Prop) (E : S → Prop) : Prop :=
  ∀ s, P s → match m s with
             | (Ok a, s') => Q a s'
             | (_, s') => E s'
             end.

End Py.

Import Py.

Notation "'let?' x ':=' r 'in' k" := (Py.bind r (λ x, k))
  (at level 10, x pattern, r at level 100, k at level 200).
Notation "'let!' x ':=' m 'in' k" := (Py.io_bind m (λ x, k))
  (at level 10, x pattern, m at level 100, k at level 200).
Notation "m1 ';;' m2" := (Py.io_bind m1 (λ _, m2))
  (at level 100, m2 at level 200, right associativity).

(** ** [data/utils.py] *)

Module DataUtils.

(** *** [get_id]

    [nid_dict] maps raw node ids (strings) to integer ids.  The dictionary
    is mutated in place, so the model returns it next to the result. *)
Definition get_id (nid_dict : gmap string nat) (key : string)
  : (nat * bool) * gmap string nat :=
  match nid_dict !! key with
  | Some nid => ((nid, false), nid_dict)
  | None =>
      let nid := size nid_dict in
      ((nid, true), <[key := nid]> nid_dict)
  end.

(** The value set of the dictionary is [{0, ..., len - 1}]. *)
Definition dense (nid_dict : gmap string nat) : Prop :=
  map_img nid_dict =@{gset nat} set_seq 0 (size nid_dict).

(** Distinct keys carry distinct ids. *)
Definition distinct_ids (nid_dict : gmap string nat) : Prop :=
  ∀ k1 k2 v, nid_dict !! k1 = Some v → nid_dict !! k2 = Some v → k1 = k2.

(** *** Raw-text persistence: [save_raw_text] and [load_raw_text] *)

(** Objects that [pickle] stores here: strings and dictionaries. *)
Inductive pyobj : Type :=
| PyStr (s : string)
| PyDict (items : list (string * pyobj)).

(** A file holds text or a pickled object. *)
Inductive file : Type :=
| TextFile (content : string)
| PickleFile (obj : pyobj).

(** The file system: path to file.  Directories are not modelled, every
    [open] for writing succeeds. *)
Abbreviation filesystem := (gmap string file).

Definition starts_with_sep (s : string) : bool :=
  match s with
  | String c _ => Ascii.eqb c "/"%char
  | EmptyString => false
  end.

Fixpoint ends_with_sep (s : string) : bool :=
  match s with
  | EmptyString => false
  | String c EmptyString => Ascii.eqb c "/"%char
  | String _ s' => ends_with_sep s'
  end.

(** [os.path.join(a, b)] of [posixpath]. *)
Definition path_join (a b : string) : string :=
  if starts_with_sep b then b
  else if (String.eqb a "" || ends_with_sep a)%bool then a +:+ b
  else a +:+ "/" +:+ b.

(** ["{}_{}.txt".format(dname, ntype)] *)
Definition nfile_name (dname ntype : string) : string :=
  dname +:+ "_" +:+ ntype +:+ ".txt".

(** ["{}.pkl".format(dname)] *)
Definition pkl_name (dname : string) : string := dname +:+ ".pkl".

(** The newline character. *)
Definition LF : string := String "010"%char EmptyString.

(** The text written for one node type: ["{}\n".format(line)] for each
    line in turn. *)
Definition write_lines (text_data : list string) : string :=
  fold_right (λ line acc, line +:+ LF +:+ acc) "" text_data.

(** The loop of [save_raw_text]: it fills [config["nodes"]] and writes
    one text file per node type. *)
Fixpoint save_raw_text_loop (path dname : string)
    (items : list (string * list string))
    (nodes : odict pyobj) (fs : filesystem) : odict pyobj * filesystem :=
  match items with
  | [] => (nodes, fs)
  | (ntype, text_data) :: items' =>
      let nfile := nfile_name dname ntype in
      let nodes := odict_set nodes ntype (PyStr nfile) in
      let nfile := path_join path nfile in
      let fs := <[nfile := TextFile (write_lines text_data)]> fs in
      save_raw_text_loop path dname items' nodes fs
  end.

Definition save_raw_text (path dname : string)
    (raw_text : odict (list string)) (fs : filesystem) : filesystem :=
  let config_nodes := [] in
  let '(config_nodes, fs) :=
    save_raw_text_loop path dname raw_text config_nodes fs in
  let config := PyDict [("nodes", PyDict config_nodes)] in
  let config_path := pkl_name dname in
  let config_path := path_join path config_path in
  <[config_path := PickleFile config]> fs.

(** Characters removed by [str.strip()] (ASCII range). *)
Definition is_space (c : ascii) : bool :=
  let n := Ascii.nat_of_ascii c in
  ((9 <=? n) && (n <=? 13) || (28 <=? n) && (n <=? 32))%bool.

Fixpoint lstrip (s : string) : string :=
  match s with
  | String c s' => if is_space c then lstrip s' else s
  | EmptyString => EmptyString
  end.

Fixpoint rstrip (s : string) : string :=
  match s with
  | EmptyString => EmptyString
  | String c s' =>
      match rstrip s' with
      | EmptyString => if is_space c then EmptyString else String c EmptyString
      | r => String c r
      end
  end.

Definition strip (s : string) : string := rstrip (lstrip s).

(** [for line in f]: the lines of a text file, each with its newline. *)
Fixpoint file_lines_aux (cur : string) (s : string) : list string :=
  match s with
  | EmptyString =>
      match cur with EmptyString => [] | _ => [cur] end
  | String c s' =>
      if Ascii.eqb c "010"%char
      then (cur +:+ String c EmptyString) :: file_lines_aux "" s'
      else file_lines_aux (cur +:+ String c EmptyString) s'
  end.

Definition file_lines (content : string) : list string :=
  file_lines_aux "" content.

(** [open(p, 'rb')] followed by [pickle.load]. *)
Definition load_pickle (fs : filesystem) (p : string) : result pyobj :=
  match fs !! p with
  | None => Raise FileNotFoundError
  | Some (PickleFile obj) => Ok obj
  | Some (TextFile _) => Raise UnpicklingError
  end.

(** [config.items()] *)
Definition py_items (obj : pyobj) : result (list (string * pyobj)) :=
  match obj with
  | PyDict items => Ok items
  | PyStr _ => Raise AttributeError
  end.

(** [os.path.join(path, nfile)] on an arbitrary object: only a string is
    a path component. *)
Definition path_join_obj (path : string) (nfile : pyobj) : result string :=
  match nfile with
  | PyStr s => Ok (path_join path s)
  | PyDict _ => Raise TypeError
  end.

(** [open(nfile, 'r', encoding='utf-8')] and the loop over its lines; a
    pickle does not decode as text. *)
Definition read_stripped_lines (fs : filesystem) (nfile : string)
  : result (list string) :=
  match fs !! nfile with
  | None => Raise FileNotFoundError
  | Some (TextFile content) => Ok (map strip (file_lines content))
  | Some (PickleFile _) => Raise UnicodeDecodeError
  end.

(** The body of the loop of [load_raw_text]. *)
Definition load_raw_text_body (fs : filesystem) (path : string)
    (text_data : odict (list string)) (item : string * pyobj)
  : result (odict (list string)) :=
  let '(ntype, nfile) := item in
  let? nfile := path_join_obj path nfile in
  let? tdata := read_stripped_lines fs nfile in
  Ok (odict_set text_data ntype tdata).

Definition load_raw_text (path dname : string) (fs : filesystem)
  : result (odict (list string)) :=
  let config_path := pkl_name dname in
  let config_path := path_join path config_path in
  let? config := load_pickle fs config_path in
  let? items := py_items config in
  for_each (load_raw_text_body fs path) items [].

(** *** Collective communication: [alltoallv_cpu], [alltoallv_nccl],
    [all_reduce_sum] *)

Inductive device : Type := CPU | CUDA (idx : nat).

(** A tensor: where it lives, its shape and its elements.  The elements
    are opaque payload for the exchange routines; [Z] stands for them. *)
Record tensor : Type := mk_tensor {
  t_device : device;
  t_shape : list nat;
  t_data : list Z;
}.

(** [tensor.to(dev)]: same shape, same values. *)
Definition to_device (dev : device) (t : tensor) : tensor :=
  {| t_device := dev; t_shape := t_shape t; t_data := t_data t |}.

(** What [torch.distributed] is asked to do by this rank. *)
Inductive comm_event : Type :=
| EvISend (dst : nat) (t : tensor)
| EvRecv (src : nat)
| EvBarrier
| EvAllReduce.

(** The process group as seen by one rank: its size and this rank, the
    message each peer has addressed to this rank, the tensor each peer
    contributes to the reduction, and the calls made so far. *)
Record comm : Type := mk_comm {
  group_size : nat;
  group_rank : nat;
  inbox : nat → option tensor;
  reduce_in : nat → option tensor;
  events : list comm_event;
}.

Definition log_event (e : comm_event) (c : comm) : comm :=
  {| group_size := group_size c; group_rank := group_rank c;
     inbox := inbox c; reduce_in := reduce_in c;
     events := events c ++ [e] |}.

(** [dist.isend(t, dst=dst)]: asynchronous, returns at once. *)
Definition isend (t : tensor) (dst : nat) : io comm unit :=
  λ c, (Ok tt, log_event (EvISend dst t) c).

(** [dist.recv(buf, src=src)] of torch: it blocks until the message of
    [src] arrives and copies it into [buf].  With no message, or with a
    message whose shape differs from the buffer's, the call never returns
    (there is no timeout). *)
Definition recv (buf : tensor) (src : nat) : io comm tensor :=
  λ c, match inbox c src with
       | Some m =>
           if decide (t_shape m = t_shape buf)
           then (Ok {| t_device := t_device buf; t_shape := t_shape buf;
                       t_data := t_data m |},
                 log_event (EvRecv src) c)
           else (Hang, log_event (EvRecv src) c)
       | None => (Hang, log_event (EvRecv src) c)
       end.

(** [th.distributed.barrier()] *)
Definition barrier : io comm unit :=
  λ c, (Ok tt, log_event EvBarrier c).

(** [range(n)] *)
Definition range (n : nat) : list nat := seq 0 n.

(** First loop of [alltoallv_cpu]; the accumulator is the output list. *)
Definition alltoallv_cpu_send (rank : nat) (input_tensor_list : list tensor)
    (output_tensor_list : list tensor) (i : nat) : io comm (list tensor) :=
  if decide (i = rank) then
    let! t := io_lift (list_item input_tensor_list i) in
    io_lift (list_setitem output_tensor_list i (to_device CPU t))
  else
    let! t := io_lift (list_item input_tensor_list i) in
    isend (to_device CPU t) i ;;
    io_ret output_tensor_list.

(** First loop of [alltoallv_nccl]: no move to the CPU. *)
Definition alltoallv_nccl_send (rank : nat) (input_tensor_list : list tensor)
    (output_tensor_list : list tensor) (i : nat) : io comm (list tensor) :=
  if decide (i = rank) then
    let! t := io_lift (list_item input_tensor_list i) in
    io_lift (list_setitem output_tensor_list i t)
  else
    let! t := io_lift (list_item input_tensor_list i) in
    isend t i ;;
    io_ret output_tensor_list.

(** Second loop, shared by both: receive in place from every peer. *)
Definition alltoallv_recv (rank : nat) (output_tensor_list : list tensor)
    (i : nat) : io comm (list tensor) :=
  if decide (i ≠ rank) then
    let! buf := io_lift (list_item output_tensor_list i) in
    let! got := recv buf i in
    io_ret (<[i := got]> output_tensor_list)
  else io_ret output_tensor_list.

(** The functions return [None]; the model returns the output list as the
    calls have left it. *)
Definition alltoallv_cpu (rank world_size : nat)
    (output_tensor_list input_tensor_list : list tensor)
  : io comm (list tensor) :=
  let! out := io_for (alltoallv_cpu_send rank input_tensor_list)
                (range world_size) output_tensor_list in
  let! out := io_for (alltoallv_recv rank) (range world_size) out in
  barrier ;;
  io_ret out.

Definition alltoallv_nccl (rank world_size : nat)
    (output_tensor_list input_tensor_list : list tensor)
  : io comm (list tensor) :=
  let! out := io_for (alltoallv_nccl_send rank input_tensor_list)
                (range world_size) output_tensor_list in
  let! out := io_for (alltoallv_recv rank) (range world_size) out in
  barrier ;;
  io_ret out.

(** The tensors the other ranks contribute to a reduction, in rank order;
    [None] when one of them never joins. *)
Definition peer_contributions (c : comm) : option (list tensor) :=
  mapM (reduce_in c)
    (filter (λ r, r ≠ group_rank c) (range (group_size c))).

(** [dist.all_reduce(tensor, op=dist.ReduceOp.SUM)] of torch: the in-place
    element-wise sum of the tensors of all ranks; it blocks for ever when a
    peer is missing or brings another shape. *)
Definition all_reduce (t : tensor) : io comm tensor :=
  λ c, match peer_contributions c with
       | Some peers =>
           if decide (Forall (λ p, t_shape p = t_shape t) peers)
           then (Ok {| t_device := t_device t; t_shape := t_shape t;
                       t_data := foldl (zip_with Z.add) (t_data t)
                                   (t_data <$> peers) |},
                 log_event EvAllReduce c)
           else (Hang, log_event EvAllReduce c)
       | None => (Hang, log_event EvAllReduce c)
       end.

Definition all_reduce_sum (t : tensor) : io comm tensor := all_reduce t.

(** *** Notions used to state the properties of the primitives *)

(** The sends that the first loop issues over the ranks [xs]: one per peer,
    whatever the shapes; [prep] is the move to the CPU or nothing. *)
Definition peer_sends (prep : tensor → tensor) (rank : nat)
    (input_tensor_list : list tensor) (xs : list nat) : list comm_event :=
  omap (λ i, if decide (i = rank) then None
             else EvISend i ∘ prep <$> input_tensor_list !! i) xs.

Definition log_events (evs : list comm_event) (c : comm) : comm :=
  {| group_size := group_size c; group_rank := group_rank c;
     inbox := inbox c; reduce_in := reduce_in c;
     events := events c ++ evs |}.

(** The generic first loop, of which both primitives are instances. *)
Definition send_step (prep : tensor → tensor) (rank : nat)
    (input_tensor_list output_tensor_list : list tensor) (i : nat)
  : io comm (list tensor) :=
  if decide (i = rank) then
    let! t := io_lift (list_item input_tensor_list i) in
    io_lift (list_setitem output_tensor_list i (prep t))
  else
    let! t := io_lift (list_item input_tensor_list i) in
    isend (prep t) i ;;
    io_ret output_tensor_list.

(** Every call of the library only adds to the record of calls. *)
Definition extends (c c' : comm) : Prop :=
  ∃ evs, c' = log_events evs c.

(** A call is well shaped when both lists have one entry per rank and the
    message of every peer has the shape of the buffer that awaits it. *)
Definition well_shaped (rank world_size : nat)
    (out inp : list tensor) (c : comm) : Prop :=
  length inp = world_size ∧ length out = world_size
  ∧ ∀ i, i < world_size → i ≠ rank →
      ∃ m buf, inbox c i = Some m ∧ out !! i = Some buf
               ∧ t_shape m = t_shape buf.

(** *** Repeated calls of [get_id] *)

(** [for key in keys: get_id(nid_dict, key)]: the dictionary that a run of
    calls leaves behind. *)
Definition get_ids (keys : list string) (nid_dict : gmap string nat)
  : gmap string nat :=
  foldl (λ d key, (get_id d key).2) nid_dict keys.

(** *** Lines that survive the text files *)

(** The string holds neither a line feed nor a carriage return (on reading,
    text mode turns both into line ends). *)
Fixpoint no_newline (s : string) : bool :=
  match s with
  | EmptyString => true
  | String c s' =>
      negb (Ascii.eqb c "010"%char) && negb (Ascii.eqb c "013"%char)
      && no_newline s'
  end.

(** A line that [strip] leaves alone and that holds no line end. *)
Definition clean_line (line : string) : Prop :=
  strip line = line ∧ no_newline line = true.

(** *** Edge types and reverse edges: [reverse_etype], [add_reverse_edges] *)

(** An edge type is a string or a tuple of strings (a canonical edge type
    is the tuple of source type, relation and destination type). *)
Inductive etype : Type :=
| EStr (s : string)
| ETuple (items : list string).

#[export] Instance etype_eq_dec : EqDecision etype.
Proof. solve_decision. Defined.

(** Insertion-ordered dictionaries over any key type with decidable
    equality. *)
Definition adict (K V : Type) : Type := list (K * V).

Fixpoint adict_get `{EqDecision K} {V} (d : adict K V) (k : K) : option V :=
  match d with
  | [] => None
  | (k', v) :: d' => if decide (k' = k) then Some v else adict_get d' k
  end.

(** [d[k] = v]: an existing key keeps its position. *)
Fixpoint adict_set `{EqDecision K} {V} (d : adict K V) (k : K) (v : V)
  : adict K V :=
  match d with
  | [] => [(k, v)]
  | (k', v') :: d' =>
      if decide (k' = k) then (k', v) :: d' else (k', v') :: adict_set d' k v
  end.

(** [reverse_etype]: a tuple is indexed at 2, 1 and 0. *)
Definition reverse_etype (e : etype) : result etype :=
  match e with
  | ETuple t =>
      let? dst := list_item t 2 in
      let? rel := list_item t 1 in
      let? src := list_item t 0 in
      Ok (ETuple [dst; "rev-" +:+ rel; src])
  | EStr s => Ok (EStr ("rev-" +:+ s))
  end.

(** The edges of one type: source ids and destination ids, edge by edge. *)
Abbreviation edge_lists := (list nat * list nat)%type.

(** Body of the loop of [add_reverse_edges]. *)
Definition add_reverse_edges_body (new_graph_edges : adict etype edge_lists)
    (item : etype * edge_lists) : result (adict etype edge_lists) :=
  let '(e, edges) := item in
  let new_graph_edges := adict_set new_graph_edges e edges in
  let? rev := reverse_etype e in
  Ok (adict_set new_graph_edges rev (edges.2, edges.1)).

Definition add_reverse_edges (graph_edges : adict etype edge_lists)
  : result (adict etype edge_lists) :=
  for_each add_reverse_edges_body graph_edges [].

(** The reverse of an edge type, where it has one. *)
Definition reversed (e : etype) : etype :=
  match reverse_etype e with Ok r => r | _ => e end.

(** Every edge type followed by its reverse, with the ends of its edges
    exchanged. *)
Definition with_reverses (graph_edges : adict etype edge_lists)
  : adict etype edge_lists :=
  flat_map (λ item : etype * edge_lists,
              [(item.1, item.2); (reversed item.1, (item.2.2, item.2.1))])
    graph_edges.

(** No edge type of the graph is the reverse of an edge type of the
    graph. *)
Definition no_reverse_present (graph_edges : adict etype edge_lists) : Prop :=
  ∀ e e', e ∈ graph_edges.*1 → e' ∈ graph_edges.*1 → reverse_etype e ≠ Ok e'.

(** Every tuple among the edge types is a triple. *)
Definition canonical_keys (graph_edges : adict etype edge_lists) : Prop :=
  ∀ t, ETuple t ∈ graph_edges.*1 → length t = 3.

(** *** [generated_train_valid_test_splits] *)

Abbreviation cetype := (string * string * string)%type.

(** What the function reads of the graph. *)
Record SplitGraph : Type := mk_SplitGraph {
  sg_canonical_etypes : list cetype;
  sg_number_of_edges : cetype → nat;
}.

(** [l[a:b]] for [0 <= a, b]. *)
Definition py_slice {A} (l : list A) (a b : nat) : list A :=
  take (b - a) (drop a l).

(** [mask[ids] = v] with a tensor of indices. *)
Definition index_put (mask : list Z) (ids : list nat) (v : Z)
  : result (list Z) :=
  if decide (Forall (λ i, i < length mask) ids)
  then Ok (foldl (λ m i, <[i := v]> m) mask ids)
  else Raise IndexError.

(** The six dictionaries that the function returns. *)
Record Splits : Type := mk_Splits {
  train_eids : gmap cetype (list nat);
  val_eids : gmap cetype (list nat);
  test_eids : gmap cetype (list nat);
  train_graph_mask_dic : gmap cetype (list Z);
  val_graph_mask_dic : gmap cetype (list Z);
  test_graph_mask_dic : gmap cetype (list Z);
}.

Section GeneratedSplits.

(** [th.randperm(n)] at its [k]-th call (the seed fixes these). *)
Variable randperm : nat → nat → list nat.

(** [int(train_pct * n)], [int((train_pct + valid_pct) * n)] and
    [int((train_pct + valid_pct + test_pct) * n)]: truncated floating-point
    products, not negative for percentages that are not. *)
Variables train_cut valid_cut test_cut : nat → nat.

(** Body of the loop over the canonical edge types. *)
Definition split_etype (use_non_selected_edges : bool) (acc : Splits)
    (g : SplitGraph) (ke : nat * cetype) : result Splits :=
  let '(k, etype) := ke in
  let number_edges_etype := sg_number_of_edges g etype in
  let edge_ids := randperm k number_edges_etype in
  let train := py_slice edge_ids 0 (train_cut number_edges_etype) in
  let val := py_slice edge_ids (train_cut number_edges_etype)
               (valid_cut number_edges_etype) in
  let test := py_slice edge_ids (valid_cut number_edges_etype)
                (test_cut number_edges_etype) in
  let? masks :=
    if use_non_selected_edges then
      let train_graph_mask := replicate number_edges_etype 1%Z in
      let? train_graph_mask := index_put train_graph_mask val 0%Z in
      let? train_graph_mask := index_put train_graph_mask test 0%Z in
      let val_graph_mask := replicate number_edges_etype 1%Z in
      let? val_graph_mask := index_put val_graph_mask test 0%Z in
      let test_graph_mask := replicate number_edges_etype 1%Z in
      Ok (train_graph_mask, val_graph_mask, test_graph_mask)
    else
      let train_graph_mask := replicate number_edges_etype 0%Z in
      let? train_graph_mask := index_put train_graph_mask train 1%Z in
      let val_graph_mask := replicate number_edges_etype 0%Z in
      let? val_graph_mask := index_put val_graph_mask train 1%Z in
      let? val_graph_mask := index_put val_graph_mask val 1%Z in
      let test_graph_mask := replicate number_edges_etype 0%Z in
      let? test_graph_mask := index_put test_graph_mask train 1%Z in
      let? test_graph_mask := index_put test_graph_mask val 1%Z in
      let? test_graph_mask := index_put test_graph_mask test 1%Z in
      Ok (train_graph_mask, val_graph_mask, test_graph_mask) in
  Ok {| train_eids := <[etype := train]> (train_eids acc);
        val_eids := <[etype := val]> (val_eids acc);
        test_eids := <[etype := test]> (test_eids acc);
        train_graph_mask_dic :=
          <[etype := masks.1.1]> (train_graph_mask_dic acc);
        val_graph_mask_dic := <[etype := masks.1.2]> (val_graph_mask_dic acc);
        test_graph_mask_dic := <[etype := masks.2]> (test_graph_mask_dic acc) |}.

Definition generated_train_valid_test_splits (g : SplitGraph)
    (use_non_selected_edges : bool) : result Splits :=
  for_each (λ acc ke, split_etype use_non_selected_edges acc g ke)
    (zip (seq 0 (length (sg_canonical_etypes g))) (sg_canonical_etypes g))
    {| train_eids := ∅; val_eids := ∅; test_eids := ∅;
       train_graph_mask_dic := ∅; val_graph_mask_dic := ∅;
       test_graph_mask_dic := ∅ |}.

End GeneratedSplits.

(** What a split of the [n] edges of one type should satisfy: the three id
    lists share no edge and stay below [n]; every mask has one entry per
    edge; the training mask holds the training edges and no validation or
    test edge; the validation mask holds the training mask and the
    validation edges and no test edge; the test mask holds the validation
    mask and the test edges. *)
Definition good_split (n : nat) (train val test : list nat)
    (train_mask val_mask test_mask : list Z) : Prop :=
  NoDup (train ++ val ++ test)
  ∧ (∀ j, j ∈ (train ++ val ++ test) → j < n)
  ∧ length train_mask = n ∧ length val_mask = n ∧ length test_mask = n
  ∧ (∀ j, j ∈ train → train_mask !! j = Some 1%Z)
  ∧ (∀ j, train_mask !! j = Some 1%Z →
          (j ∉ val) ∧ (j ∉ test) ∧ val_mask !! j = Some 1%Z)
  ∧ (∀ j, j ∈ val → val_mask !! j = Some 1%Z)
  ∧ (∀ j, val_mask !! j = Some 1%Z →
          (j ∉ test) ∧ test_mask !! j = Some 1%Z)
  ∧ (∀ j, j ∈ test → test_mask !! j = Some 1%Z).

(** *** The exchange seen as a whole *)

(** The receives of the second loop over the ranks [xs]. *)
Definition peer_recvs (rank : nat) (xs : list nat) : list comm_event :=
  EvRecv <$> filter (λ i, i ≠ rank) xs.

(** What slot [i] of the output list holds after a well-shaped exchange:
    the tensor of this rank for its own slot, and else the buffer filled
    with the data that rank [i] has sent. *)
Definition delivered (prep : tensor → tensor) (rank : nat)
    (out inp : list tensor) (c : comm) (i : nat) : option tensor :=
  if decide (i = rank) then prep <$> inp !! i
  else
    buf ← out !! i;
    m ← inbox c i;
    Some {| t_device := t_device buf; t_shape := t_shape buf;
            t_data := t_data m |}.

End DataUtils.

(** ** [model/gnn_encoder_base.py] *)

Module GnnEncoderBase.

Abbreviation row := (list Z).

(** A local two-dimensional tensor: its shape [(rows, width)] and rows.
    Devices are left out: [.to(device)] and [.cpu()] keep shape and values. *)
Record Tensor : Type := mk_Tensor {
  shape : nat * nat;
  data : list row;
}.

(** [dgl.distributed.DistTensor]: a tensor sharded over the partitions. *)
Record DistTensor : Type := mk_DistTensor {
  dt_shape : nat * nat;
  dt_name : string;
  dt_part_policy : string;
  dt_persistent : bool;
  dt_data : list row;
}.

(** [DistTensor(shape, dtype=th.float32, name=.., part_policy=..,
    persistent=..)]: without an [init_func] the rows start as zeros. *)
Definition new_DistTensor (shape : nat * nat) (name part_policy : string)
    (persistent : bool) : DistTensor :=
  {| dt_shape := shape; dt_name := name; dt_part_policy := part_policy;
     dt_persistent := persistent;
     dt_data := replicate shape.1 (replicate shape.2 0%Z) |}.

(** What [x[k]] can be: an input feature tensor or the previous layer's
    distributed output. *)
Inductive feats : Type :=
| FTensor (t : Tensor)
| FDist (d : DistTensor).

Definition feats_rows (f : feats) : list row :=
  match f with FTensor t => data t | FDist d => dt_data d end.

Definition feats_width (f : feats) : nat :=
  match f with FTensor t => (shape t).2 | FDist d => (dt_shape d).2 end.

(** The rows at the given ids, [IndexError] when one is out of range. *)
Fixpoint gather (rows : list row) (ids : list nat) : result (list row) :=
  match ids with
  | [] => Ok []
  | i :: ids' =>
      let? r := list_item rows i in
      let? rs := gather rows ids' in
      Ok (r :: rs)
  end.

(** [x[k][ids]] *)
Definition feats_getitem (f : feats) (ids : list nat) : result Tensor :=
  let? rs := gather (feats_rows f) ids in
  Ok {| shape := (length ids, feats_width f); data := rs |}.

(** Row-wise write of [val] at [ids]. *)
Definition write_rows (rows : list row) (ids : list nat) (val : list row)
  : list row :=
  foldl (λ acc ir, <[ir.1 := ir.2]> acc) rows (zip ids val).

(** [d[ids] = val]: one row of [val] per id, of the width of [d]. *)
Definition DistTensor_setitem (d : DistTensor) (ids : list nat) (val : Tensor)
  : result DistTensor :=
  if decide (length ids = (shape val).1 ∧ length (data val) = length ids
             ∧ (shape val).2 = (dt_shape d).2)
  then
    if decide (Forall (λ i, i < (dt_shape d).1) ids)
    then Ok {| dt_shape := dt_shape d; dt_name := dt_name d;
               dt_part_policy := dt_part_policy d;
               dt_persistent := dt_persistent d;
               dt_data := write_rows (dt_data d) ids (data val) |}
    else Raise IndexError
  else Raise RuntimeError.

(** The distributed graph: its node types and their node counts. *)
Record DistGraph : Type := mk_DistGraph {
  ntypes : list string;
  number_of_nodes : string → nat;
}.

(** [g.get_node_partition_policy(k)] *)
Definition get_node_partition_policy (g : DistGraph) (k : string) : string :=
  "node:" +:+ k.

(** What the sampler hands out as input or output nodes: a bare id tensor
    or a dictionary from node type to ids. *)
Inductive nodes_arg : Type :=
| NTensor (ids : list nat)
| NDict (d : odict (list nat)).

(** Calls that leave the process. *)
Inductive inf_event : Type :=
| EvDistTensor (ntype : string) (shape : nat * nat) (name : string)
| EvKeepAlive (report_step : nat)
| EvInferBarrier.

Definition emit {E} (e : E) : io (list E) unit := λ tr, (Ok tt, tr ++ [e]).

(** [enumerate(l)] *)
Definition enumerate {A} (l : list A) : list (nat * A) :=
  zip (seq 0 (length l)) l.

(** [d[k]] on a dictionary that is only looked up. *)
Definition gmap_item {V} (d : gmap string V) (k : string) : result V :=
  match d !! k with Some v => Ok v | None => Raise KeyError end.

(** [d.keys()] *)
Definition odict_keys {V} (d : odict V) : list string := d.*1.

(** [if not isinstance(nodes, dict): assert len(g.ntypes) == 1;
    nodes = {g.ntypes[0]: nodes}], written twice in the source. *)
Definition as_ntype_dict (g : DistGraph) (nodes : nodes_arg)
  : result (odict (list nat)) :=
  match nodes with
  | NDict d => Ok d
  | NTensor ids =>
      let? _ := py_assert (bool_decide (length (ntypes g) = 1)) in
      let? k := list_item (ntypes g) 0 in
      Ok [(k, ids)]
  end.

(** One entry of [{k: x[k][input_nodes[k]] for k in input_nodes.keys()}]. *)
Definition lookup_feats_body (x : gmap string feats)
    (input_nodes : odict (list nat)) (h : odict Tensor) (k : string)
  : result (odict Tensor) :=
  let? xk := gmap_item x k in
  let? ids := odict_item input_nodes k in
  let? t := feats_getitem xk ids in
  Ok (odict_set h k t).

Definition lookup_feats (x : gmap string feats)
    (input_nodes : odict (list nat)) : result (odict Tensor) :=
  for_each (lookup_feats_body x input_nodes) (odict_keys input_nodes) [].

(** Body of [for k in h.keys(): if k in output_nodes:
    y[k][output_nodes[k]] = h[k].cpu()]. *)
Definition scatter_body (output_nodes : odict (list nat))
    (y : gmap string DistTensor) (kh : string * Tensor)
  : result (gmap string DistTensor) :=
  let '(k, hk) := kh in
  if odict_mem output_nodes k then
    let? yk := gmap_item y k in
    let? ids := odict_item output_nodes k in
    let? yk := DistTensor_setitem yk ids hk in
    Ok (<[k := yk]> y)
  else Ok y.

Section DistInference.

(** A sampled block is opaque here. *)
Variable block : Type.

(** [layer(block, h)]: the forward pass of one GNN layer. *)
Definition layer : Type := block → odict Tensor → odict Tensor.

(** [GraphConvEncoder] *)
Record GraphConvEncoder : Type := mk_GraphConvEncoder {
  _h_dim : nat;
  _out_dim : nat;
  _num_hidden_layers : nat;
  _layers : list layer;
}.

Definition in_dims (enc : GraphConvEncoder) : nat := _h_dim enc.
Definition out_dims (enc : GraphConvEncoder) : nat := _out_dim enc.
Definition h_dims (enc : GraphConvEncoder) : nat := _h_dim enc.
Definition n_layers (enc : GraphConvEncoder) : nat :=
  _num_hidden_layers enc + 1.
Definition layers (enc : GraphConvEncoder) : list layer := _layers enc.

(** A mini-batch of the inference loader. *)
Definition batch : Type := nodes_arg * nodes_arg * list block.

(** [node_split(th.ones(n), partition_book, ntype, force_even=False)]: the
    nodes of a type that this rank owns (DGL). *)
Variable node_split : DistGraph → string → list nat.

(** [DistNodeDataLoader(g, infer_nodes, sampler, batch_size, shuffle=True,
    drop_last=False)] with a one-layer sampler of the given fanout: the
    batches it yields on its [n]-th construction (DGL). *)
Variable DistNodeDataLoader :
  DistGraph → odict (list nat) → nat → nat → nat → list batch.

(** [h_dim = gnn_encoder.h_dims if i < len(gnn_encoder.layers) - 1
             else gnn_encoder.out_dims] *)
Definition layer_width (enc : GraphConvEncoder) (i : nat) : nat :=
  if decide ((Z.of_nat i < Z.of_nat (length (layers enc)) - 1)%Z)
  then h_dims enc else out_dims enc.

(** Body of [for k in g.ntypes: y[k] = DistTensor(..)]. *)
Definition alloc_output (g : DistGraph) (enc : GraphConvEncoder) (i : nat)
    (y : gmap string DistTensor) (k : string)
  : io (list inf_event) (gmap string DistTensor) :=
  let h_dim := layer_width enc i in
  let shape := (number_of_nodes g k, h_dim) in
  let name := "h-" +:+ pretty i in
  emit (EvDistTensor k shape name) ;;
  io_ret (<[k := new_DistTensor shape name
                   (get_node_partition_policy g k) true]> y).

Definition alloc_outputs (g : DistGraph) (enc : GraphConvEncoder) (i : nat)
  : io (list inf_event) (gmap string DistTensor) :=
  io_for (alloc_output g enc i) (ntypes g) ∅.

(** [infer_nodes] of one layer. *)
Definition infer_nodes (g : DistGraph) : odict (list nat) :=
  foldl (λ d ntype, odict_set d ntype (node_split g ntype)) [] (ntypes g).

(** Body of the loop over the mini-batches of one layer. *)
Definition dist_inference_batch (g : DistGraph) (l : layer)
    (x : gmap string feats) (task_tracker : option unit)
    (y : gmap string DistTensor) (it : nat * batch)
  : io (list inf_event) (gmap string DistTensor) :=
  let '(iter_l, (input_nodes, output_nodes, blocks)) := it in
  match task_tracker with
  | Some _ => emit (EvKeepAlive iter_l)
  | None => io_ret tt
  end ;;
  let! block := io_lift (list_item blocks 0) in
  let! input_nodes := io_lift (as_ntype_dict g input_nodes) in
  let! output_nodes := io_lift (as_ntype_dict g output_nodes) in
  let! h := io_lift (lookup_feats x input_nodes) in
  let h := l block h in
  io_lift (for_each (scatter_body output_nodes) h y).

(** Body of the loop over the layers; the accumulator is [x] and the last
    [y] bound so far. *)
Definition dist_inference_layer (g : DistGraph) (enc : GraphConvEncoder)
    (batch_size fanout : nat) (task_tracker : option unit)
    (xy : gmap string feats * option (gmap string DistTensor))
    (il : nat * layer)
  : io (list inf_event)
       (gmap string feats * option (gmap string DistTensor)) :=
  let '(i, l) := il in
  let x := xy.1 in
  let! y := alloc_outputs g enc i in
  let dataloader :=
    DistNodeDataLoader g (infer_nodes g) fanout batch_size i in
  let! y := io_for (dist_inference_batch g l x task_tracker)
              (enumerate dataloader) y in
  let x := FDist <$> y in
  emit EvInferBarrier ;;
  io_ret (x, Some y).

Definition dist_inference (g : DistGraph) (enc : GraphConvEncoder)
    (node_feats : gmap string Tensor) (batch_size fanout : nat)
    (task_tracker : option unit)
  : io (list inf_event) (gmap string DistTensor) :=
  let x := FTensor <$> node_feats in
  let! xy := io_for (dist_inference_layer g enc batch_size fanout task_tracker)
               (enumerate (layers enc)) (x, None) in
  match xy.2 with
  | Some y => io_ret y
  | None => io_lift (Raise UnboundLocalError)
  end.

End DistInference.

Arguments mk_GraphConvEncoder {block}.
Arguments _h_dim {block}.
Arguments _out_dim {block}.
Arguments _layers {block}.
Arguments h_dims {block}.
Arguments out_dims {block}.
Arguments layers {block}.
Arguments layer_width {block}.
Arguments alloc_output {block}.
Arguments alloc_outputs {block}.
Arguments dist_inference_batch {block}.
Arguments dist_inference_layer {block}.
Arguments dist_inference {block}.

(** *** Notions used to state the properties of [dist_inference] *)

(** The creation of the output tensor of node type [k] at layer [i]. *)
Definition alloc_event {block} (g : DistGraph) (enc : GraphConvEncoder block)
    (i : nat) (k : string) : inf_event :=
  EvDistTensor k (number_of_nodes g k, layer_width enc i) ("h-" +:+ pretty i).

(** Every node type has an output tensor with one row per node of the type
    and the width of layer [i]. *)
Definition outputs_sized {block} (g : DistGraph) (enc : GraphConvEncoder block)
    (i : nat) (y : gmap string DistTensor) : Prop :=
  ∀ k, k ∈ ntypes g →
    ∃ d, y !! k = Some d
         ∧ dt_shape d = (number_of_nodes g k, layer_width enc i)
         ∧ length (dt_data d) = number_of_nodes g k.

(** *** Further notions: failures and the calls of a complete run *)

(** A computation that does not hang and raises only what [allowed]
    admits. *)
Definition fails_only {A} (allowed : exn → bool) (r : result A) : Prop :=
  match r with
  | Ok _ => True
  | Raise e => allowed e = true
  | Hang => False
  end.

(** What the work on a mini-batch can raise. *)
Definition batch_error (e : exn) : bool :=
  match e with
  | IndexError | AssertionError | KeyError | RuntimeError => true
  | _ => false
  end.

(** The keep-alive reports of [n] mini-batches, numbered from [a]. *)
Definition keep_alives (task_tracker : option unit) (a n : nat)
  : list inf_event :=
  match task_tracker with
  | Some _ => EvKeepAlive <$> seq a n
  | None => []
  end.

(** The calls of layer [i] in a complete run: the allocations, one
    keep-alive report per mini-batch, the barrier. *)
Definition layer_calls {block}
    (node_split : DistGraph → string → list nat)
    (DistNodeDataLoader :
       DistGraph → odict (list nat) → nat → nat → nat → list (batch block))
    (g : DistGraph) (enc : GraphConvEncoder block) (batch_size fanout : nat)
    (task_tracker : option unit) (i : nat) : list inf_event :=
  (alloc_event g enc i <$> ntypes g)
  ++ keep_alives task_tracker 0
       (length (DistNodeDataLoader g (infer_nodes node_split g) fanout
                  batch_size i))
  ++ [EvInferBarrier].

Definition inference_calls {block}
    (node_split : DistGraph → string → list nat)
    (DistNodeDataLoader :
       DistGraph → odict (list nat) → nat → nat → nat → list (batch block))
    (g : DistGraph) (enc : GraphConvEncoder block) (batch_size fanout : nat)
    (task_tracker : option unit) : list inf_event :=
  flat_map (layer_calls node_split DistNodeDataLoader g enc batch_size fanout
              task_tracker)
    (seq 0 (length (layers enc))).

End GnnEncoderBase.

(** ** [trainer/ep_trainer.py] *)

Module EpTrainer.

(** Scores are opaque to the trainer; [Z] stands for them. *)
Abbreviation score := Z.

(** A canonical edge type [(source type, edge type, destination type)]. *)
Abbreviation canonical_etype := (string * string * string)%type.

(** The batch graph of a mini-batch: node types, canonical edge types and,
    per edge type, the ids [edges[etype].data[dgl.EID]] of its edges. *)
Record BatchGraph : Type := mk_BatchGraph {
  bg_ntypes : list string;
  canonical_etypes : list canonical_etype;
  edge_ids : string → list nat;
}.

(** [batch_graph.etypes]: the middle components, one per canonical type. *)
Definition etypes (bg : BatchGraph) : list string :=
  (λ c : canonical_etype, c.1.2) <$> canonical_etypes bg.

(** A mini-batch [(input_nodes, batch_graph, blocks)]; the blocks are only
    moved to the device, their number stands for them. *)
Definition train_batch : Type :=
  GnnEncoderBase.nodes_arg * BatchGraph * nat.

(** A data loader: the batches of its [n]-th iteration. *)
Record DataLoader : Type := mk_DataLoader {
  batches : nat → list train_batch;
}.

(** Everything the trainer asks of its collaborators. *)
Inductive event : Type :=
| EvSysTracker (what : string)
| EvEpochStart (epoch : nat)
| EvTrainStep (epoch i total_steps : nat)
| EvGetNodeFeats (input_nodes : odict (list nat))
| EvGetLabels (predict_etype : canonical_etype) (seeds : list nat)
| EvForward
| EvZeroGrad
| EvBackward
| EvOptimizerStep
| EvLogMetric (total_steps : nat)
| EvPrintBatch (epoch i : nat)
| EvDoEval (total_steps : nat) (epoch_end : bool) (answer : bool)
| EvMiniBatchGnnPredict (on_validation : bool)
| EvFullGraphInference
| EvMiniBatchPredict (on_validation : bool)
| EvEvaluate (total_steps : nat) (val_score test_score : score)
| EvLogPrintMetrics (total_steps : nat) (val_score test_score : score)
| EvDoEarlyStop (val_score : score) (answer : bool)
| EvSaveTopk (epoch : nat) (i : option nat) (val_score : option score)
| EvBarrier
| EvPrintEpoch (epoch : nat)
| EvPrintPeakMem
| EvLogParams
| EvSaveResults.

Section Trainer.

(** The state of the evaluator, which its methods read and update. *)
Variable ES : Type.

(** The evaluator: [do_eval(total_steps, epoch_end)],
    [do_early_stop(val_score)] and [evaluate(.., total_steps)], which
    returns [(val_score, test_score)]. *)
Record Evaluator : Type := mk_Evaluator {
  do_eval : nat → bool → ES → bool * ES;
  do_early_stop : score → ES → bool * ES;
  evaluate : nat → ES → (score * score) * ES;
}.

(** The fields of the trainer that [fit] reads. *)
Record GSgnnEdgePredictionTrainer : Type := mk_Trainer {
  evaluator : option Evaluator;
  rank : nat;
  save_perf_results_path : option string;
}.

(** The world outside [fit]: the evaluator's state and the calls made. *)
Record world : Type := mk_world {
  ev_state : ES;
  trace : list event;
}.

Definition log (e : event) : io world unit :=
  λ w, (Ok tt, {| ev_state := ev_state w; trace := trace w ++ [e] |}).

Definition call_do_eval (ev : Evaluator) (total_steps : nat)
    (epoch_end : bool) : io world bool :=
  λ w, let '(b, s) := do_eval ev total_steps epoch_end (ev_state w) in
       (Ok b, {| ev_state := s;
                 trace := trace w ++ [EvDoEval total_steps epoch_end b] |}).

Definition call_do_early_stop (ev : Evaluator) (val_score : score)
  : io world bool :=
  λ w, let '(b, s) := do_early_stop ev val_score (ev_state w) in
       (Ok b, {| ev_state := s;
                 trace := trace w ++ [EvDoEarlyStop val_score b] |}).

Definition call_evaluate (ev : Evaluator) (total_steps : nat)
  : io world (score * score) :=
  λ w, let '(vt, s) := evaluate ev total_steps (ev_state w) in
       (Ok vt, {| ev_state := s;
                  trace := trace w ++ [EvEvaluate total_steps vt.1 vt.2] |}).

(** [o.attr] on an object that may be [None]. *)
Definition attr_of {A} (o : option A) : result A :=
  match o with Some a => Ok a | None => Raise AttributeError end.

(** [eval]: predictions on the validation and test sets, then scoring. *)
Definition eval (self : GSgnnEdgePredictionTrainer)
    (val_loader test_loader : option DataLoader) (mini_batch_infer : bool)
    (total_steps : nat) : io world score :=
  log (EvSysTracker "start prediction") ;;
  (if mini_batch_infer then
     log (EvMiniBatchGnnPredict true) ;;
     log (EvMiniBatchGnnPredict false)
   else
     let! _ := io_lift (attr_of val_loader) in
     log EvFullGraphInference ;;
     log (EvMiniBatchPredict true) ;;
     log (EvMiniBatchPredict false)) ;;
  log (EvSysTracker "predict") ;;
  let! ev := io_lift (attr_of (evaluator self)) in
  let! vt := call_evaluate ev total_steps in
  log (EvSysTracker "evaluate") ;;
  (if decide (rank self = 0)
   then log (EvLogPrintMetrics total_steps vt.1 vt.2)
   else io_ret tt) ;;
  io_ret vt.1.

(** The check at the head of [fit]. *)
Definition check_config (self : GSgnnEdgePredictionTrainer)
    (val_loader : option DataLoader) : result unit :=
  match evaluator self with
  | Some _ => py_assert (bool_decide (val_loader ≠ None))
  | None => Ok tt
  end.

(** The variables of [fit] that live across iterations. *)
Record loop_state : Type := mk_loop_state {
  total_steps : nat;
  early_stop : bool;
}.

(** Lines 79-93: wrap the input nodes, fetch the features, find the edge
    type to predict and fetch its labels. *)
Definition gather_inputs (batch : train_batch) : io world unit :=
  let '(input_nodes, batch_graph, blocks) := batch in
  let! input_nodes :=
    io_lift (match input_nodes with
             | GnnEncoderBase.NDict d => Ok d
             | GnnEncoderBase.NTensor ids =>
                 let? _ := py_assert
                   (bool_decide (length (bg_ntypes batch_graph) = 1)) in
                 let? k := list_item (bg_ntypes batch_graph) 0 in
                 Ok [(k, ids)]
             end) in
  log (EvGetNodeFeats input_nodes) ;;
  let! _ := io_lift (py_assert
              (bool_decide (length (etypes batch_graph) = 1))) in
  let! predict_etype := io_lift (list_item (canonical_etypes batch_graph) 0) in
  let seeds := edge_ids batch_graph predict_etype.1.2 in
  log (EvGetLabels predict_etype seeds).

(** Lines 95-112: forward, backward, optimizer step, logging. *)
Definition forward_backward (self : GSgnnEdgePredictionTrainer)
    (epoch i total_steps : nat) : io world unit :=
  log EvForward ;;
  log EvZeroGrad ;;
  log EvBackward ;;
  log EvOptimizerStep ;;
  log (EvLogMetric total_steps) ;;
  if decide (i `mod` 20 = 0 ∧ rank self = 0)
  then log (EvPrintBatch epoch i) else io_ret tt.

(** Lines 114-121 and 141-147: evaluate when the evaluator asks for it and
    let it decide on an early stop.  Returns [val_score] and the flag. *)
Definition maybe_eval (self : GSgnnEdgePredictionTrainer)
    (val_loader test_loader : option DataLoader) (mini_batch_infer : bool)
    (total_steps : nat) (epoch_end : bool) (early_stop : bool)
  : io world (option score * bool) :=
  match evaluator self with
  | None => io_ret (None, early_stop)
  | Some ev =>
      let! go := call_do_eval ev total_steps epoch_end in
      if go then
        let! val_score :=
          eval self val_loader test_loader mini_batch_infer total_steps in
        let! stop := call_do_early_stop ev val_score in
        io_ret (Some val_score, if stop then true else early_stop)
      else io_ret (None, early_stop)
  end.

(** [save_model_per_iters > 0]: comparing [None] with an integer raises. *)
Definition py_gt0 (n : option Z) : result bool :=
  match n with
  | Some n => Ok (bool_decide (0 < n)%Z)
  | None => Raise TypeError
  end.

(** Lines 126-127: the per-iteration checkpoint. *)
Definition maybe_save (epoch i : nat) (val_score : option score)
    (save_model_per_iters : option Z) : io world unit :=
  let! positive := io_lift (py_gt0 save_model_per_iters) in
  if (positive
      && bool_decide (Z.of_nat i `mod` default 0%Z save_model_per_iters = 0)%Z
      && bool_decide (i ≠ 0))%bool
  then log (EvSaveTopk epoch (Some i) val_score)
  else io_ret tt.

(** The body of the loop over the mini-batches. *)
Definition train_step (self : GSgnnEdgePredictionTrainer)
    (val_loader test_loader : option DataLoader) (mini_batch_infer : bool)
    (save_model_per_iters : option Z) (epoch : nat) (st : loop_state)
    (ib : nat * train_batch) : io world loop_state :=
  let '(i, batch) := ib in
  let total_steps := total_steps st + 1 in
  log (EvTrainStep epoch i total_steps) ;;
  gather_inputs batch ;;
  forward_backward self epoch i total_steps ;;
  let! ve := maybe_eval self val_loader test_loader mini_batch_infer
               total_steps false (early_stop st) in
  maybe_save epoch i ve.1 save_model_per_iters ;;
  io_ret {| total_steps := total_steps; early_stop := ve.2 |}.

(** The loop over the mini-batches of one epoch, left by [break] as soon as
    [early_stop] is set. *)
Fixpoint step_loop (self : GSgnnEdgePredictionTrainer)
    (val_loader test_loader : option DataLoader) (mini_batch_infer : bool)
    (save_model_per_iters : option Z) (epoch : nat)
    (bs : list (nat * train_batch)) (st : loop_state) : io world loop_state :=
  match bs with
  | [] => io_ret st
  | ib :: bs' =>
      let! st := train_step self val_loader test_loader mini_batch_infer
                   save_model_per_iters epoch st ib in
      if early_stop st then io_ret st
      else step_loop self val_loader test_loader mini_batch_infer
             save_model_per_iters epoch bs' st
  end.

(** One epoch: the steps, then lines 135-155. *)
Definition run_epoch (self : GSgnnEdgePredictionTrainer)
    (train_loader : DataLoader) (val_loader test_loader : option DataLoader)
    (mini_batch_infer : bool) (save_model_per_iters : option Z)
    (epoch : nat) (st : loop_state) : io world loop_state :=
  log (EvEpochStart epoch) ;;
  let! st := step_loop self val_loader test_loader mini_batch_infer
               save_model_per_iters epoch
               (GnnEncoderBase.enumerate (batches train_loader epoch)) st in
  log EvBarrier ;;
  (if decide (rank self = 0) then log (EvPrintEpoch epoch) else io_ret tt) ;;
  let! ve := maybe_eval self val_loader test_loader mini_batch_infer
               (total_steps st) true (early_stop st) in
  log (EvSaveTopk epoch None ve.1) ;;
  log EvBarrier ;;
  io_ret {| total_steps := total_steps st; early_stop := ve.2 |}.

(** The loop over the epochs, left by [break] once [early_stop] is set. *)
Fixpoint epoch_loop (self : GSgnnEdgePredictionTrainer)
    (train_loader : DataLoader) (val_loader test_loader : option DataLoader)
    (mini_batch_infer : bool) (save_model_per_iters : option Z)
    (epochs : list nat) (st : loop_state) : io world loop_state :=
  match epochs with
  | [] => io_ret st
  | epoch :: epochs' =>
      let! st := run_epoch self train_loader val_loader test_loader
                   mini_batch_infer save_model_per_iters epoch st in
      if early_stop st then io_ret st
      else epoch_loop self train_loader val_loader test_loader
             mini_batch_infer save_model_per_iters epochs' st
  end.

(** [fit].  [save_model_path] is only handed on to [save_topk_models]. *)
Definition fit (self : GSgnnEdgePredictionTrainer)
    (train_loader : DataLoader) (n_epochs : nat)
    (val_loader test_loader : option DataLoader) (mini_batch_infer : bool)
    (save_model_path : option string) (save_model_per_iters : option Z)
  : io world unit :=
  io_lift (check_config self val_loader) ;;
  log (EvSysTracker "start training") ;;
  let! st := epoch_loop self train_loader val_loader test_loader
               mini_batch_infer save_model_per_iters (seq 0 n_epochs)
               {| total_steps := 0; early_stop := false |} in
  log EvPrintPeakMem ;;
  if decide (rank self = 0 ∧ evaluator self ≠ None) then
    log EvLogParams ;;
    match save_perf_results_path self with
    | Some _ => log EvSaveResults
    | None => io_ret tt
    end
  else io_ret tt.

End Trainer.

Arguments mk_Evaluator {ES}.
Arguments mk_Trainer {ES}.
Arguments mk_world {ES}.
Arguments evaluator {ES}.
Arguments rank {ES}.
Arguments ev_state {ES}.
Arguments trace {ES}.
Arguments log {ES}.
Arguments check_config {ES}.
Arguments gather_inputs {ES}.
Arguments forward_backward {ES}.
Arguments maybe_eval {ES}.
Arguments maybe_save {ES}.
Arguments eval {ES}.
Arguments train_step {ES}.
Arguments step_loop {ES}.
Arguments run_epoch {ES}.
Arguments epoch_loop {ES}.
Arguments fit {ES}.
Arguments call_do_eval {ES}.
Arguments call_do_early_stop {ES}.
Arguments call_evaluate {ES}.

(** *** Notions used to state the properties of [fit] *)

(** The events of a training step proper and the start of an epoch. *)
Definition is_training (e : event) : bool :=
  match e with
  | EvEpochStart _ | EvTrainStep _ _ _ | EvGetNodeFeats _ | EvGetLabels _ _
  | EvForward | EvZeroGrad | EvBackward | EvOptimizerStep
  | EvLogMetric _ | EvPrintBatch _ _ => true
  | _ => false
  end.

(** [do_early_stop] has answered [True]. *)
Definition is_stop (e : event) : bool :=
  match e with EvDoEarlyStop _ true => true | _ => false end.

Definition stop_seen (tr : list event) : bool := existsb is_stop tr.

(** Nothing of a training step and no start of an epoch follows a [True]
    answer of [do_early_stop]. *)
Definition stops_training (tr : list event) : Prop :=
  ∀ pre s post, tr = pre ++ EvDoEarlyStop s true :: post →
    Forall (λ e, is_training e = false) post.

(** The invariant of the loops of [fit]: [b] is the [early_stop] flag. *)
Definition flag_inv {ES} (b : bool) (w : world ES) : Prop :=
  stops_training (trace w) ∧ (b = false → stop_seen (trace w) = false).

Definition is_get_labels (e : event) : bool :=
  match e with EvGetLabels _ _ => true | _ => false end.

(** The only gathering of labels allowed is the one keyed by [c], for the
    given seeds. *)
Definition label_key_ok (c : canonical_etype) (seeds : list nat) (e : event)
  : bool :=
  match e with
  | EvGetLabels c' seeds' => bool_decide (c' = c ∧ seeds' = seeds)
  | _ => true
  end.

(** The input nodes of a batch pass the check of lines 79-81. *)
Definition input_nodes_accepted (batch_graph : BatchGraph)
    (input_nodes : GnnEncoderBase.nodes_arg) : Prop :=
  match input_nodes with
  | GnnEncoderBase.NDict _ => True
  | GnnEncoderBase.NTensor _ => length (bg_ntypes batch_graph) = 1
  end.

(** The code only adds events that satisfy [ok] to the trace. *)
Definition emits_only {ES A} (ok : event → bool) (m : io (world ES) A)
  : Prop :=
  ∀ w, ∃ evs, trace (m w).2 = trace w ++ evs ∧ forallb ok evs = true.

(** The code returns, whatever the state, and has only added events that
    satisfy [ok] to the trace. *)
Definition runs {ES A} (ok : event → bool) (m : io (world ES) A) : Prop :=
  ∀ w, ∃ a s evs,
    m w = (Ok a, mk_world s (trace w ++ evs)) ∧ forallb ok evs = true.

(** The events at the head of a step: its start and the fetching of its
    features and labels. *)
Definition is_step_head (e : event) : bool :=
  match e with
  | EvTrainStep _ _ _ | EvGetNodeFeats _ | EvGetLabels _ _ => true
  | _ => false
  end.

Definition is_train_step (e : event) : bool :=
  match e with EvTrainStep _ _ _ => true | _ => false end.

(** *** Further notions: which calls [fit] may make, and in which order *)

Definition has_evaluator {ES} (self : GSgnnEdgePredictionTrainer ES) : bool :=
  match evaluator self with Some _ => true | None => false end.

(** A mini-batch that passes the two assertions of a training step. *)
Definition batch_accepted (b : train_batch) : Prop :=
  input_nodes_accepted b.1.2 b.1.1 ∧ length (etypes b.1.2) = 1.

(** The calls that a trainer with the given settings may make at all:
    printing and the logging of results on rank 0 only, batches printed at
    every twentieth index, everything about evaluation only with an
    evaluator and by the chosen way of inference, a checkpoint within an
    epoch only at a batch index that is a positive multiple of a positive
    [save_model_per_iters]. *)
Definition permitted {ES} (self : GSgnnEdgePredictionTrainer ES)
    (mini_batch_infer : bool) (save_model_per_iters : option Z) (e : event)
  : bool :=
  match e with
  | EvSysTracker what =>
      bool_decide (what = "start training") || has_evaluator self
  | EvPrintBatch _ i => bool_decide (rank self = 0 ∧ i `mod` 20 = 0)
  | EvPrintEpoch _ => bool_decide (rank self = 0)
  | EvDoEval _ _ _ | EvEvaluate _ _ _ | EvDoEarlyStop _ _ =>
      has_evaluator self
  | EvMiniBatchGnnPredict _ => has_evaluator self && mini_batch_infer
  | EvFullGraphInference | EvMiniBatchPredict _ =>
      has_evaluator self && negb mini_batch_infer
  | EvLogPrintMetrics _ _ _ | EvLogParams =>
      has_evaluator self && bool_decide (rank self = 0)
  | EvSaveResults =>
      has_evaluator self && bool_decide (rank self = 0)
      && bool_decide (is_Some (save_perf_results_path _ self))
  | EvSaveTopk _ (Some i) _ =>
      match save_model_per_iters with
      | Some n =>
          bool_decide ((0 < n)%Z ∧ (Z.of_nat i `mod` n = 0)%Z ∧ i ≠ 0)
      | None => false
      end
  | _ => true
  end.

(** How far a run has come, as its calls show. *)
Record progress : Type := mk_progress {
  p_steps : nat;            (* training steps begun, over all epochs *)
  p_epochs : nat;           (* epochs begun *)
  p_batches : nat;          (* steps begun in the current epoch *)
  p_open : bool;            (* the current epoch has begun and has not
                               saved its final checkpoint *)
  p_stop : bool;            (* [do_early_stop] has answered [True] *)
  p_score : option score;   (* the validation score of the evaluation made
                               since the current step, or the end of the
                               steps of the epoch, began *)
}.

Definition start : progress := mk_progress 0 0 0 false false None.

Definition set_score (v : option score) (p : progress) : progress :=
  mk_progress (p_steps p) (p_epochs p) (p_batches p) (p_open p) (p_stop p) v.

Definition set_stop (b : bool) (p : progress) : progress :=
  mk_progress (p_steps p) (p_epochs p) (p_batches p) (p_open p) b (p_score p).

Definition close (p : progress) : progress :=
  mk_progress (p_steps p) (p_epochs p) (p_batches p) false (p_stop p)
    (p_score p).

(** The order of the calls: what a call requires of the progress made and
    how it advances it.  Epochs are numbered from 0 without gaps and begin
    only once the previous one is closed; the steps of an epoch carry the
    indices of the batches of the loader, from 0 without gaps, and the
    count of all steps so far; the loss, the evaluator and the metrics see
    that count; the score handed to [do_early_stop] and to a checkpoint is
    the one of the evaluation just made, and none without. *)
Definition advance (train_loader : DataLoader) (n_epochs : nat)
    (p : progress) (e : event) : option progress :=
  match e with
  | EvEpochStart epoch =>
      if decide (epoch = p_epochs p ∧ epoch < n_epochs ∧ p_open p = false)
      then Some (mk_progress (p_steps p) (S epoch) 0 true (p_stop p) None)
      else None
  | EvTrainStep epoch i n =>
      if decide (S epoch = p_epochs p ∧ p_open p = true ∧ i = p_batches p
                 ∧ i < length (batches train_loader epoch)
                 ∧ n = S (p_steps p))
      then Some (mk_progress n (p_epochs p) (S i) true (p_stop p) None)
      else None
  | EvLogMetric n =>
      if decide (n = p_steps p ∧ p_open p = true) then Some p else None
  | EvPrintBatch epoch i =>
      if decide (S epoch = p_epochs p ∧ S i = p_batches p ∧ p_open p = true)
      then Some p else None
  | EvDoEval n _ _ =>
      if decide (n = p_steps p ∧ p_open p = true ∧ p_score p = None)
      then Some p else None
  | EvEvaluate n v _ =>
      if decide (n = p_steps p ∧ p_open p = true)
      then Some (set_score (Some v) p) else None
  | EvLogPrintMetrics n v _ =>
      if decide (n = p_steps p ∧ p_score p = Some v) then Some p else None
  | EvDoEarlyStop v answer =>
      if decide (p_score p = Some v)
      then Some (set_stop (answer || p_stop p) p) else None
  | EvSaveTopk epoch (Some i) v =>
      if decide (S epoch = p_epochs p ∧ S i = p_batches p ∧ p_open p = true
                 ∧ v = p_score p)
      then Some p else None
  | EvBarrier => Some (set_score None p)
  | EvPrintEpoch epoch =>
      if decide (S epoch = p_epochs p ∧ p_open p = true) then Some p else None
  | EvSaveTopk epoch None v =>
      if decide (S epoch = p_epochs p ∧ p_open p = true ∧ v = p_score p)
      then Some (close p) else None
  | _ => Some p
  end.

(** Both requirements at once. *)
Definition guarded {ES} (self : GSgnnEdgePredictionTrainer ES)
    (mini_batch_infer : bool) (save_model_per_iters : option Z)
    (train_loader : DataLoader) (n_epochs : nat)
    (p : progress) (e : event) : option progress :=
  if permitted self mini_batch_infer save_model_per_iters e
  then advance train_loader n_epochs p e else None.

(** The progress after a list of calls, if they come in a required order. *)
Fixpoint follow {P} (step : P → event → option P) (p : P)
    (evs : list event) : option P :=
  match evs with
  | [] => Some p
  | e :: evs' =>
      match step p e with
      | Some p' => follow step p' evs'
      | None => None
      end
  end.

(** The batches of the first [n] epochs. *)
Definition batches_of_epochs (train_loader : DataLoader) (a n : nat) : nat :=
  sum_list ((λ epoch, length (batches train_loader epoch)) <$> seq a n).

(** The calls made since the trace [tr0] come in a required order and have
    led to the progress [p]. *)
Definition reached {ES} (self : GSgnnEdgePredictionTrainer ES)
    (mini_batch_infer : bool) (save_model_per_iters : option Z)
    (train_loader : DataLoader) (n_epochs : nat) (tr0 : list event)
    (p : progress) (w : world ES) : Prop :=
  ∃ evs, trace w = tr0 ++ evs
         ∧ follow (guarded self mini_batch_infer save_model_per_iters
                     train_loader n_epochs) start evs = Some p.

Definition in_order {ES} (self : GSgnnEdgePredictionTrainer ES)
    (mini_batch_infer : bool) (save_model_per_iters : option Z)
    (train_loader : DataLoader) (n_epochs : nat) (tr0 : list event)
    (w : world ES) : Prop :=
  ∃ p, reached self mini_batch_infer save_model_per_iters train_loader
         n_epochs tr0 p w.

End EpTrainer.

(** ** Small concrete instances, used to run the definitions *)

Module Demo.

Import GnnEncoderBase.

(** Two node types with two nodes each. *)
Definition g2 : DistGraph := mk_DistGraph ["n0"; "n1"] (λ _, 2).

(** A graph with a single node type of three nodes. *)
Definition g1 : DistGraph := mk_DistGraph ["n0"] (λ _, 3).

(** A hidden layer that keeps its input (width 2) and an output layer that
    sums every row into one column. *)
Definition keep_layer : layer unit := λ _ h, h.

Definition sum_layer : layer unit :=
  λ _ h, (λ kt : string * Tensor,
            (kt.1, mk_Tensor ((shape kt.2).1, 1)
                     ((λ r : row, [foldr Z.add 0%Z r]) <$> data kt.2))) <$> h.

Definition enc2 : GraphConvEncoder unit :=
  mk_GraphConvEncoder 2 1 1 [keep_layer; sum_layer].

Definition node_feats2 : gmap string Tensor :=
  {[ "n0" := mk_Tensor (2, 2) [[1; 2]; [3; 4]]%Z;
     "n1" := mk_Tensor (2, 2) [[5; 6]; [7; 8]]%Z ]}.

(** This rank owns every node. *)
Definition own_all (g : DistGraph) (k : string) : list nat :=
  seq 0 (number_of_nodes g k).

(** One mini-batch per layer, with every owned node as input and output. *)
Definition one_batch (g : DistGraph) (infer_nodes : odict (list nat))
    (fanout batch_size n : nat) : list (batch unit) :=
  [(NDict infer_nodes, NDict infer_nodes, [tt])].

(** On the single-type graph the sampler hands out bare tensors. *)
Definition one_bare_batch (g : DistGraph) (infer_nodes : odict (list nat))
    (fanout batch_size n : nat) : list (batch unit) :=
  [(NTensor [0; 1; 2], NTensor [0; 2], [tt])].

Definition node_feats1 : gmap string Tensor :=
  {[ "n0" := mk_Tensor (3, 2) [[1; 2]; [3; 4]; [5; 6]]%Z ]}.

(** A layer that yields two rows per input type and also computes features
    for a type the batch does not output. *)
Definition extra_layer : layer unit :=
  λ _ h, ((λ kt : string * Tensor,
             (kt.1, mk_Tensor (2, (shape kt.2).2) (take 2 (data kt.2)))) <$> h)
         ++ [("n1", mk_Tensor (1, 2) [[9; 9]]%Z)].

(** Output tensors for "n0" and for "n1", the latter already holding a row. *)
Definition y_two : gmap string DistTensor :=
  {[ "n0" := new_DistTensor (3, 2) "h-0" "node:n0" true;
     "n1" := mk_DistTensor (1, 2) "h-0" "node:n1" true [[4; 4]]%Z ]}.

Import EpTrainer.

(** A batch over one canonical edge type and one over two. *)
Definition one_etype_batch : train_batch :=
  (NDict [("n0", [0; 1])],
   mk_BatchGraph ["n0"] [("n0", "r0", "n0")] (λ _, [4; 5]), 1).

Definition two_etype_batch : train_batch :=
  (NDict [("n0", [0])],
   mk_BatchGraph ["n0"] [("n0", "r0", "n0"); ("n0", "r1", "n0")] (λ _, [0]),
   1).

(** A loader that yields the same batches in every epoch. *)
Definition loader_of (bs : list train_batch) : DataLoader :=
  mk_DataLoader (λ _, bs).

(** A trainer on rank 0 without evaluator. *)
Definition plain_trainer : GSgnnEdgePredictionTrainer unit :=
  mk_Trainer None 0 None.

(** An evaluator that evaluates after every step, scores a model by the
    number of steps taken, and stops as soon as the score reaches 2.  Its
    state counts the evaluations. *)
Definition stopper : Evaluator nat :=
  mk_Evaluator
    (λ total_steps epoch_end s, (negb epoch_end, s))
    (λ val_score s, (bool_decide (2 ≤ val_score)%Z, s))
    (λ total_steps s, ((Z.of_nat total_steps, 0%Z), S s)).

Definition stopping_trainer : GSgnnEdgePredictionTrainer nat :=
  mk_Trainer (Some stopper) 0 None.

End Demo.

Import DataUtils.

(** ** Loop invariants *)

Lemma io_for_cons {S A X} (body : X → A → io S X) a xs x s :
  io_for body (a :: xs) x s
  = match body x a s with
    | (Ok x1, s1) => io_for body xs x1 s1
    | (Raise e, s1) => (Raise e, s1)
    | (Hang, s1) => (Hang, s1)
    end.
Proof. reflexivity. Qed.

(** A property of the accumulator that every successful iteration keeps
    holds after a successful [for] loop. *)
Lemma for_each_inv {A S} (P : S → Prop) (body : S → A → result S) xs :
  (∀ s x s', P s → body s x = Ok s' → P s') →
  ∀ s s', P s → for_each body xs s = Ok s' → P s'.
Proof.
  intros Hstep. induction xs as [|x xs IH]; intros s s' HP Hrun; simpl in Hrun.
  - by injection Hrun as <-.
  - destruct (body s x) as [s1| |] eqn:Hb; simpl in Hrun; try discriminate.
    eapply IH; [|exact Hrun]. eapply Hstep; eauto.
Qed.

(** The same for loops with effects: the invariant relates accumulator
    and state. *)
Lemma io_for_inv {S A X} (P : X → S → Prop) (body : X → A → io S X) xs :
  (∀ x a s x' s', a ∈ xs → P x s → body x a s = (Ok x', s') → P x' s') →
  ∀ x s x' s', P x s → io_for body xs x s = (Ok x', s') → P x' s'.
Proof.
  induction xs as [|a xs IH]; intros Hstep x s x' s' HP Hrun; simpl in Hrun.
  - unfold io_ret in Hrun. by simplify_eq.
  - unfold io_bind in Hrun.
    destruct (body x a s) as [[x1| |] s1] eqn:Hb; try discriminate.
    eapply IH; [| |exact Hrun].
    + intros ? ? ? ? ? Hin. apply Hstep. by right.
    + eapply Hstep; eauto. by left.
Qed.

(** ** Rules for [triple] *)

Lemma triple_ret {S A} (P : S → Prop) (a : A) (Q : A → S → Prop) E :
  (∀ s, P s → Q a s) → triple P (io_ret a) Q E.
Proof. intros H s HP. simpl. auto. Qed.

Lemma triple_bind {S A B} (P : S → Prop) (m : io S A) (Q : A → S → Prop)
    (k : A → io S B) (R : B → S → Prop) (E : S → Prop) :
  triple P m Q E → (∀ a, triple (Q a) (k a) R E) →
  triple P (io_bind m k) R E.
Proof.
  intros Hm Hk s HP. unfold io_bind. specialize (Hm s HP).
  destruct (m s) as [[a| |] s1]; try done. by apply Hk.
Qed.

Lemma triple_lift {S A} (P : S → Prop) (r : result A) (Q : A → S → Prop)
    (E : S → Prop) :
  (∀ s, P s → E s) → (∀ a s, r = Ok a → P s → Q a s) →
  triple P (io_lift r) Q E.
Proof.
  intros HE HQ s HP. unfold io_lift. destruct r; auto.
Qed.

Lemma triple_conseq {S A} (P P' : S → Prop) (m : io S A)
    (Q Q' : A → S → Prop) (E : S → Prop) :
  triple P' m Q' E → (∀ s, P s → P' s) → (∀ a s, Q' a s → Q a s) →
  triple P m Q E.
Proof.
  intros Hm HP HQ s Hs. specialize (Hm s (HP s Hs)).
  destruct (m s) as [[a| |] s1]; auto.
Qed.
(** ** Theorems about [get_id] *)

Lemma map_img_size_le (m : gmap string nat) :
  size (map_img m : gset nat) ≤ size m.
Proof.
  induction m as [|k v m Hk _ IH] using map_first_key_ind.
  - rewrite map_img_empty_L, size_empty. lia.
  - rewrite map_img_insert_notin_L by done.
    rewrite map_size_insert_None by done.
    pose proof (size_union_alt ({[v]} : gset nat) (map_img m)) as Hu.
    rewrite size_singleton in Hu.
    assert (Hsub : (map_img m ∖ {[v]} : gset nat) ⊆ map_img m)
      by apply subseteq_difference_l, reflexivity.
    apply subseteq_size in Hsub. lia.
Qed.

Lemma full_img_distinct (m : gmap string nat) :
  size (map_img m : gset nat) = size m → distinct_ids m.
Proof.
  induction m as [|k v m Hk _ IH] using map_first_key_ind.
  - intros _ k1 k2 x H1. by rewrite lookup_empty in H1.
  - rewrite map_img_insert_notin_L by done.
    rewrite map_size_insert_None by done.
    intros Hsz.
    pose proof (map_img_size_le m) as Hle.
    assert (Hv : v ∉ (map_img m : gset nat)).
    { intros Hin.
      assert (({[v]} ∪ map_img m : gset nat) = map_img m) as Heq.
      { apply set_eq. intros y. rewrite elem_of_union, elem_of_singleton.
        split; [intros [->|?]; assumption | auto]. }
      rewrite Heq in Hsz. lia. }
    rewrite size_union in Hsz by (by apply disjoint_singleton_l).
    rewrite size_singleton in Hsz.
    assert (Hm : distinct_ids m) by (apply IH; lia).
    intros k1 k2 x H1 H2.
    rewrite lookup_insert in H1, H2.
    repeat case_decide; simplify_eq; try done.
    + exfalso. apply Hv. by eapply elem_of_map_img_2.
    + exfalso. apply Hv. by eapply elem_of_map_img_2.
    + by eapply Hm.
Qed.

Lemma dense_distinct (m : gmap string nat) : dense m → distinct_ids m.
Proof.
  intros Hd. apply full_img_distinct.
  unfold dense in Hd. rewrite Hd. apply size_set_seq.
Qed.

Lemma dense_lookup_lt (m : gmap string nat) k v :
  dense m → m !! k = Some v → v < size m.
Proof.
  intros Hd Hk. apply (elem_of_map_img_2 (SA:=gset nat)) in Hk.
  rewrite Hd in Hk. apply elem_of_set_seq in Hk. lia.
Qed.

Lemma dense_insert_fresh (m : gmap string nat) key :
  dense m → m !! key = None → dense (<[key := size m]> m).
Proof.
  unfold dense. intros Hd Hk.
  rewrite map_img_insert_notin_L by done.
  rewrite map_size_insert_None by done.
  rewrite Hd. rewrite set_seq_S_end_union_L. done.
Qed.

(** C10.  [get_id] keeps the id assignment dense and consecutive: on a
    dictionary whose value set is [{0, ..., len-1}], a present key yields
    its id with [is_new = False] and an unchanged dictionary; an absent key
    is inserted with the previous size as id and [is_new = True].  In both
    cases the value set is again [{0, ..., len-1}] and distinct keys keep
    distinct ids. *)
Theorem get_id_dense_consecutive (nid_dict : gmap string nat) (key : string) :
  dense nid_dict →
  let '((nid, is_new), nid_dict') := get_id nid_dict key in
  match nid_dict !! key with
  | Some v => nid = v ∧ is_new = false ∧ nid_dict' = nid_dict
  | None => nid = size nid_dict ∧ is_new = true
            ∧ nid_dict' = <[key := size nid_dict]> nid_dict
            ∧ size nid_dict' = S (size nid_dict)
  end
  ∧ dense nid_dict'
  ∧ distinct_ids nid_dict'.
Proof.
  intros Hd. unfold get_id.
  destruct (nid_dict !! key) as [v|] eqn:Hk.
  - repeat split; auto using dense_distinct.
  - assert (dense (<[key := size nid_dict]> nid_dict))
      by by apply dense_insert_fresh.
    repeat split; auto using dense_distinct.
    by apply map_size_insert_None.
Qed.

Lemma get_id_dense_consecutive_witness :
  let d : gmap string nat := {["a" := 0; "b" := 1]} in
  dense d
  ∧ let '((nid, is_new), nid_dict') := get_id d "c" in
    match d !! "c" with
    | Some v => nid = v ∧ is_new = false ∧ nid_dict' = d
    | None => nid = size d ∧ is_new = true
              ∧ nid_dict' = <["c" := size d]> d
              ∧ size nid_dict' = S (size d)
    end
    ∧ dense nid_dict'
    ∧ distinct_ids nid_dict'.
Proof.
  intros d.
  assert (Hd : dense d) by (vm_compute; reflexivity).
  split; [exact Hd | exact (get_id_dense_consecutive d "c" Hd)].
Defined.

(** ** Theorems about raw-text persistence *)

Lemma save_raw_text_config path dname raw_text fs :
  ∃ nodes,
    save_raw_text path dname raw_text fs
      !! path_join path (pkl_name dname)
    = Some (PickleFile (PyDict [("nodes", PyDict nodes)])).
Proof.
  unfold save_raw_text.
  destruct (save_raw_text_loop path dname raw_text [] fs) as [nodes fs'].
  exists nodes. apply lookup_insert_eq.
Qed.

(** C8.  Raw-text persistence does not round-trip: [save_raw_text] pickles
    [{"nodes": {ntype: file}}] while [load_raw_text] iterates over the items
    of the outer dictionary, so it joins the path with the inner dictionary
    and raises [TypeError] for every saved dataset. *)
Theorem load_raw_text_after_save_raises path dname raw_text fs :
  load_raw_text path dname (save_raw_text path dname raw_text fs)
  = Raise TypeError.
Proof.
  unfold load_raw_text, load_pickle.
  destruct (save_raw_text_config path dname raw_text fs) as [nodes ->].
  reflexivity.
Qed.

Example load_raw_text_after_save_n0 :
  load_raw_text "/data" "ds" (save_raw_text "/data" "ds" [("n0", ["a"])] ∅)
  = Raise TypeError
  ∧ Ok [("n0", ["a"])] ≠ (Raise TypeError : result (odict (list string))).
Proof. split; [vm_compute; reflexivity | discriminate]. Qed.

(** ** Theorems about the communication primitives *)

Lemma log_events_nil c : log_events [] c = c.
Proof. destruct c. unfold log_events. simpl. by rewrite app_nil_r. Qed.

Lemma log_events_cons e evs c :
  log_events evs (log_event e c) = log_events (e :: evs) c.
Proof. unfold log_events, log_event. simpl. by rewrite <- app_assoc. Qed.

Lemma alltoallv_cpu_send_step rank inp :
  alltoallv_cpu_send rank inp = send_step (to_device CPU) rank inp.
Proof. reflexivity. Qed.

Lemma alltoallv_nccl_send_step rank inp :
  alltoallv_nccl_send rank inp = send_step id rank inp.
Proof. reflexivity. Qed.

Lemma send_loop_issues_all prep rank inp xs : ∀ out c,
  Forall (λ i, i < length inp ∧ i < length out) xs →
  ∃ out',
    io_for (send_step prep rank inp) xs out c
    = (Ok out', log_events (peer_sends prep rank inp xs) c)
    ∧ length out' = length out.
Proof.
  induction xs as [|i xs IH]; intros out c Hxs.
  - exists out. simpl. by rewrite log_events_nil.
  - inversion Hxs as [|? ? [Hi Ho] Hxs']; subst. clear Hxs. rename Hxs' into Hxs.
    destruct (lookup_lt_is_Some_2 inp i Hi) as [t Ht].
    simpl. unfold io_bind at 1, send_step at 1, peer_sends. simpl.
    rewrite Ht. simpl.
    destruct (decide (i = rank)) as [->|Hne].
    + unfold io_bind, io_lift, list_item, list_setitem. rewrite Ht.
      destruct (decide (rank < length out)) as [_|]; [|lia].
      destruct (IH (<[rank := prep t]> out) c) as (out' & Hrun & Hlen).
      { rewrite length_insert. exact Hxs. }
      exists out'. rewrite Hrun. rewrite length_insert in Hlen. done.
    + unfold io_bind, io_lift, list_item, isend, io_ret. rewrite Ht.
      destruct (IH out (log_event (EvISend i (prep t)) c)) as (out' & Hrun & Hlen);
        [exact Hxs|].
      exists out'. rewrite Hrun, log_events_cons. done.
Qed.

Lemma extends_refl c : extends c c.
Proof. exists []. by rewrite log_events_nil. Qed.

Lemma extends_trans c1 c2 c3 : extends c1 c2 → extends c2 c3 → extends c1 c3.
Proof.
  intros [e1 ->] [e2 ->]. exists (e1 ++ e2).
  unfold log_events. simpl. by rewrite app_assoc.
Qed.

Lemma extends_log_event e c : extends c (log_event e c).
Proof. by exists [e]. Qed.

Lemma recv_extends buf src c : extends c (recv buf src c).2.
Proof.
  unfold recv. destruct (inbox c src); [case_decide|]; apply extends_log_event.
Qed.

Lemma recv_loop_extends rank xs : ∀ out c,
  extends c (io_for (alltoallv_recv rank) xs out c).2.
Proof.
  induction xs as [|i xs IH]; intros out c; [apply extends_refl|].
  simpl. unfold io_bind at 1, alltoallv_recv at 1.
  destruct (decide (i ≠ rank)).
  - unfold io_bind at 1, io_lift, list_item.
    destruct (out !! i) as [buf|]; [|apply extends_refl].
    unfold io_bind at 1.
    pose proof (recv_extends buf i c) as Hr.
    destruct (recv buf i c) as [[got| |] c1]; simpl in *; try done.
    unfold io_ret. eapply extends_trans; [exact Hr | apply IH].
  - unfold io_ret. apply IH.
Qed.

Lemma alltoallv_sends prep rank world_size out inp c :
  world_size ≤ length inp → world_size ≤ length out →
  ∃ later,
    events (Py.io_bind
              (io_for (send_step prep rank inp) (range world_size) out)
              (λ out, let! out := io_for (alltoallv_recv rank)
                                    (range world_size) out in
                      barrier ;; io_ret out) c).2
    = events c ++ peer_sends prep rank inp (range world_size) ++ later.
Proof.
  intros Hin Hout.
  destruct (send_loop_issues_all prep rank inp (range world_size) out c)
    as (out' & Hrun & _).
  { apply list.Forall_forall. intros i Hi. apply elem_of_seq in Hi. lia. }
  unfold io_bind at 1. rewrite Hrun.
  set (c1 := log_events _ c).
  unfold io_bind at 1.
  pose proof (recv_loop_extends rank (range world_size) out' c1) as [evs Hr].
  destruct (io_for (alltoallv_recv rank) (range world_size) out' c1)
    as [[out2| |] c2]; simpl in Hr; subst c2.
  - exists (evs ++ [EvBarrier]). unfold io_bind, barrier, io_ret. simpl.
    by rewrite <- !app_assoc.
  - exists evs. simpl. by rewrite <- app_assoc.
  - exists evs. simpl. by rewrite <- app_assoc.
Qed.

(** C1 (amended).  The all-to-all-v primitives validate nothing: whenever
    both lists have at least [world_size] entries, each of them first issues
    one asynchronous send to every peer, in rank order, with the tensor found
    at the peer's index, whatever the shapes of the tensors and buffers. *)
Theorem alltoallv_sends_without_validation rank world_size out inp c :
  world_size ≤ length inp → world_size ≤ length out →
  (∃ later, events (alltoallv_cpu rank world_size out inp c).2
     = events c ++ peer_sends (to_device CPU) rank inp (range world_size)
         ++ later)
  ∧ (∃ later, events (alltoallv_nccl rank world_size out inp c).2
     = events c ++ peer_sends id rank inp (range world_size) ++ later).
Proof.
  intros Hin Hout. split.
  - apply (alltoallv_sends (to_device CPU)); assumption.
  - apply (alltoallv_sends id); assumption.
Qed.

(** C1 as stated fails: rank 0 of two ranks holds a receive buffer of shape
    [2] for rank 1, which sends shape [5].  Neither primitive raises: each
    issues its send to rank 1 and then blocks in [recv]. *)
Lemma alltoallv_mismatch_counterexample :
  let inp := [mk_tensor CPU [2] [1; 2]%Z; mk_tensor CPU [3] [3; 4; 5]%Z] in
  let out := [mk_tensor CPU [2] [0; 0]%Z; mk_tensor CPU [2] [0; 0]%Z] in
  let c := {| group_size := 2; group_rank := 0;
              inbox := λ src, if decide (src = 1)
                              then Some (mk_tensor CPU [5] [6; 7; 8; 9; 10]%Z)
                              else None;
              reduce_in := λ _, None;
              events := [] |} in
  ¬ well_shaped 0 2 out inp c
  ∧ alltoallv_cpu 0 2 out inp c
    = (Hang, log_events
               [EvISend 1 (mk_tensor CPU [3] [3; 4; 5]%Z); EvRecv 1] c)
  ∧ alltoallv_nccl 0 2 out inp c
    = (Hang, log_events
               [EvISend 1 (mk_tensor CPU [3] [3; 4; 5]%Z); EvRecv 1] c).
Proof.
  intros inp out c. split; [|split; reflexivity].
  intros (_ & _ & H).
  destruct (H 1) as (m & buf & Hm & Hb & Hs); [lia | lia |].
  simpl in Hm, Hb. injection Hm as <-. injection Hb as <-.
  discriminate Hs.
Qed.

Lemma alltoallv_sends_without_validation_witness :
  let inp := [mk_tensor CPU [2] [1; 2]%Z; mk_tensor CPU [3] [3; 4; 5]%Z] in
  let out := [mk_tensor CPU [2] [0; 0]%Z; mk_tensor CPU [2] [0; 0]%Z] in
  let c := mk_comm 2 0 (λ _, None) (λ _, None) [] in
  (∃ later, events (alltoallv_cpu 0 2 out inp c).2
     = events c ++ peer_sends (to_device CPU) 0 inp (range 2) ++ later)
  ∧ (∃ later, events (alltoallv_nccl 0 2 out inp c).2
     = events c ++ peer_sends id 0 inp (range 2) ++ later).
Proof.
  intros inp out c.
  apply (alltoallv_sends_without_validation 0 2 out inp c); simpl; lia.
Defined.

(** C4.  With a single rank ([world_size = 1], [rank = 0]) both all-to-all-v
    primitives put the input tensor into slot 0 of the output list with its
    shape and values unchanged, issue no send and no receive, and
    [all_reduce_sum] hands its tensor back unchanged. *)
Theorem single_rank_identity (t o : tensor) (inp out : list tensor)
    (ib ri : nat → option tensor) (evs : list comm_event) :
  let c := mk_comm 1 0 ib ri evs in
  alltoallv_cpu 0 1 (o :: out) (t :: inp) c
  = (Ok (to_device CPU t :: out), log_event EvBarrier c)
  ∧ t_data (to_device CPU t) = t_data t
  ∧ t_shape (to_device CPU t) = t_shape t
  ∧ alltoallv_nccl 0 1 (o :: out) (t :: inp) c
    = (Ok (t :: out), log_event EvBarrier c)
  ∧ all_reduce_sum t c = (Ok t, log_event EvAllReduce c).
Proof.
  intros c. split_and!; try reflexivity.
  unfold all_reduce_sum, all_reduce, peer_contributions. simpl.
  destruct (decide (Forall (λ p, t_shape p = t_shape t) [])) as [_|Hn].
  - by destruct t.
  - exfalso. apply Hn. constructor.
Qed.

(** ** More about [get_id] *)

Lemma get_id_dict (d : gmap string nat) key :
  (get_id d key).2
  = match d !! key with Some _ => d | None => <[key := size d]> d end.
Proof. unfold get_id. by destruct (d !! key). Qed.

Lemma get_id_keeps (d : gmap string nat) key k v :
  d !! k = Some v → (get_id d key).2 !! k = Some v.
Proof.
  intros Hk. rewrite get_id_dict. destruct (d !! key) eqn:Hkey; [done|].
  rewrite lookup_insert_ne; [done|]. intros ->. congruence.
Qed.

Lemma get_id_dom (d : gmap string nat) key :
  dom (get_id d key).2 = {[key]} ∪ dom d.
Proof.
  rewrite get_id_dict. destruct (d !! key) eqn:Hkey.
  - apply (elem_of_dom_2 d) in Hkey. apply set_eq. intros x.
    rewrite elem_of_union, elem_of_singleton. split; [auto|].
    intros [->|?]; [done|done].
  - by rewrite dom_insert_L.
Qed.

Lemma get_id_dense (d : gmap string nat) key :
  dense d → dense (get_id d key).2.
Proof.
  intros Hd. rewrite get_id_dict. destruct (d !! key) eqn:Hkey; [done|].
  by apply dense_insert_fresh.
Qed.

Lemma get_ids_cons key keys (d : gmap string nat) :
  get_ids (key :: keys) d = get_ids keys (get_id d key).2.
Proof. reflexivity. Qed.

Lemma get_ids_keeps keys : ∀ (d : gmap string nat) k v,
  d !! k = Some v → get_ids keys d !! k = Some v.
Proof.
  induction keys as [|key keys IH]; intros d k v Hk; [done|].
  rewrite get_ids_cons. apply IH. by apply get_id_keeps.
Qed.

Lemma get_ids_dom keys : ∀ (d : gmap string nat),
  dom (get_ids keys d) = list_to_set keys ∪ dom d.
Proof.
  induction keys as [|key keys IH]; intros d.
  - simpl. by rewrite (left_id_L ∅ (∪)).
  - rewrite get_ids_cons, IH, get_id_dom. simpl.
    by rewrite (assoc_L (∪)), (comm_L (∪) (list_to_set keys)).
Qed.

Lemma get_ids_dense keys : ∀ (d : gmap string nat),
  dense d → dense (get_ids keys d).
Proof.
  induction keys as [|key keys IH]; intros d Hd; [done|].
  rewrite get_ids_cons. apply IH. by apply get_id_dense.
Qed.

Lemma get_ids_app keys1 keys2 (d : gmap string nat) :
  get_ids (keys1 ++ keys2) d = get_ids keys2 (get_ids keys1 d).
Proof. unfold get_ids. by rewrite foldl_app. Qed.

Lemma dense_empty : dense (∅ : gmap string nat).
Proof. unfold dense. by rewrite map_img_empty_L, map_size_empty. Qed.

(** Whatever the dictionary, [get_id] leaves every assignment that it
    finds in place, its answer is the id now stored for the key, and a
    second call for the same key gives the same id with [is_new = False]
    and changes nothing. *)
Lemma get_id_again (nid_dict : gmap string nat) (key : string) :
  let '((nid, is_new), nid_dict') := get_id nid_dict key in
  nid_dict' !! key = Some nid
  ∧ (is_new = false ↔ is_Some (nid_dict !! key))
  ∧ (∀ k v, nid_dict !! k = Some v → nid_dict' !! k = Some v)
  ∧ get_id nid_dict' key = ((nid, false), nid_dict').
Proof.
  unfold get_id. destruct (nid_dict !! key) as [v|] eqn:Hk.
  - rewrite Hk. split_and!; try done.
  - rewrite lookup_insert_eq. split_and!; try done.
    intros k v Hkv. rewrite lookup_insert_ne; [done|]. intros ->. congruence.
Qed.

(** X1.  Ids handed out from the empty dictionary are first-occurrence
    ranks: after calls for the keys [pre ++ key :: post], where [key] does
    not occur in [pre], the id of [key] is the number of distinct keys in
    [pre]; the dictionary holds exactly the keys asked for and its value set
    is [{0, ..., len-1}]. *)
Theorem get_ids_first_occurrence (pre post : list string) (key : string) :
  key ∉ pre →
  let nid_dict := get_ids (pre ++ key :: post) ∅ in
  nid_dict !! key = Some (size (list_to_set pre : gset string))
  ∧ dom nid_dict = list_to_set (pre ++ key :: post)
  ∧ dense nid_dict
  ∧ size nid_dict = size (list_to_set (pre ++ key :: post) : gset string).
Proof.
  intros Hpre nid_dict. subst nid_dict.
  assert (Hdom : dom (get_ids (pre ++ key :: post) ∅)
                 = list_to_set (pre ++ key :: post)).
  { by rewrite get_ids_dom, dom_empty_L, (right_id_L ∅ (∪)). }
  split_and!.
  - rewrite get_ids_app, get_ids_cons. apply get_ids_keeps.
    assert (Hdpre : dom (get_ids pre ∅) = list_to_set pre).
    { by rewrite get_ids_dom, dom_empty_L, (right_id_L ∅ (∪)). }
    assert (Hnone : get_ids pre ∅ !! key = None).
    { apply not_elem_of_dom. rewrite Hdpre. by rewrite elem_of_list_to_set. }
    rewrite get_id_dict, Hnone, lookup_insert_eq. f_equal.
    by rewrite <- size_dom, Hdpre.
  - exact Hdom.
  - apply get_ids_dense, dense_empty.
  - by rewrite <- size_dom, Hdom.
Qed.

Lemma get_ids_first_occurrence_witness :
  let nid_dict := get_ids (["a"; "b"; "a"] ++ "c" :: ["b"; "c"]) ∅ in
  nid_dict !! "c" = Some (size (list_to_set ["a"; "b"; "a"] : gset string))
  ∧ nid_dict !! "c" = Some 2.
Proof.
  intros nid_dict. split; [|vm_compute; reflexivity].
  apply (get_ids_first_occurrence ["a"; "b"; "a"] ["b"; "c"] "c").
  intros H. repeat (apply elem_of_cons in H as [H|H]; [discriminate H|]).
  by apply elem_of_nil in H.
Defined.

(** ** Strings *)

Lemma sapp_cons c s t : String c s +:+ t = String c (s +:+ t).
Proof. reflexivity. Qed.

Lemma sapp_nil_l s : "" +:+ s = s.
Proof. reflexivity. Qed.

Lemma sapp_nil_r s : s +:+ "" = s.
Proof. induction s as [|c s IH]; [done|]. by rewrite sapp_cons, IH. Qed.

Lemma sapp_assoc a b c : (a +:+ b) +:+ c = a +:+ (b +:+ c).
Proof. induction a as [|x a IH]; [done|]. by rewrite !sapp_cons, IH. Qed.

Lemma slength_app a b :
  String.length (a +:+ b) = String.length a + String.length b.
Proof. induction a as [|x a IH]; [done|]. rewrite sapp_cons. simpl. by rewrite IH. Qed.

Lemma sapp_inj_r t : ∀ a b, a +:+ t = b +:+ t → a = b.
Proof.
  induction a as [|x a IH]; intros [|y b] H.
  - done.
  - apply (f_equal String.length) in H.
    rewrite !slength_app in H. simpl in H. lia.
  - apply (f_equal String.length) in H.
    rewrite !slength_app in H. simpl in H. lia.
  - rewrite !sapp_cons in H. injection H as -> H. f_equal. by apply IH.
Qed.

(** *** Splitting into lines and stripping *)

Lemma file_lines_aux_line rest : ∀ line cur,
  no_newline line = true →
  file_lines_aux cur (line +:+ LF +:+ rest)
  = (cur +:+ line +:+ LF) :: file_lines_aux "" rest.
Proof.
  induction line as [|c line IH]; intros cur Hline.
  - reflexivity.
  - simpl in Hline. apply andb_true_iff in Hline as [Hc Hline].
    apply andb_true_iff in Hc as [Hlf _].
    rewrite sapp_cons. simpl.
    destruct (Ascii.eqb c "010") eqn:Hc; [discriminate|].
    rewrite IH by done. f_equal.
    by rewrite sapp_assoc.
Qed.

Lemma file_lines_write_lines lines :
  Forall (λ line, no_newline line = true) lines →
  file_lines (write_lines lines) = (λ line, line +:+ LF) <$> lines.
Proof.
  unfold file_lines. induction 1 as [|line lines Hline _ IH]; [done|].
  simpl. rewrite file_lines_aux_line by done. by rewrite IH.
Qed.

Lemma rstrip_length s : String.length (rstrip s) ≤ String.length s.
Proof.
  induction s as [|c s IH]; simpl; [done|].
  destruct (rstrip s); [destruct (is_space c)|]; simpl in *; lia.
Qed.

Lemma lstrip_id_or_shorter s :
  lstrip s = s ∨ String.length (lstrip s) < String.length s.
Proof.
  induction s as [|c s IH]; simpl; [by left|].
  destruct (is_space c); [right|by left].
  destruct IH as [->|]; lia.
Qed.

Lemma strip_fixed_lstrip s : strip s = s → lstrip s = s.
Proof.
  intros Hs. destruct (lstrip_id_or_shorter s) as [|Hlt]; [done|].
  pose proof (rstrip_length (lstrip s)) as Hle.
  unfold strip in Hs. rewrite Hs in Hle. lia.
Qed.

Lemma rstrip_app_LF s : rstrip (s +:+ LF) = rstrip s.
Proof.
  induction s as [|c s IH]; [reflexivity|].
  rewrite sapp_cons. simpl. by rewrite IH.
Qed.

Lemma strip_line_LF line : strip line = line → strip (line +:+ LF) = line.
Proof.
  intros Hs. pose proof (strip_fixed_lstrip line Hs) as Hl.
  destruct line as [|c line]; [reflexivity|].
  assert (Hc : is_space c = false).
  { destruct (is_space c) eqn:Hc; [|done]. exfalso.
    cbn [lstrip] in Hl. rewrite Hc in Hl.
    destruct (lstrip_id_or_shorter line) as [Heq|Hlt].
    - rewrite Heq in Hl. apply (f_equal String.length) in Hl. simpl in Hl. lia.
    - rewrite Hl in Hlt. simpl in Hlt. lia. }
  unfold strip in *.
  assert (Hl' : lstrip (String c line +:+ LF) = String c line +:+ LF).
  { rewrite sapp_cons. cbn [lstrip]. by rewrite Hc. }
  rewrite Hl', rstrip_app_LF. by rewrite Hl in Hs.
Qed.

Lemma read_back_lines lines :
  Forall clean_line lines →
  strip <$> file_lines (write_lines lines) = lines.
Proof.
  intros Hclean. rewrite file_lines_write_lines.
  - induction Hclean as [|line lines [Hs _] _ IH]; [done|].
    rewrite !fmap_cons. rewrite strip_line_LF by done. by rewrite IH.
  - eapply Forall_impl; [exact Hclean|]. by intros line [_ ?].
Qed.

(** *** The files that [save_raw_text] writes *)

Lemma sapp_inj_len : ∀ s1 s2 t1 t2,
  String.length t1 = String.length t2 →
  s1 +:+ t1 = s2 +:+ t2 → s1 = s2 ∧ t1 = t2.
Proof.
  induction s1 as [|x s1 IH]; intros [|y s2] t1 t2 Hlen H.
  - done.
  - apply (f_equal String.length) in H.
    rewrite !slength_app in H. simpl in H. lia.
  - apply (f_equal String.length) in H.
    rewrite !slength_app in H. simpl in H. lia.
  - rewrite !sapp_cons in H. injection H as -> H.
    destruct (IH _ _ _ Hlen H) as [-> ->]. done.
Qed.

Lemma path_join_suffix a b : ∃ x, path_join a b = x +:+ b.
Proof.
  unfold path_join. destruct (starts_with_sep b); [by exists ""|].
  destruct (_ || _)%bool; [by exists a|].
  exists (a +:+ "/"). by rewrite sapp_assoc.
Qed.

Lemma text_path_not_config path dname ntype :
  path_join path (nfile_name dname ntype) ≠ path_join path (pkl_name dname).
Proof.
  destruct (path_join_suffix path (nfile_name dname ntype)) as [x ->].
  destruct (path_join_suffix path (pkl_name dname)) as [y ->].
  unfold nfile_name, pkl_name. rewrite <- !sapp_assoc. intros H.
  apply sapp_inj_len in H as [_ H]; [discriminate H | done].
Qed.

Lemma nfile_name_starts dname n1 n2 :
  starts_with_sep (nfile_name dname n1) = starts_with_sep (nfile_name dname n2).
Proof. unfold nfile_name. by destruct dname. Qed.

Lemma text_path_inj path dname n1 n2 :
  path_join path (nfile_name dname n1) = path_join path (nfile_name dname n2) →
  n1 = n2.
Proof.
  unfold path_join. rewrite (nfile_name_starts dname n1 n2).
  assert (Hinj : nfile_name dname n1 = nfile_name dname n2 → n1 = n2).
  { unfold nfile_name. intros H.
    apply (inj (String.app dname)) in H.
    apply (inj (String.app "_")) in H.
    by apply sapp_inj_r in H. }
  destruct (starts_with_sep (nfile_name dname n2)); [done|].
  destruct (_ || _)%bool; intros H; apply Hinj.
  - by apply (inj (String.app path)) in H.
  - apply (inj (String.app path)) in H. by apply (inj (String.app "/")) in H.
Qed.

Lemma odict_get_set_eq {V} (d : odict V) k v :
  odict_get (odict_set d k v) k = Some v.
Proof.
  induction d as [|[k' v'] d IH]; simpl.
  - by rewrite String.eqb_refl.
  - destruct (String.eqb k' k) eqn:Hk; simpl; rewrite Hk; [done|exact IH].
Qed.

Lemma odict_get_set_ne {V} (d : odict V) k k' v :
  k ≠ k' → odict_get (odict_set d k v) k' = odict_get d k'.
Proof.
  intros Hne. induction d as [|[k0 v0] d IH]; simpl.
  - destruct (String.eqb k k') eqn:Hk; [|done].
    by apply String.eqb_eq in Hk.
  - destruct (String.eqb k0 k) eqn:Hk; simpl.
    + apply String.eqb_eq in Hk as ->.
      destruct (String.eqb k k') eqn:Hk'; [|done].
      by apply String.eqb_eq in Hk'.
    + by rewrite IH.
Qed.

(** What the loop leaves alone. *)
Lemma save_raw_text_loop_frame path dname items : ∀ nodes (fs : gmap string file),
  let r := save_raw_text_loop path dname items nodes fs in
  (∀ p, (∀ nt, nt ∈ items.*1 → path_join path (nfile_name dname nt) ≠ p) →
        r.2 !! p = fs !! p)
  ∧ (∀ k, k ∉ items.*1 → odict_get r.1 k = odict_get nodes k).
Proof.
  induction items as [|[nt lines] items IH]; intros nodes fs; simpl; [done|].
  destruct (IH (odict_set nodes nt (PyStr (nfile_name dname nt)))
              (<[path_join path (nfile_name dname nt) := TextFile (write_lines lines)]> fs))
    as [Hfs Hnodes].
  split.
  - intros p Hp. rewrite Hfs.
    + apply lookup_insert_ne. apply Hp. by left.
    + intros nt' Hnt'. apply Hp. by right.
  - intros k Hk. rewrite Hnodes.
    + apply odict_get_set_ne. intros ->. apply Hk. by left.
    + intros Hin. apply Hk. by right.
Qed.

(** What the loop writes for each node type. *)
Lemma save_raw_text_loop_files path dname items : ∀ nodes (fs : gmap string file),
  NoDup items.*1 →
  let r := save_raw_text_loop path dname items nodes fs in
  ∀ nt lines, (nt, lines) ∈ items →
    r.2 !! path_join path (nfile_name dname nt)
    = Some (TextFile (write_lines lines))
    ∧ odict_get r.1 nt = Some (PyStr (nfile_name dname nt)).
Proof.
  induction items as [|[nt0 lines0] items IH]; intros nodes fs Hnd r nt lines Hin.
  - by apply elem_of_nil in Hin.
  - subst r. simpl in *. apply NoDup_cons in Hnd as [Hnt0 Hnd].
    apply elem_of_cons in Hin as [Heq|Hin].
    + injection Heq as -> ->.
      pose proof (save_raw_text_loop_frame path dname items
                    (odict_set nodes nt0 (PyStr (nfile_name dname nt0)))
                    (<[path_join path (nfile_name dname nt0)
                       := TextFile (write_lines lines0)]> fs)) as [Hfs Hnodes].
      split.
      * rewrite Hfs; [apply lookup_insert_eq|].
        intros nt' Hnt' Heq. apply text_path_inj in Heq as ->. done.
      * rewrite Hnodes by done. apply odict_get_set_eq.
    + by apply IH.
Qed.



(** ** Reverse edge types *)

Lemma rev_prefix_ne s : "rev-" +:+ s ≠ s.
Proof.
  intros H. apply (f_equal String.length) in H.
  rewrite slength_app in H. simpl in H. lia.
Qed.

Lemma rev_rev_prefix_ne s : "rev-" +:+ "rev-" +:+ s ≠ s.
Proof.
  intros H. apply (f_equal String.length) in H.
  rewrite !slength_app in H. simpl in H. lia.
Qed.

(** X3.  [reverse_etype] raises [IndexError] exactly on tuples with fewer
    than three items; otherwise its result is never its argument, and
    reversing the result does not give the argument back either: the ends
    return but the relation has gained two prefixes. *)
Theorem reverse_etype_no_involution (e : etype) :
  (reverse_etype e = Raise IndexError ↔ ∃ t, e = ETuple t ∧ length t < 3)
  ∧ (∀ e', reverse_etype e = Ok e' →
       e' ≠ e
       ∧ ∃ e'', reverse_etype e' = Ok e'' ∧ e'' ≠ e
                ∧ (∀ src rel dst, e = ETuple [src; rel; dst] →
                     e'' = ETuple [src; "rev-" +:+ "rev-" +:+ rel; dst])).
Proof.
  split.
  - split.
    + destruct e as [s|t]; [discriminate|].
      intros H. exists t. split; [done|].
      destruct t as [|a [|r [|b t]]]; simpl; try lia. discriminate H.
    + intros (t & -> & Hlen).
      destruct t as [|a [|r [|b t]]]; simpl in *; try done; lia.
  - intros e' He. destruct e as [s|t].
    + injection He as <-. split.
      * intros [= H]. by apply rev_prefix_ne in H.
      * eexists. split; [reflexivity|]. split; [|discriminate].
        intros [= H]. by apply rev_rev_prefix_ne in H.
    + destruct t as [|a [|r [|b t]]]; try discriminate He.
      injection He as <-. split.
      * intros [= _ H _]. by apply rev_prefix_ne in H.
      * eexists. split; [reflexivity|]. split.
        -- intros [= H]. by apply rev_rev_prefix_ne in H.
        -- by intros src rel dst [= -> -> -> ->].
Qed.

(** ** [add_reverse_edges] *)

Lemma adict_set_fresh `{EqDecision K} {V} (d : adict K V) k v :
  k ∉ d.*1 → adict_set d k v = d ++ [(k, v)].
Proof.
  induction d as [|[k' v'] d IH]; simpl; intros Hk; [done|].
  destruct (decide (k' = k)) as [->|Hne].
  - exfalso. apply Hk. by left.
  - f_equal. apply IH. intros Hin. apply Hk. by right.
Qed.

Lemma adict_get_NoDup `{EqDecision K} {V} (d : adict K V) k v :
  NoDup d.*1 → (k, v) ∈ d → adict_get d k = Some v.
Proof.
  induction d as [|[k' v'] d IH]; simpl; intros Hnd Hin.
  - by apply elem_of_nil in Hin.
  - apply NoDup_cons in Hnd as [Hk' Hnd].
    apply elem_of_cons in Hin as [[= -> ->]|Hin].
    + by rewrite decide_True.
    + rewrite decide_False; [by apply IH|].
      intros ->. apply Hk'. apply list_elem_of_fmap. by exists (k, v).
Qed.

Lemma reversed_canonical e :
  (∀ t, e = ETuple t → length t = 3) → reverse_etype e = Ok (reversed e).
Proof.
  intros Hc. unfold reversed. destruct e as [s|t]; [done|].
  specialize (Hc t eq_refl). by destruct t as [|a [|r [|b [|]]]].
Qed.

Lemma reversed_inj e1 e2 :
  (∀ t, e1 = ETuple t → length t = 3) →
  (∀ t, e2 = ETuple t → length t = 3) →
  reversed e1 = reversed e2 → e1 = e2.
Proof.
  intros H1 H2. unfold reversed.
  destruct e1 as [s1|t1], e2 as [s2|t2].
  - simpl. intros [= H]. change (s1 = s2) in H. by subst.
  - specialize (H2 t2 eq_refl). by destruct t2 as [|a [|r [|b [|]]]].
  - specialize (H1 t1 eq_refl). by destruct t1 as [|a [|r [|b [|]]]].
  - specialize (H1 t1 eq_refl). specialize (H2 t2 eq_refl).
    destruct t1 as [|a1 [|r1 [|b1 [|]]]]; try discriminate.
    destruct t2 as [|a2 [|r2 [|b2 [|]]]]; try discriminate.
    simpl. intros [= -> H ->]. change (r1 = r2) in H. by subst.
Qed.

(** Under the three conditions all keys of [with_reverses] differ. *)
Lemma with_reverses_NoDup (graph_edges : adict etype edge_lists) :
  NoDup graph_edges.*1 → canonical_keys graph_edges →
  no_reverse_present graph_edges →
  NoDup (with_reverses graph_edges).*1.
Proof.
  intros Hnd Hcan Hnr.
  assert (Hrev : ∀ e e', e ∈ graph_edges.*1 → e' ∈ graph_edges.*1 →
                         reversed e ≠ e').
  { intros e e' He He' Heq. apply (Hnr e e' He He').
    rewrite reversed_canonical; [by rewrite Heq|].
    intros t ->. by apply Hcan. }
  assert (Hinj : ∀ e e', e ∈ graph_edges.*1 → e' ∈ graph_edges.*1 →
                         reversed e = reversed e' → e = e').
  { intros e e' He He'. apply reversed_inj; intros t ->; by apply Hcan. }
  clear Hcan Hnr. revert Hnd Hrev Hinj.
  induction graph_edges as [|[e E] g IH]; intros Hnd Hrev Hinj; simpl.
  - constructor.
  - apply NoDup_cons in Hnd as [He Hnd].
    assert (Hkeys : ∀ k, k ∈ (with_reverses g).*1 →
                         k ∈ g.*1 ∨ ∃ e', e' ∈ g.*1 ∧ k = reversed e').
    { clear. intros k. induction g as [|[e' E'] g IHg]; simpl.
      - intros H. by apply elem_of_nil in H.
      - intros H. apply elem_of_cons in H as [->|H]; [left; by left|].
        apply elem_of_cons in H as [->|H].
        + right. exists e'. split; [by left|done].
        + destruct (IHg H) as [?|(e'' & ? & ?)]; [left; by right|].
          right. exists e''. split; [by right|done]. }
    apply NoDup_cons. split; [|apply NoDup_cons; split].
    + intros Hin. apply elem_of_cons in Hin as [Heq|Hin].
      * symmetry in Heq. revert Heq. apply Hrev; by left.
      * apply Hkeys in Hin as [?|(e' & He' & Heq)]; [done|].
        symmetry in Heq. revert Heq. apply Hrev; [by right|by left].
    + intros Hin. apply Hkeys in Hin as [Hin|(e' & He' & Heq)].
      * revert Hin. intros Hin. eapply Hrev; [| |reflexivity]; [by left|by right].
      * apply Hinj in Heq; [|by left|by right]. by subst.
    + apply IH; [done| |].
      * intros ????. apply Hrev; by right.
      * intros ????. apply Hinj; by right.
Qed.

Lemma add_reverse_edges_loop items : ∀ acc,
  (∀ e, e ∈ items.*1 → reverse_etype e = Ok (reversed e)) →
  NoDup (acc.*1 ++ (with_reverses items).*1) →
  for_each add_reverse_edges_body items acc = Ok (acc ++ with_reverses items).
Proof.
  induction items as [|[e E] items IH]; intros acc Hrev Hnd; simpl.
  - by rewrite app_nil_r.
  - rewrite (Hrev e) by (by left). simpl.
    apply NoDup_app in Hnd as (Hacc & Hdisj & Hnew).
    simpl in Hnew. apply NoDup_cons in Hnew as [He Hnew].
    apply NoDup_cons in Hnew as [Hr Hnew].
    rewrite (adict_set_fresh acc e E).
    2:{ intros Hin. apply (Hdisj e Hin). by left. }
    rewrite (adict_set_fresh (acc ++ [(e, E)])).
    2:{ rewrite fmap_app. simpl. intros Hin.
        apply elem_of_app in Hin as [Hin|Hin].
        - apply (Hdisj _ Hin). right. by left.
        - apply list_elem_of_singleton in Hin. apply He. rewrite Hin. by left. }
    rewrite IH.
    + by rewrite <- !app_assoc.
    + intros e' He'. apply Hrev. by right.
    + rewrite !fmap_app. simpl. rewrite <- !app_assoc. simpl.
      apply NoDup_app. split_and!; [done| |].
      * intros k Hk Hin. apply elem_of_cons in Hin as [->|Hin].
        { apply (Hdisj e Hk). by left. }
        apply elem_of_cons in Hin as [->|Hin].
        { apply (Hdisj _ Hk). right. by left. }
        apply (Hdisj k Hk). right. by right.
      * apply NoDup_cons. split; [exact He|by apply NoDup_cons].
Qed.

(** X4.  When the edge types are distinct, every tuple among them is a
    triple, and none of them is the reverse of one of them,
    [add_reverse_edges] returns each edge type followed by its reverse, in
    the order of the input: the edges of every type are kept, and those of
    its reverse are the same edges, one by one, with source and destination
    exchanged. *)
Theorem add_reverse_edges_spec (graph_edges : adict etype edge_lists) :
  NoDup graph_edges.*1 → canonical_keys graph_edges →
  no_reverse_present graph_edges →
  add_reverse_edges graph_edges = Ok (with_reverses graph_edges)
  ∧ length (with_reverses graph_edges) = 2 * length graph_edges
  ∧ ∀ e src dst, (e, (src, dst)) ∈ graph_edges →
      adict_get (with_reverses graph_edges) e = Some (src, dst)
      ∧ reverse_etype e = Ok (reversed e)
      ∧ adict_get (with_reverses graph_edges) (reversed e) = Some (dst, src).
Proof.
  intros Hnd Hcan Hnr.
  pose proof (with_reverses_NoDup graph_edges Hnd Hcan Hnr) as Hnd'.
  assert (Hrev : ∀ e, e ∈ graph_edges.*1 → reverse_etype e = Ok (reversed e)).
  { intros e He. apply reversed_canonical. intros t ->. by apply Hcan. }
  split_and!.
  - unfold add_reverse_edges. by rewrite add_reverse_edges_loop.
  - clear. induction graph_edges as [|[e E] g IH]; simpl; [done|]. lia.
  - intros e src dst Hin.
    assert (He : e ∈ graph_edges.*1).
    { apply list_elem_of_fmap. by exists (e, (src, dst)). }
    split_and!; [| by apply Hrev |].
    + apply adict_get_NoDup; [done|]. unfold with_reverses.
      apply list_elem_of_In, in_flat_map. exists (e, (src, dst)).
      split; [by apply list_elem_of_In|]. by left.
    + apply adict_get_NoDup; [done|]. unfold with_reverses.
      apply list_elem_of_In, in_flat_map. exists (e, (src, dst)).
      split; [by apply list_elem_of_In|]. right. by left.
Qed.

Lemma add_reverse_edges_spec_witness :
  let g := [(ETuple ["user"; "buys"; "item"], ([0; 1], [5; 6]));
            (EStr "likes", ([2], [3]))] in
  add_reverse_edges g
  = Ok [(ETuple ["user"; "buys"; "item"], ([0; 1], [5; 6]));
        (ETuple ["item"; "rev-buys"; "user"], ([5; 6], [0; 1]));
        (EStr "likes", ([2], [3]));
        (EStr "rev-likes", ([3], [2]))].
Proof.
  intros g.
  destruct (add_reverse_edges_spec g) as [H _]; [| | |exact H].
  - apply (bool_decide_unpack _). vm_compute. exact I.
  - intros t Ht. subst g. simpl in Ht.
    apply elem_of_cons in Ht as [[= ->]|Ht]; [done|].
    apply elem_of_cons in Ht as [?|Ht]; [done|]. by apply elem_of_nil in Ht.
  - intros e e' He He'. subst g. simpl in He, He'.
    repeat (apply elem_of_cons in He as [->|He]);
      repeat (apply elem_of_cons in He' as [->|He']);
      try (by apply elem_of_nil in He); try (by apply elem_of_nil in He');
      discriminate.
Defined.

(** The third condition is needed: a type that is the reverse of a later
    type loses its edges to the reversed edges of that type. *)
Example add_reverse_edges_overwrites :
  let g := [(ETuple ["item"; "rev-buys"; "user"], ([7], [8]));
            (ETuple ["user"; "buys"; "item"], ([0], [5]))] in
  ∃ new, add_reverse_edges g = Ok new
         ∧ adict_get new (ETuple ["item"; "rev-buys"; "user"]) = Some ([5], [0]).
Proof. eexists. split; vm_compute; reflexivity. Qed.

(** ** [generated_train_valid_test_splits] *)

Lemma foldl_insert_length (v : Z) ids : ∀ mask : list Z,
  length (foldl (λ m i, <[i := v]> m) mask ids) = length mask.
Proof.
  induction ids as [|i ids IH]; intros mask; simpl; [done|].
  by rewrite IH, length_insert.
Qed.

Lemma foldl_insert_notin (v : Z) ids : ∀ (mask : list Z) j,
  j ∉ ids → foldl (λ m i, <[i := v]> m) mask ids !! j = mask !! j.
Proof.
  induction ids as [|i ids IH]; intros mask j Hj; simpl; [done|].
  rewrite IH by (intros ?; apply Hj; by right).
  apply list_lookup_insert_ne. intros ->. apply Hj. by left.
Qed.

Lemma foldl_insert_in (v : Z) ids : ∀ (mask : list Z) j,
  j ∈ ids → j < length mask →
  foldl (λ m i, <[i := v]> m) mask ids !! j = Some v.
Proof.
  induction ids as [|i ids IH]; intros mask j Hj Hlen; simpl.
  - by apply elem_of_nil in Hj.
  - destruct (decide (j ∈ ids)) as [Hin|Hnin].
    + apply IH; [done|]. by rewrite length_insert.
    + apply elem_of_cons in Hj as [->|?]; [|done].
      rewrite foldl_insert_notin by done. by apply list_lookup_insert_eq.
Qed.

Lemma index_put_spec mask ids v :
  Forall (λ i, i < length mask) ids →
  ∃ mask', index_put mask ids v = Ok mask'
           ∧ length mask' = length mask
           ∧ (∀ j, j ∈ ids → mask' !! j = Some v)
           ∧ (∀ j, j ∉ ids → mask' !! j = mask !! j).
Proof.
  intros Hids. unfold index_put. rewrite decide_True by done.
  eexists. split; [reflexivity|]. split_and!.
  - apply foldl_insert_length.
  - intros j Hj. apply foldl_insert_in; [done|].
    by apply (proj1 (list.Forall_forall _ _) Hids).
  - intros j Hj. by apply foldl_insert_notin.
Qed.

(** The three slices of a permutation, cut at increasing points. *)
Lemma slices_of_permutation (l : list nat) n a b c :
  l ≡ₚ seq 0 n → a ≤ b → b ≤ c →
  NoDup (py_slice l 0 a ++ py_slice l a b ++ py_slice l b c)
  ∧ ∀ j, j ∈ (py_slice l 0 a ++ py_slice l a b ++ py_slice l b c) → j < n.
Proof.
  intros Hperm Hab Hbc.
  assert (Hl : l = py_slice l 0 a ++ py_slice l a b ++ py_slice l b c
                   ++ drop c l).
  { unfold py_slice. rewrite drop_0, Nat.sub_0_r.
    rewrite <- (take_drop a l) at 1. f_equal.
    rewrite <- (take_drop (b - a) (drop a l)) at 1. f_equal.
    rewrite drop_drop. replace (a + (b - a)) with b by lia.
    rewrite <- (take_drop (c - b) (drop b l)) at 1. f_equal.
    rewrite drop_drop. by replace (b + (c - b)) with c by lia. }
  assert (Hnd : NoDup l) by (rewrite Hperm; apply NoDup_seq).
  split.
  - rewrite Hl in Hnd. rewrite !app_assoc in Hnd.
    apply NoDup_app in Hnd as (Hnd & _ & _). by rewrite <- !app_assoc in Hnd.
  - intros j Hj.
    assert (j ∈ l) as Hjl.
    { rewrite Hl. rewrite !app_assoc. apply elem_of_app. left.
      by rewrite <- !app_assoc. }
    rewrite Hperm in Hjl. apply elem_of_seq in Hjl. lia.
Qed.

Section SplitFacts.

Variable randperm : nat → nat → list nat.
Variables train_cut valid_cut test_cut : nat → nat.

(** The body of the loop, for an edge type whose ids were permuted. *)
Lemma split_etype_good use_non_selected_edges acc g k c :
  randperm k (sg_number_of_edges g c) ≡ₚ seq 0 (sg_number_of_edges g c) →
  train_cut (sg_number_of_edges g c) ≤ valid_cut (sg_number_of_edges g c) →
  valid_cut (sg_number_of_edges g c) ≤ test_cut (sg_number_of_edges g c) →
  ∃ train val test tm vm tem,
    split_etype randperm train_cut valid_cut test_cut use_non_selected_edges
      acc g (k, c)
    = Ok {| train_eids := <[c := train]> (train_eids acc);
            val_eids := <[c := val]> (val_eids acc);
            test_eids := <[c := test]> (test_eids acc);
            train_graph_mask_dic := <[c := tm]> (train_graph_mask_dic acc);
            val_graph_mask_dic := <[c := vm]> (val_graph_mask_dic acc);
            test_graph_mask_dic := <[c := tem]> (test_graph_mask_dic acc) |}
    ∧ good_split (sg_number_of_edges g c) train val test tm vm tem.
Proof.
  intros Hperm Hab Hbc. unfold split_etype.
  set (n := sg_number_of_edges g c) in *.
  set (l := randperm k n) in *.
  destruct (slices_of_permutation l n _ _ _ Hperm Hab Hbc) as [Hnd Hlt].
  set (train := py_slice l 0 (train_cut n)) in *.
  set (val := py_slice l (train_cut n) (valid_cut n)) in *.
  set (test := py_slice l (valid_cut n) (test_cut n)) in *.
  assert (Htrain : ∀ m : list Z, length m = n →
                     Forall (λ i, i < length m) train).
  { intros m Hm. apply list.Forall_forall. intros j Hj. rewrite Hm.
    apply Hlt. apply elem_of_app. by left. }
  assert (Hval : ∀ m : list Z, length m = n → Forall (λ i, i < length m) val).
  { intros m Hm. apply list.Forall_forall. intros j Hj. rewrite Hm.
    apply Hlt. apply elem_of_app. right. apply elem_of_app. by left. }
  assert (Htest : ∀ m : list Z, length m = n → Forall (λ i, i < length m) test).
  { intros m Hm. apply list.Forall_forall. intros j Hj. rewrite Hm.
    apply Hlt. apply elem_of_app. right. apply elem_of_app. by right. }
  assert (Hdis : ∀ j, (j ∈ train → (j ∉ val) ∧ (j ∉ test))
                      ∧ (j ∈ val → j ∉ test)).
  { intros j. apply NoDup_app in Hnd as (_ & H1 & H2).
    apply NoDup_app in H2 as (_ & H2 & _). split.
    - intros Hj. split; intros Hj'; apply (H1 j Hj); apply elem_of_app; auto.
    - intros Hj. by apply H2. }
  exists train, val, test.
  destruct use_non_selected_edges.
  - destruct (index_put_spec (replicate n 1%Z) val 0%Z)
      as (m1 & -> & Hl1 & Hin1 & Hout1);
      [apply Hval, length_replicate|].
    rewrite length_replicate in Hl1. cbn [bind].
    destruct (index_put_spec m1 test 0%Z) as (tm & -> & Hl2 & Hin2 & Hout2);
      [by apply Htest|].
    cbn [bind].
    destruct (index_put_spec (replicate n 1%Z) test 0%Z)
      as (vm & -> & Hl3 & Hin3 & Hout3);
      [apply Htest, length_replicate|].
    rewrite length_replicate in Hl3. cbn [bind].
    exists tm, vm, (replicate n 1%Z). split; [reflexivity|].
    assert (Hone : ∀ j, j < n → replicate n 1%Z !! j = Some 1%Z).
    { intros j Hj. by apply lookup_replicate_2. }
    unfold good_split. split_and!; try done; try lia.
    + apply length_replicate.
    + intros j Hj. destruct (Hdis j) as [Hd _]. destruct (Hd Hj).
      rewrite Hout2, Hout1 by done. apply Hone, Hlt, elem_of_app. by left.
    + intros j Hj.
      assert (Hjt : j ∉ test).
      { intros Hin. rewrite (Hin2 j Hin) in Hj. discriminate. }
      rewrite Hout2 in Hj by done.
      assert (Hjv : j ∉ val).
      { intros Hin. rewrite (Hin1 j Hin) in Hj. discriminate. }
      split_and!; try done. rewrite Hout3 by done.
      apply Hone. apply lookup_lt_Some in Hj. lia.
    + intros j Hj. destruct (Hdis j) as [_ Hd].
      rewrite Hout3 by auto. apply Hone, Hlt, elem_of_app. right.
      apply elem_of_app. by left.
    + intros j Hj.
      assert (Hjt : j ∉ test).
      { intros Hin. rewrite (Hin3 j Hin) in Hj. discriminate. }
      split; [done|]. apply Hone. apply lookup_lt_Some in Hj. lia.
    + intros j Hj. apply Hone, Hlt, elem_of_app. right. apply elem_of_app.
      by right.
  - assert (Hzero : ∀ j, replicate n 0%Z !! j ≠ Some 1%Z).
    { intros j Hj. apply lookup_replicate in Hj as [? _]. discriminate. }
    destruct (index_put_spec (replicate n 0%Z) train 1%Z)
      as (tm & -> & Hl1 & Hin1 & Hout1);
      [apply Htrain, length_replicate|].
    rewrite length_replicate in Hl1. cbn [bind].
    destruct (index_put_spec tm val 1%Z) as (vm & -> & Hl2 & Hin2 & Hout2);
      [by apply Hval|].
    cbn [bind].
    destruct (index_put_spec vm test 1%Z) as (tem & -> & Hl3 & Hin3 & Hout3);
      [apply Htest; lia|].
    cbn [bind].
    exists tm, vm, tem. split; [reflexivity|].
    assert (Htm : ∀ j, tm !! j = Some 1%Z → j ∈ train).
    { intros j Hj. destruct (decide (j ∈ train)); [done|].
      rewrite Hout1 in Hj by done. by apply Hzero in Hj. }
    assert (Hvm : ∀ j, vm !! j = Some 1%Z → j ∈ train ∨ j ∈ val).
    { intros j Hj. destruct (decide (j ∈ val)); [by right|].
      rewrite Hout2 in Hj by done. left. by apply Htm. }
    unfold good_split. split_and!; try done; try lia.
    + intros j Hj. apply Htm in Hj. destruct (Hdis j) as [Hd _].
      destruct (Hd Hj). split_and!; try done.
      rewrite Hout2 by done. by apply Hin1.
    + intros j Hj.
      assert (Hjt : j ∉ test).
      { destruct (Hdis j) as [Hd1 Hd2].
        destruct (Hvm j Hj) as [H|H]; [by destruct (Hd1 H)|by apply Hd2]. }
      split; [done|]. by rewrite Hout3.
Qed.

(** What the loop has stored for the edge types it went through. *)
Lemma split_loop_good use_non_selected_edges g cs : ∀ k acc,
  NoDup cs →
  (∀ i c, cs !! i = Some c →
     randperm (k + i) (sg_number_of_edges g c)
     ≡ₚ seq 0 (sg_number_of_edges g c)) →
  (∀ n, train_cut n ≤ valid_cut n ∧ valid_cut n ≤ test_cut n) →
  ∃ res,
    for_each (λ acc ke, split_etype randperm train_cut valid_cut test_cut
                          use_non_selected_edges acc g ke)
      (zip (seq k (length cs)) cs) acc = Ok res
    ∧ (∀ c, c ∈ cs →
         ∃ train val test tm vm tem,
           train_eids res !! c = Some train ∧ val_eids res !! c = Some val
           ∧ test_eids res !! c = Some test
           ∧ train_graph_mask_dic res !! c = Some tm
           ∧ val_graph_mask_dic res !! c = Some vm
           ∧ test_graph_mask_dic res !! c = Some tem
           ∧ good_split (sg_number_of_edges g c) train val test tm vm tem)
    ∧ (∀ c, c ∉ cs →
         train_eids res !! c = train_eids acc !! c
         ∧ val_eids res !! c = val_eids acc !! c
         ∧ test_eids res !! c = test_eids acc !! c
         ∧ train_graph_mask_dic res !! c = train_graph_mask_dic acc !! c
         ∧ val_graph_mask_dic res !! c = val_graph_mask_dic acc !! c
         ∧ test_graph_mask_dic res !! c = test_graph_mask_dic acc !! c).
Proof.
  induction cs as [|c0 cs IH]; intros k acc Hnd Hperm Hcuts.
  - exists acc. split; [done|]. split; [|done].
    intros c Hc. by apply elem_of_nil in Hc.
  - apply NoDup_cons in Hnd as [Hc0 Hnd].
    destruct (Hcuts (sg_number_of_edges g c0)) as [Hab Hbc].
    destruct (split_etype_good use_non_selected_edges acc g k c0)
      as (train & val & test & tm & vm & tem & Hstep & Hgood);
      [|done|done|].
    { specialize (Hperm 0 c0 eq_refl). by rewrite Nat.add_0_r in Hperm. }
    cbn [length seq zip zip_with for_each]. rewrite Hstep. simpl.
    destruct (IH (S k) {|
      train_eids := <[c0:=train]> (train_eids acc);
      val_eids := <[c0:=val]> (val_eids acc);
      test_eids := <[c0:=test]> (test_eids acc);
      train_graph_mask_dic := <[c0:=tm]> (train_graph_mask_dic acc);
      val_graph_mask_dic := <[c0:=vm]> (val_graph_mask_dic acc);
      test_graph_mask_dic := <[c0:=tem]> (test_graph_mask_dic acc) |} Hnd)
      as (res & Hrun & Hin & Hout).
    { intros i c Hi. replace (S k + i) with (k + S i) by lia.
      by apply Hperm. }
    { done. }
    exists res. split; [exact Hrun|]. split.
    + intros c Hc. apply elem_of_cons in Hc as [->|Hc]; [|by apply Hin].
      destruct (Hout c0 Hc0) as (-> & -> & -> & -> & -> & ->). simpl.
      exists train, val, test, tm, vm, tem.
      rewrite !lookup_insert_eq. done.
    + intros c Hc.
      assert (c ≠ c0) by (intros ->; apply Hc; by left).
      destruct (Hout c) as (-> & -> & -> & -> & -> & ->).
      { intros ?. apply Hc. by right. }
      simpl. rewrite !lookup_insert_ne by done. done.
Qed.

End SplitFacts.

(** X5.  When [randperm] yields permutations and the cut points increase
    (percentages that are not negative), the split of every canonical edge
    type is sound in both modes: training, validation and test ids share no
    edge; the training mask holds every training edge and no validation or
    test edge; the validation mask contains the training mask and the
    validation edges but no test edge; the test mask contains the
    validation mask and the test edges. *)
Theorem generated_splits_sound (randperm : nat → nat → list nat)
    (train_cut valid_cut test_cut : nat → nat) (g : SplitGraph)
    (use_non_selected_edges : bool) :
  NoDup (sg_canonical_etypes g) →
  (∀ k c, sg_canonical_etypes g !! k = Some c →
     randperm k (sg_number_of_edges g c) ≡ₚ seq 0 (sg_number_of_edges g c)) →
  (∀ n, train_cut n ≤ valid_cut n ∧ valid_cut n ≤ test_cut n) →
  ∃ res,
    generated_train_valid_test_splits randperm train_cut valid_cut test_cut
      g use_non_selected_edges = Ok res
    ∧ ∀ c, c ∈ sg_canonical_etypes g →
        ∃ train val test tm vm tem,
          train_eids res !! c = Some train ∧ val_eids res !! c = Some val
          ∧ test_eids res !! c = Some test
          ∧ train_graph_mask_dic res !! c = Some tm
          ∧ val_graph_mask_dic res !! c = Some vm
          ∧ test_graph_mask_dic res !! c = Some tem
          ∧ good_split (sg_number_of_edges g c) train val test tm vm tem.
Proof.
  intros Hnd Hperm Hcuts. unfold generated_train_valid_test_splits.
  destruct (split_loop_good randperm train_cut valid_cut test_cut
              use_non_selected_edges g (sg_canonical_etypes g) 0
              (mk_Splits ∅ ∅ ∅ ∅ ∅ ∅) Hnd)
    as (res & Hrun & Hin & _); [exact Hperm|exact Hcuts|].
  exists res. split; [exact Hrun|exact Hin].
Qed.

Lemma generated_splits_sound_witness :
  let g := mk_SplitGraph [("user", "buys", "item")] (λ _, 5) in
  let randperm := λ (_ n : nat), reverse (seq 0 n) in
  ∃ res,
    generated_train_valid_test_splits randperm (λ _, 3) (λ _, 4) (λ _, 5)
      g false = Ok res
    ∧ train_eids res !! ("user", "buys", "item") = Some [4; 3; 2]
    ∧ val_eids res !! ("user", "buys", "item") = Some [1]
    ∧ test_eids res !! ("user", "buys", "item") = Some [0]
    ∧ train_graph_mask_dic res !! ("user", "buys", "item")
      = Some [0; 0; 1; 1; 1]%Z.
Proof.
  intros g randperm.
  destruct (generated_splits_sound randperm (λ _, 3) (λ _, 4) (λ _, 5) g false)
    as (res & Hrun & _).
  - apply (bool_decide_unpack _). vm_compute. exact I.
  - intros k c _. apply reverse_Permutation.
  - intros n. lia.
  - exists res. split; [exact Hrun|].
    vm_compute in Hrun. injection Hrun as <-.
    split_and!; vm_compute; reflexivity.
Defined.

(** ** A well-shaped exchange *)

Lemma io_for_app {S A X} (body : X → A → io S X) xs ys x s :
  io_for body (xs ++ ys) x s
  = match io_for body xs x s with
    | (Ok x', s') => io_for body ys x' s'
    | (Raise e, s') => (Raise e, s')
    | (Hang, s') => (Hang, s')
    end.
Proof.
  revert x s. induction xs as [|a xs IH]; intros x s; simpl; [done|].
  unfold io_bind. destruct (body x a s) as [[x1| |] s1]; [|done..].
  apply IH.
Qed.

Lemma log_events_app evs1 evs2 c :
  log_events evs2 (log_events evs1 c) = log_events (evs1 ++ evs2) c.
Proof. unfold log_events. simpl. by rewrite app_assoc. Qed.

(** The first loop, exactly: the own slot is filled, the sends go out. *)
Lemma peer_sends_cons_self prep rank inp xs :
  peer_sends prep rank inp (rank :: xs) = peer_sends prep rank inp xs.
Proof. unfold peer_sends. simpl. by rewrite decide_True. Qed.

Lemma peer_sends_cons_peer prep rank inp i t xs :
  i ≠ rank → inp !! i = Some t →
  peer_sends prep rank inp (i :: xs)
  = EvISend i (prep t) :: peer_sends prep rank inp xs.
Proof.
  intros Hne Ht. unfold peer_sends. simpl.
  rewrite decide_False by done. by rewrite Ht.
Qed.

Lemma send_step_self prep rank inp out t c :
  inp !! rank = Some t → rank < length out →
  send_step prep rank inp out rank c = (Ok (<[rank := prep t]> out), c).
Proof.
  intros Ht Hlt. unfold send_step. rewrite decide_True by done.
  unfold io_bind, io_lift, list_item, list_setitem. rewrite Ht.
  by rewrite decide_True.
Qed.

Lemma send_step_peer prep rank inp out i t c :
  i ≠ rank → inp !! i = Some t →
  send_step prep rank inp out i c
  = (Ok out, log_event (EvISend i (prep t)) c).
Proof.
  intros Hne Ht. unfold send_step. rewrite decide_False by done.
  unfold io_bind, io_lift, list_item, isend, io_ret. by rewrite Ht.
Qed.

Lemma send_loop_exact prep rank inp xs : ∀ out c,
  NoDup xs →
  Forall (λ i, i < length inp ∧ i < length out) xs →
  io_for (send_step prep rank inp) xs out c
  = (Ok (if decide (rank ∈ xs)
         then match inp !! rank with
              | Some t => <[rank := prep t]> out
              | None => out
              end
         else out),
     log_events (peer_sends prep rank inp xs) c).
Proof.
  induction xs as [|i xs IH]; intros out c Hnd Hxs.
  - simpl. by rewrite log_events_nil.
  - apply NoDup_cons in Hnd as [Hi Hnd].
    inversion Hxs as [|? ? [Hin Hout] Hxs']; subst.
    destruct (lookup_lt_is_Some_2 inp i Hin) as [t Ht].
    rewrite io_for_cons.
    destruct (decide (i = rank)) as [->|Hne].
    + rewrite (send_step_self _ _ _ _ t) by done.
      rewrite peer_sends_cons_self.
      rewrite IH; [|done|by rewrite length_insert].
      rewrite decide_False by done. rewrite decide_True by (by left).
      by rewrite Ht.
    + rewrite (send_step_peer _ _ _ _ _ t) by done.
      rewrite (peer_sends_cons_peer _ _ _ _ t) by done.
      rewrite IH by done. rewrite log_events_cons.
      f_equal. f_equal.
      destruct (decide (rank ∈ xs)) as [Hr|Hr].
      * rewrite decide_True by (by right). done.
      * rewrite decide_False; [done|].
        intros Hr'. apply elem_of_cons in Hr' as [?|?]; [by subst|done].
Qed.

(** The second loop, exactly, when every message fits its buffer. *)
Lemma recv_loop_exact rank xs : ∀ out c,
  NoDup xs →
  (∀ i, i ∈ xs → i ≠ rank →
     ∃ m buf, inbox c i = Some m ∧ out !! i = Some buf
              ∧ t_shape m = t_shape buf) →
  ∃ out',
    io_for (alltoallv_recv rank) xs out c
    = (Ok out', log_events (peer_recvs rank xs) c)
    ∧ length out' = length out
    ∧ (∀ j, j ∉ xs ∨ j = rank → out' !! j = out !! j)
    ∧ (∀ j, j ∈ xs → j ≠ rank →
         ∃ m buf, inbox c j = Some m ∧ out !! j = Some buf
                  ∧ out' !! j = Some {| t_device := t_device buf;
                                        t_shape := t_shape buf;
                                        t_data := t_data m |}).
Proof.
  induction xs as [|i xs IH]; intros out c Hnd Hfit.
  - exists out. simpl. rewrite log_events_nil. split_and!; try done.
    intros j Hj. by apply elem_of_nil in Hj.
  - apply NoDup_cons in Hnd as [Hi Hnd].
    rewrite io_for_cons. unfold alltoallv_recv at 1, peer_recvs.
    rewrite filter_cons.
    destruct (decide (i ≠ rank)) as [Hne|Heq].
    + destruct (Hfit i) as (m & buf & Hm & Hbuf & Hshape); [by left|done|].
      unfold io_bind, io_lift, list_item, recv, io_ret.
      rewrite Hbuf, Hm. rewrite decide_True by done.
      set (got := {| t_device := t_device buf; t_shape := t_shape buf;
                     t_data := t_data m |}).
      destruct (IH (<[i := got]> out) (log_event (EvRecv i) c) Hnd)
        as (out' & Hrun & Hlen & Hsame & Hgot).
      { intros j Hj Hjr. destruct (Hfit j) as (m' & buf' & ? & ? & ?);
          [by right|done|].
        exists m', buf'. split_and!; try done.
        rewrite list_lookup_insert_ne; [done|]. intros ->. done. }
      exists out'. rewrite Hrun. rewrite fmap_cons, log_events_cons.
      split_and!; try done.
      * by rewrite Hlen, length_insert.
      * intros j Hj. rewrite Hsame.
        -- apply list_lookup_insert_ne. intros ->.
           destruct Hj as [Hj| ->]; [|done]. apply Hj. by left.
        -- destruct Hj as [Hj|Hj]; [left|by right].
           intros ?. apply Hj. by right.
      * intros j Hj Hjr. apply elem_of_cons in Hj as [->|Hj].
        -- exists m, buf. split_and!; try done.
           rewrite Hsame by (by left).
           apply list_lookup_insert_eq. by eapply lookup_lt_Some.
        -- destruct (Hgot j Hj Hjr) as (m' & buf' & Hm' & Hb' & Ho').
           exists m', buf'. split_and!; try done.
           rewrite list_lookup_insert_ne in Hb'; [done|]. intros ->. done.
    + assert (i = rank) as -> by (destruct (decide (i = rank)); [done|]; by destruct Heq).
      unfold io_ret.
      destruct (IH out c Hnd) as (out' & Hrun & Hlen & Hsame & Hgot).
      { intros j Hj Hjr. apply Hfit; [by right|done]. }
      exists out'. rewrite Hrun. split_and!; try done.
      * intros j Hj. apply Hsame. destruct Hj as [Hj|Hj]; [left|by right].
        intros ?. apply Hj. by right.
      * intros j Hj Hjr. apply elem_of_cons in Hj as [->|Hj]; [done|].
        by apply Hgot.
Qed.

Lemma exchange_delivers prep rank world_size out inp c :
  rank < world_size → well_shaped rank world_size out inp c →
  ∃ out',
    Py.io_bind (io_for (send_step prep rank inp) (range world_size) out)
      (λ out, let! out := io_for (alltoallv_recv rank)
                            (range world_size) out in
              barrier ;; io_ret out) c
    = (Ok out',
       log_events (peer_sends prep rank inp (range world_size)
                   ++ peer_recvs rank (range world_size) ++ [EvBarrier]) c)
    ∧ length out' = world_size
    ∧ ∀ i, i < world_size → out' !! i = delivered prep rank out inp c i.
Proof.
  intros Hrank (Hinp & Hout & Hfit).
  assert (Hnd : NoDup (range world_size)) by apply NoDup_seq.
  assert (Hrange : ∀ i, i ∈ range world_size ↔ i < world_size).
  { intros i. unfold range. rewrite elem_of_seq. lia. }
  unfold io_bind at 1. rewrite send_loop_exact; [|done|].
  2:{ apply list.Forall_forall. intros i Hi. apply Hrange in Hi. lia. }
  rewrite decide_True by (by apply Hrange).
  destruct (lookup_lt_is_Some_2 inp rank) as [t Ht]; [lia|]. rewrite Ht.
  set (c1 := log_events _ c). set (out1 := <[rank := prep t]> out).
  destruct (recv_loop_exact rank (range world_size) out1 c1 Hnd)
    as (out' & Hrun & Hlen & Hsame & Hgot).
  { intros i Hi Hne. apply Hrange in Hi.
    destruct (Hfit i Hi Hne) as (m & buf & ? & ? & ?).
    exists m, buf. split_and!; try done.
    subst out1. rewrite list_lookup_insert_ne; [done|]. by intros ->. }
  unfold io_bind at 1. rewrite Hrun.
  unfold io_bind, barrier, io_ret. exists out'. split_and!.
  - f_equal. subst c1.
    change (log_event EvBarrier ?x) with (log_events [EvBarrier] x).
    by rewrite !log_events_app, <- ?app_assoc.
  - rewrite Hlen. subst out1. rewrite length_insert. lia.
  - intros i Hi. unfold delivered.
    destruct (decide (i = rank)) as [->|Hne].
    + rewrite Hsame by (by right). subst out1. rewrite Ht. simpl.
      apply list_lookup_insert_eq. lia.
    + destruct (Hgot i) as (m & buf & Hm & Hbuf & ->); [by apply Hrange|done|].
      subst out1. rewrite list_lookup_insert_ne in Hbuf by (by intros ->).
      subst c1. simpl in Hm. by rewrite Hbuf, Hm.
Qed.

(** X6.  On a well-shaped call (one tensor and one buffer per rank, every
    message of the shape of its buffer) both all-to-all-v primitives
    return; the calls they make are all sends in rank order, then all
    receives in rank order, then one barrier; and the output list holds
    this rank's own tensor in its own slot and, in the slot of every peer,
    the data that this peer has sent, in the buffer provided for it. *)
Theorem alltoallv_delivers (rank world_size : nat) (out inp : list tensor)
    (c : comm) :
  rank < world_size → well_shaped rank world_size out inp c →
  (∃ out',
     alltoallv_cpu rank world_size out inp c
     = (Ok out',
        log_events (peer_sends (to_device CPU) rank inp (range world_size)
                    ++ peer_recvs rank (range world_size) ++ [EvBarrier]) c)
     ∧ length out' = world_size
     ∧ ∀ i, i < world_size →
         out' !! i = delivered (to_device CPU) rank out inp c i)
  ∧ (∃ out',
       alltoallv_nccl rank world_size out inp c
       = (Ok out',
          log_events (peer_sends id rank inp (range world_size)
                      ++ peer_recvs rank (range world_size) ++ [EvBarrier]) c)
       ∧ length out' = world_size
       ∧ ∀ i, i < world_size → out' !! i = delivered id rank out inp c i).
Proof.
  intros Hrank Hwell. split.
  - apply (exchange_delivers (to_device CPU)); assumption.
  - apply (exchange_delivers id); assumption.
Qed.

(** X7.  An input list shorter than [world_size] is noticed only when its
    end is reached: the sends to every peer below that index have gone
    out, then [IndexError] is raised; nothing is received and no barrier
    is passed. *)
Theorem alltoallv_short_input (rank world_size : nat) (out inp : list tensor)
    (c : comm) :
  length inp < world_size → length inp ≤ length out →
  alltoallv_cpu rank world_size out inp c
  = (Raise IndexError,
     log_events (peer_sends (to_device CPU) rank inp (range (length inp))) c)
  ∧ alltoallv_nccl rank world_size out inp c
    = (Raise IndexError,
       log_events (peer_sends id rank inp (range (length inp))) c).
Proof.
  intros Hshort Hout.
  assert (Hgen : ∀ prep,
    Py.io_bind (io_for (send_step prep rank inp) (range world_size) out)
      (λ out, let! out := io_for (alltoallv_recv rank)
                            (range world_size) out in
              barrier ;; io_ret out) c
    = (Raise IndexError,
       log_events (peer_sends prep rank inp (range (length inp))) c)).
  { intros prep. unfold io_bind at 1.
    assert (Hsplit : range world_size
                     = range (length inp)
                       ++ length inp :: seq (S (length inp))
                                          (world_size - S (length inp))).
    { unfold range.
      replace world_size with (length inp + S (world_size - S (length inp)))
        at 1 by lia.
      by rewrite seq_app. }
    rewrite Hsplit, io_for_app.
    rewrite send_loop_exact; [|apply NoDup_seq|].
    2:{ apply list.Forall_forall. intros i Hi. unfold range in Hi.
        apply elem_of_seq in Hi. lia. }
    rewrite io_for_cons. unfold send_step at 1.
    assert (Hnone : inp !! length inp = None) by (by apply lookup_ge_None_2).
    unfold io_bind, io_lift, list_item. rewrite Hnone.
    by destruct (decide (length inp = rank)). }
  split; [apply (Hgen (to_device CPU)) | apply (Hgen id)].
Qed.

Lemma alltoallv_delivers_witness :
  let inp := [mk_tensor (CUDA 0) [2] [1; 2]%Z; mk_tensor (CUDA 0) [1] [3]%Z] in
  let out := [mk_tensor CPU [2] [0; 0]%Z; mk_tensor CPU [3] [0; 0; 0]%Z] in
  let c := mk_comm 2 0
             (λ src, if decide (src = 1)
                     then Some (mk_tensor CPU [3] [7; 8; 9]%Z) else None)
             (λ _, None) [] in
  ∃ out',
    (alltoallv_cpu 0 2 out inp c).1 = Ok out'
    ∧ out' = [mk_tensor CPU [2] [1; 2]%Z; mk_tensor CPU [3] [7; 8; 9]%Z].
Proof.
  intros inp out c.
  destruct (alltoallv_delivers 0 2 out inp c) as [(out' & Hrun & _) _].
  - lia.
  - split_and!; [done|done|]. intros i Hi Hne.
    assert (i = 1) as -> by lia. by eexists _, _.
  - exists out'. rewrite Hrun. split; [done|].
    vm_compute in Hrun. by injection Hrun as <-.
Defined.

Lemma alltoallv_short_input_witness :
  let inp := [mk_tensor CPU [1] [1]%Z; mk_tensor CPU [1] [2]%Z] in
  let out := [mk_tensor CPU [1] [0]%Z; mk_tensor CPU [1] [0]%Z;
              mk_tensor CPU [1] [0]%Z] in
  let c := mk_comm 3 0 (λ _, None) (λ _, None) [] in
  alltoallv_cpu 0 3 out inp c
  = (Raise IndexError,
     mk_comm 3 0 (inbox c) (reduce_in c)
       [EvISend 1 (mk_tensor CPU [1] [2]%Z)]).
Proof.
  intros inp out c.
  destruct (alltoallv_short_input 0 3 out inp c) as [H _];
    [simpl; lia | simpl; lia |].
  exact H.
Defined.

(** ** Theorems about distributed inference *)

Import GnnEncoderBase.

Lemma write_rows_length rows ids val :
  length (write_rows rows ids val) = length rows.
Proof.
  unfold write_rows. generalize (zip ids val). intros l.
  revert rows. induction l as [|[i r] l IH]; intros rows; simpl; [done|].
  by rewrite IH, length_insert.
Qed.

Lemma DistTensor_setitem_shape d ids val d' :
  DistTensor_setitem d ids val = Ok d' →
  dt_shape d' = dt_shape d ∧ length (dt_data d') = length (dt_data d).
Proof.
  unfold DistTensor_setitem. repeat case_decide; intros Heq; simplify_eq.
  simpl. by rewrite write_rows_length.
Qed.

Section DistInferenceFacts.

Context {block : Type}.
Variable node_split : DistGraph → string → list nat.
Variable DistNodeDataLoader :
  DistGraph → odict (list nat) → nat → nat → nat → list (batch block).
Variable g : DistGraph.
Variable enc : GraphConvEncoder block.

Lemma alloc_loop i ks : ∀ y tr,
  io_for (alloc_output g enc i) ks y tr
  = (Ok (foldl (λ y k, <[k := new_DistTensor
                                (number_of_nodes g k, layer_width enc i)
                                ("h-" +:+ pretty i)
                                (get_node_partition_policy g k) true]> y)
           y ks),
     tr ++ (alloc_event g enc i <$> ks)).
Proof.
  induction ks as [|k ks IH]; intros y tr; simpl.
  - unfold io_ret. by rewrite app_nil_r.
  - unfold io_bind at 1, alloc_output at 1, io_bind, emit, io_ret.
    rewrite IH. by rewrite <- app_assoc.
Qed.

Lemma alloc_fold_lookup i ks : ∀ (y : gmap string DistTensor) k,
  k ∈ ks →
  foldl (λ y k, <[k := new_DistTensor
                         (number_of_nodes g k, layer_width enc i)
                         ("h-" +:+ pretty i)
                         (get_node_partition_policy g k) true]> y) y ks !! k
  = Some (new_DistTensor (number_of_nodes g k, layer_width enc i)
            ("h-" +:+ pretty i) (get_node_partition_policy g k) true).
Proof.
  induction ks as [|k0 ks IH] using rev_ind; intros y k Hk.
  - by apply elem_of_nil in Hk.
  - rewrite foldl_app. simpl. destruct (decide (k0 = k)) as [->|Hne].
    + apply lookup_insert_eq.
    + rewrite lookup_insert_ne by done. apply IH.
      apply elem_of_app in Hk as [Hk|Hk]; [done|].
      apply list_elem_of_singleton in Hk. congruence.
Qed.

Lemma alloc_outputs_spec i tr :
  ∃ y, alloc_outputs g enc i tr = (Ok y, tr ++ (alloc_event g enc i <$> ntypes g))
       ∧ outputs_sized g enc i y.
Proof.
  unfold alloc_outputs. rewrite alloc_loop. eexists. split; [reflexivity|].
  intros k Hk. eexists. split; [by apply alloc_fold_lookup|].
  split; [reflexivity|]. simpl. apply length_replicate.
Qed.

Lemma scatter_body_sized i output_nodes y kh y' :
  outputs_sized g enc i y → scatter_body output_nodes y kh = Ok y' →
  outputs_sized g enc i y'.
Proof.
  intros Hy. unfold scatter_body. destruct kh as [k hk].
  destruct (odict_mem output_nodes k); [|by intros [= <-]].
  unfold gmap_item. destruct (y !! k) as [yk|] eqn:Hyk; [|discriminate].
  simpl. destruct (odict_item output_nodes k) as [ids| |]; try discriminate.
  simpl. destruct (DistTensor_setitem yk ids hk) as [yk'| |] eqn:Hset;
    try discriminate.
  simpl. intros [= <-].
  apply DistTensor_setitem_shape in Hset as [Hs Hl].
  intros k' Hk'. destruct (decide (k = k')) as [<-|Hne].
  - rewrite lookup_insert_eq. exists yk'. split; [done|].
    destruct (Hy k Hk') as (d & Hd & Hsh & Hlen). simplify_eq.
    by rewrite Hs, Hl.
  - rewrite lookup_insert_ne by done. by apply Hy.
Qed.

(** A key outside the output nodes of the batch is never written. *)
Lemma scatter_body_skip output_nodes y kh y' k :
  scatter_body output_nodes y kh = Ok y' →
  odict_mem output_nodes k = false → y' !! k = y !! k.
Proof.
  unfold scatter_body. destruct kh as [k0 hk].
  destruct (odict_mem output_nodes k0) eqn:Hmem; [|by intros [= <-]].
  destruct (gmap_item y k0) as [yk| |]; try discriminate. simpl.
  destruct (odict_item output_nodes k0) as [ids| |]; try discriminate. simpl.
  destruct (DistTensor_setitem yk ids hk) as [yk'| |]; try discriminate.
  simpl. intros [= <-] Hk.
  apply lookup_insert_ne. intros ->. congruence.
Qed.

(** What a successful mini-batch does: the nodes are wrapped, the features
    looked up on the wrapped input nodes, and the scatter loop run on the
    wrapped output nodes. *)
Lemma dist_inference_batch_ok l x task_tracker y iter_l inn outn
    (blocks : list block) tr y' tr' :
  dist_inference_batch g l x task_tracker y (iter_l, (inn, outn, blocks)) tr
  = (Ok y', tr') →
  ∃ b in_d out_d h,
    blocks !! 0 = Some b
    ∧ as_ntype_dict g inn = Ok in_d
    ∧ as_ntype_dict g outn = Ok out_d
    ∧ lookup_feats x in_d = Ok h
    ∧ for_each (scatter_body out_d) (l b h) y = Ok y'
    ∧ tr' = tr ++ match task_tracker with
                  | Some _ => [EvKeepAlive iter_l]
                  | None => []
                  end.
Proof.
  unfold dist_inference_batch, io_bind, io_lift, list_item.
  intros H.
  assert (∃ tr1, (match task_tracker with
                  | Some _ => emit (EvKeepAlive iter_l)
                  | None => io_ret ()
                  end) tr = (Ok (), tr1)
                 ∧ tr1 = tr ++ match task_tracker with
                               | Some _ => [EvKeepAlive iter_l]
                               | None => []
                               end) as (tr1 & Hk & Htr1).
  { destruct task_tracker; eexists; (split; [reflexivity|]);
      [done | by rewrite app_nil_r]. }
  rewrite Hk in H.
  destruct (blocks !! 0) as [b|] eqn:Hb; [|discriminate].
  destruct (as_ntype_dict g inn) as [in_d| |] eqn:Hin; try discriminate.
  destruct (as_ntype_dict g outn) as [out_d| |] eqn:Hout; try discriminate.
  destruct (lookup_feats x in_d) as [h| |] eqn:Hh; try discriminate.
  destruct (for_each (scatter_body out_d) (l b h) y) as [y1| |] eqn:Hs;
    try discriminate.
  injection H as <- <-.
  exists b, in_d, out_d, h. subst tr1. split_and!; done.
Qed.

Lemma dist_inference_batch_sized i (l : layer block) x task_tracker y it
    tr y' tr' :
  outputs_sized g enc i y →
  dist_inference_batch g l x task_tracker y it tr = (Ok y', tr') →
  outputs_sized g enc i y' ∧ ∃ evs, tr' = tr ++ evs.
Proof.
  intros Hy Hrun. destruct it as [iter_l [[inn outn] blocks]].
  apply dist_inference_batch_ok in Hrun
    as (b & in_d & out_d & h & _ & _ & _ & _ & Hs & ->).
  split; [|eauto].
  eapply (for_each_inv (outputs_sized g enc i)); [|exact Hy|exact Hs].
  intros ????. by apply scatter_body_sized.
Qed.

Lemma dist_inference_layer_ok batch_size fanout task_tracker xy i l
    tr xy' tr' :
  dist_inference_layer node_split DistNodeDataLoader g enc batch_size
    fanout task_tracker xy (i, l) tr = (Ok xy', tr') →
  ∃ y evs, xy' = (FDist <$> y, Some y) ∧ outputs_sized g enc i y
           ∧ tr' = tr ++ (alloc_event g enc i <$> ntypes g) ++ evs.
Proof.
  unfold dist_inference_layer. unfold io_bind at 1.
  destruct (alloc_outputs_spec i tr) as (y0 & -> & Hy0).
  unfold io_bind at 1.
  set (batches := enumerate _).
  destruct (io_for _ batches y0 _) as [[y1| |] tr1] eqn:Hloop;
    try discriminate.
  unfold io_bind, emit, io_ret. intros [= <- <-].
  assert (outputs_sized g enc i y1
          ∧ ∃ evs, tr1 = (tr ++ (alloc_event g enc i <$> ntypes g)) ++ evs)
    as [Hsz [evs ->]].
  { eapply (io_for_inv
      (λ y s, outputs_sized g enc i y
              ∧ ∃ evs, s = (tr ++ (alloc_event g enc i <$> ntypes g)) ++ evs));
      [| |exact Hloop].
    - intros y a s y' s' _ [Hsz [evs ->]] Hb.
      eapply dist_inference_batch_sized in Hb as [Hsz' [evs' ->]]; [|exact Hsz].
      split; [done|]. exists (evs ++ evs'). by rewrite app_assoc.
    - split; [done|]. exists []. by rewrite app_nil_r. }
  exists y1, (evs ++ [EvInferBarrier]). split; [done|]. split; [done|].
  by rewrite <- !app_assoc.
Qed.

Lemma layer_width_last i :
  i < length (layers enc) →
  layer_width enc i
  = if decide (i = length (layers enc) - 1) then out_dims enc else h_dims enc.
Proof.
  intros Hi. unfold layer_width. repeat case_decide; try done; lia.
Qed.

Lemma dist_inference_layers_loop batch_size fanout task_tracker ls :
  ∀ a xy tr xy' tr',
  io_for (dist_inference_layer node_split DistNodeDataLoader g enc batch_size
            fanout task_tracker) (zip (seq a (length ls)) ls) xy tr
  = (Ok xy', tr') →
  (∀ i k, a ≤ i < a + length ls → k ∈ ntypes g →
     alloc_event g enc i k ∈ tr')
  ∧ (∀ e, e ∈ tr → e ∈ tr')
  ∧ match ls with
    | [] => xy' = xy
    | _ => ∃ y, xy'.2 = Some y ∧ outputs_sized g enc (a + length ls - 1) y
    end.
Proof.
  induction ls as [|l ls IH]; intros a xy tr xy' tr' Hrun.
  - simpl in Hrun. unfold io_ret in Hrun. injection Hrun as <- <-.
    split; [simpl; intros; lia|]. done.
  - change (zip (seq a (length (l :: ls))) (l :: ls))
      with ((a, l) :: zip (seq (S a) (length ls)) ls) in Hrun.
    rewrite io_for_cons in Hrun.
    destruct (dist_inference_layer _ _ _ _ _ _ _ xy (a, l) tr)
      as [[xy1| |] tr1] eqn:Hl; try discriminate.
    apply dist_inference_layer_ok in Hl as (y & evs & -> & Hsz & ->).
    apply IH in Hrun as (Hall & Hmono & Hlast).
    split_and!.
    + intros i k Hi Hk. simpl in Hi.
      destruct (decide (i = a)) as [->|Hne].
      * apply Hmono. rewrite !elem_of_app. right. left.
        apply list_elem_of_fmap. by exists k.
      * apply Hall; [lia | done].
    + intros e He. apply Hmono. rewrite elem_of_app. by left.
    + destruct ls as [|l' ls'].
      * subst xy'. exists y. simpl. split; [done|].
        by replace (a + 1 - 1) with a by lia.
      * destruct Hlast as (y' & Hy' & Hsz'). exists y'. split; [done|].
        simpl in *. by replace (a + S (S (length ls')) - 1)
          with (S a + S (length ls') - 1) by lia.
Qed.

End DistInferenceFacts.

(** C2.  At every layer [i] and for every node type [k] the allocation gives
    a distributed tensor of shape [(number_of_nodes k, w)], with [w] the
    hidden dimension unless [i] is the last layer, where it is the output
    dimension; a completed [dist_inference] has made these allocations for
    every layer and returns, for each node type, a tensor whose row count is
    the node count of the type. *)
Theorem dist_inference_output_shapes {block : Type}
    (node_split : DistGraph → string → list nat)
    (DistNodeDataLoader :
       DistGraph → odict (list nat) → nat → nat → nat → list (batch block))
    (g : DistGraph) (enc : GraphConvEncoder block)
    (node_feats : gmap string Tensor) (batch_size fanout : nat)
    (task_tracker : option unit) (tr tr' : list inf_event)
    (y : gmap string DistTensor) :
  dist_inference node_split DistNodeDataLoader g enc node_feats batch_size
    fanout task_tracker tr = (Ok y, tr') →
  (∀ i k, i < length (layers enc) → k ∈ ntypes g →
     let w := if decide (i = length (layers enc) - 1)
              then out_dims enc else h_dims enc in
     (∀ tr0, ∃ y0 d,
        alloc_outputs g enc i tr0
        = (Ok y0, tr0 ++ (alloc_event g enc i <$> ntypes g))
        ∧ y0 !! k = Some d
        ∧ dt_shape d = (number_of_nodes g k, w))
     ∧ EvDistTensor k (number_of_nodes g k, w) ("h-" +:+ pretty i) ∈ tr')
  ∧ (∀ k, k ∈ ntypes g →
       ∃ d, y !! k = Some d
            ∧ dt_shape d = (number_of_nodes g k, out_dims enc)
            ∧ length (dt_data d) = number_of_nodes g k).
Proof.
  unfold dist_inference, io_bind. intros Hrun.
  destruct (io_for _ (enumerate (layers enc)) _ tr) as [[xy| |] tr1] eqn:Hloop;
    try discriminate.
  apply dist_inference_layers_loop in Hloop as (Hall & _ & Hlast).
  destruct (xy.2) as [y1|] eqn:Hy1; [|discriminate].
  unfold io_ret in Hrun. injection Hrun as <- <-.
  split.
  - intros i k Hi Hk. cbv zeta. rewrite <- (layer_width_last enc i Hi).
    split.
    + intros tr0.
      destruct (alloc_outputs_spec g enc i tr0) as (y0 & Hy0 & Hsz).
      destruct (Hsz k Hk) as (d & Hd & Hsh & _). by exists y0, d.
    + apply (Hall i k); [lia | done].
  - intros k Hk. destruct (layers enc) as [|l ls] eqn:Hls.
    + subst xy. discriminate.
    + destruct Hlast as (y' & Hy' & Hsz). injection Hy' as <-.
      destruct (Hsz k Hk) as (d & Hd & Hsh & Hlen).
      exists d. split_and!; try done. rewrite Hsh.
      rewrite (layer_width_last enc); rewrite Hls; simpl; [|lia].
      case_decide; [done | lia].
Qed.

Lemma dist_inference_output_shapes_witness :
  ∃ y tr',
    dist_inference Demo.own_all Demo.one_batch Demo.g2 Demo.enc2
      Demo.node_feats2 2 10 None [] = (Ok y, tr')
    ∧ ∀ k, k ∈ ntypes Demo.g2 →
        ∃ d, y !! k = Some d
             ∧ dt_shape d = (number_of_nodes Demo.g2 k, out_dims Demo.enc2)
             ∧ length (dt_data d) = number_of_nodes Demo.g2 k.
Proof.
  eexists _, _. split; [vm_compute; reflexivity|].
  eapply (dist_inference_output_shapes Demo.own_all Demo.one_batch Demo.g2
            Demo.enc2 Demo.node_feats2 2 10 None []).
  vm_compute. reflexivity.
Defined.

Example dist_inference_demo_values :
  ∃ y tr',
    dist_inference Demo.own_all Demo.one_batch Demo.g2 Demo.enc2
      Demo.node_feats2 2 10 None [] = (Ok y, tr')
    ∧ dt_data <$> y !! "n0" = Some [[3]; [7]]%Z
    ∧ dt_data <$> y !! "n1" = Some [[11]; [15]]%Z.
Proof.
  eexists _, _. split; [vm_compute; reflexivity|].
  split; vm_compute; reflexivity.
Qed.

Lemma as_ntype_dict_single g k ids :
  ntypes g = [k] → as_ntype_dict g (NTensor ids) = Ok [(k, ids)].
Proof. intros Hk. unfold as_ntype_dict. rewrite Hk. reflexivity. Qed.

Lemma as_ntype_dict_not_single g ids :
  length (ntypes g) ≠ 1 → as_ntype_dict g (NTensor ids) = Raise AssertionError.
Proof.
  intros Hn. unfold as_ntype_dict, py_assert.
  by rewrite bool_decide_eq_false_2.
Qed.

(** C7.  Bare id tensors are accepted only on a graph with one node type
    (otherwise the assertion fails) and are then processed exactly as the
    dictionary keyed by that type; a completed mini-batch has looked its
    features up on the wrapped input nodes, and it leaves untouched the
    output tensor of every node type that the layer computed but that is
    not among the output nodes of the batch. *)
Theorem dist_inference_wrap_and_skip {block : Type} (g : DistGraph)
    (l : layer block) (x : gmap string feats) (task_tracker : option unit)
    (y : gmap string DistTensor) (iter_l : nat) (blocks : list block)
    (tr : list inf_event) :
  (∀ ids, length (ntypes g) ≠ 1 →
     as_ntype_dict g (NTensor ids) = Raise AssertionError)
  ∧ (∀ k in_ids out_ids, ntypes g = [k] →
       as_ntype_dict g (NTensor in_ids) = Ok [(k, in_ids)]
       ∧ dist_inference_batch g l x task_tracker y
           (iter_l, (NTensor in_ids, NTensor out_ids, blocks)) tr
         = dist_inference_batch g l x task_tracker y
             (iter_l, (NDict [(k, in_ids)], NDict [(k, out_ids)], blocks)) tr)
  ∧ (∀ inn outn y' tr',
       dist_inference_batch g l x task_tracker y
         (iter_l, (inn, outn, blocks)) tr = (Ok y', tr') →
       ∃ b in_d out_d h,
         blocks !! 0 = Some b
         ∧ as_ntype_dict g inn = Ok in_d
         ∧ as_ntype_dict g outn = Ok out_d
         ∧ lookup_feats x in_d = Ok h
         ∧ ∀ k, odict_mem (l b h) k = true → odict_mem out_d k = false →
             y' !! k = y !! k).
Proof.
  split_and!.
  - intros ids. apply as_ntype_dict_not_single.
  - intros k in_ids out_ids Hk. split; [by apply as_ntype_dict_single|].
    unfold dist_inference_batch.
    rewrite !(as_ntype_dict_single g k) by done. reflexivity.
  - intros inn outn y' tr' Hrun.
    apply dist_inference_batch_ok in Hrun
      as (b & in_d & out_d & h & Hb & Hin & Hout & Hh & Hs & _).
    exists b, in_d, out_d, h. split_and!; try done.
    intros k _ Hk.
    eapply (for_each_inv (λ y'', y'' !! k = y !! k)); [|reflexivity|exact Hs].
    intros s kh s' Hs0 Hbody. rewrite <- Hs0.
    by eapply scatter_body_skip.
Qed.

Lemma dist_inference_wrap_and_skip_witness :
  let x := FTensor <$> Demo.node_feats1 in
  ∃ y' tr',
    dist_inference_batch Demo.g1 Demo.extra_layer x None Demo.y_two
      (0, (NTensor [0; 1; 2], NTensor [0; 2], [tt])) [] = (Ok y', tr')
    ∧ dist_inference_batch Demo.g1 Demo.extra_layer x None Demo.y_two
        (0, (NDict [("n0", [0; 1; 2])], NDict [("n0", [0; 2])], [tt])) []
      = (Ok y', tr')
    ∧ y' !! "n1" = Demo.y_two !! "n1"
    ∧ dt_data <$> y' !! "n0" = Some [[1; 2]; [0; 0]; [3; 4]]%Z.
Proof.
  intros x.
  pose proof (dist_inference_wrap_and_skip Demo.g1 Demo.extra_layer x None
                Demo.y_two 0 [tt] []) as (_ & Hwrap & Hskip).
  destruct (Hwrap "n0" [0; 1; 2] [0; 2] eq_refl) as [_ Heq].
  eexists _, _. split; [vm_compute; reflexivity|].
  split; [rewrite <- Heq; vm_compute; reflexivity|].
  split; [|vm_compute; reflexivity].
  edestruct (Hskip (NTensor [0; 1; 2]) (NTensor [0; 2]))
    as (b & in_d & out_d & h & Hb & Hin & Hout & Hh & Hk).
  { vm_compute. reflexivity. }
  injection Hb as <-.
  vm_compute in Hin, Hout. injection Hin as <-. injection Hout as <-.
  vm_compute in Hh. injection Hh as <-.
  apply Hk; vm_compute; reflexivity.
Defined.

(** ** Further properties of distributed inference *)

(** *** How a run can fail *)

Lemma fails_only_bind {A B} allowed (r : result A) (k : A → result B) :
  fails_only allowed r → (∀ a, fails_only allowed (k a)) →
  fails_only allowed (Py.bind r k).
Proof. destruct r; simpl; auto. Qed.

Lemma fails_only_for_each {A S} allowed (body : S → A → result S) xs :
  (∀ s x, fails_only allowed (body s x)) →
  ∀ s, fails_only allowed (for_each body xs s).
Proof.
  intros Hb. induction xs as [|x xs IH]; intros s; simpl; [done|].
  apply fails_only_bind; [apply Hb | apply IH].
Qed.

Lemma io_bind_eq {S A B} (m : io S A) (k : A → io S B) s :
  io_bind m k s
  = match m s with
    | (Ok a, s') => k a s'
    | (Raise e, s') => (Raise e, s')
    | (Hang, s') => (Hang, s')
    end.
Proof. reflexivity. Qed.

Lemma fails_only_io_bind {S A B} allowed (m : io S A) (k : A → io S B) s :
  fails_only allowed (m s).1 → (∀ a s', fails_only allowed (k a s').1) →
  fails_only allowed (io_bind m k s).1.
Proof.
  intros Hm Hk. unfold io_bind. destruct (m s) as [[a| |] s1]; simpl in *; auto.
Qed.

Lemma fails_only_io_for {S A X} allowed (body : X → A → io S X) xs :
  (∀ x a s, fails_only allowed (body x a s).1) →
  ∀ x s, fails_only allowed (io_for body xs x s).1.
Proof.
  intros Hb. induction xs as [|a xs IH]; intros x s; simpl; [done|].
  apply fails_only_io_bind; [apply Hb | intros; apply IH].
Qed.

Lemma fails_only_list_item {A} (l : list A) i :
  fails_only batch_error (list_item l i).
Proof. unfold list_item. by destruct (l !! i). Qed.

Lemma fails_only_gmap_item {V} (d : gmap string V) k :
  fails_only batch_error (gmap_item d k).
Proof. unfold gmap_item. by destruct (d !! k). Qed.

Lemma fails_only_odict_item {V} (d : odict V) k :
  fails_only batch_error (odict_item d k).
Proof. unfold odict_item. by destruct (odict_get d k). Qed.

Lemma fails_only_gather rows ids : fails_only batch_error (gather rows ids).
Proof.
  induction ids as [|i ids IH]; simpl; [done|].
  apply fails_only_bind; [apply fails_only_list_item|intros r].
  apply fails_only_bind; [exact IH|done].
Qed.

Lemma fails_only_lookup_feats x input_nodes :
  fails_only batch_error (lookup_feats x input_nodes).
Proof.
  apply fails_only_for_each. intros h k. unfold lookup_feats_body.
  apply fails_only_bind; [apply fails_only_gmap_item|intros xk].
  apply fails_only_bind; [apply fails_only_odict_item|intros ids].
  apply fails_only_bind; [|done]. unfold feats_getitem.
  apply fails_only_bind; [apply fails_only_gather|done].
Qed.

Lemma fails_only_as_ntype_dict g nodes :
  fails_only batch_error (as_ntype_dict g nodes).
Proof.
  destruct nodes as [ids|d]; simpl; [|done].
  apply fails_only_bind; [unfold py_assert; by case_bool_decide|intros _].
  apply fails_only_bind; [apply fails_only_list_item|done].
Qed.

Lemma fails_only_setitem d ids val :
  fails_only batch_error (DistTensor_setitem d ids val).
Proof. unfold DistTensor_setitem. by repeat case_decide. Qed.

Lemma fails_only_scatter_body output_nodes y kh :
  fails_only batch_error (scatter_body output_nodes y kh).
Proof.
  destruct kh as [k hk]. simpl. destruct (odict_mem output_nodes k); [|done].
  apply fails_only_bind; [apply fails_only_gmap_item|intros yk].
  apply fails_only_bind; [apply fails_only_odict_item|intros ids].
  apply fails_only_bind; [apply fails_only_setitem|done].
Qed.

Lemma fails_only_lift {S A} allowed (r : result A) (s : S) :
  fails_only allowed r → fails_only allowed (io_lift r s).1.
Proof. by destruct r. Qed.

Section DistInferenceCalls.

Context {block : Type}.
Variable node_split : DistGraph → string → list nat.
Variable DistNodeDataLoader :
  DistGraph → odict (list nat) → nat → nat → nat → list (batch block).
Variable g : DistGraph.
Variable enc : GraphConvEncoder block.
Variables batch_size fanout : nat.
Variable task_tracker : option unit.

Lemma fails_only_batch (l : layer block) x y it tr :
  fails_only batch_error
    (dist_inference_batch g l x task_tracker y it tr).1.
Proof.
  destruct it as [iter_l [[inn outn] blocks]]. unfold dist_inference_batch.
  apply fails_only_io_bind; [by destruct task_tracker|intros _ tr1].
  apply fails_only_io_bind;
    [apply fails_only_lift, fails_only_list_item|intros b tr2].
  apply fails_only_io_bind;
    [apply fails_only_lift, fails_only_as_ntype_dict|intros in_d tr3].
  apply fails_only_io_bind;
    [apply fails_only_lift, fails_only_as_ntype_dict|intros out_d tr4].
  apply fails_only_io_bind;
    [apply fails_only_lift, fails_only_lookup_feats|intros h tr5].
  apply fails_only_lift, fails_only_for_each.
  intros; apply fails_only_scatter_body.
Qed.

Lemma fails_only_layer xy il tr :
  fails_only batch_error
    (dist_inference_layer node_split DistNodeDataLoader g enc batch_size
       fanout task_tracker xy il tr).1.
Proof.
  destruct il as [i l]. unfold dist_inference_layer.
  apply fails_only_io_bind.
  { unfold alloc_outputs. by rewrite alloc_loop. }
  intros y tr1. apply fails_only_io_bind; [|done].
  apply fails_only_io_for. intros; apply fails_only_batch.
Qed.

(** *** The calls of a run *)

(** A mini-batch adds its keep-alive report and nothing more, whatever
    its outcome. *)
Lemma dist_inference_batch_calls (l : layer block) x y iter_l b tr :
  (dist_inference_batch g l x task_tracker y (iter_l, b) tr).2
  = tr ++ keep_alives task_tracker iter_l 1.
Proof.
  destruct b as [[inn outn] blocks].
  unfold dist_inference_batch, io_bind, io_lift, keep_alives.
  assert (Hk : (match task_tracker with
                | Some _ => emit (EvKeepAlive iter_l)
                | None => io_ret ()
                end) tr
               = (Ok (), tr ++ match task_tracker with
                               | Some _ => EvKeepAlive <$> seq iter_l 1
                               | None => []
                               end)).
  { destruct task_tracker; simpl; [done|]. unfold io_ret. by rewrite app_nil_r. }
  rewrite Hk.
  destruct (list_item blocks 0); [|done..].
  destruct (as_ntype_dict g inn); [|done..].
  destruct (as_ntype_dict g outn); [|done..].
  destruct (lookup_feats x _); [|done..].
  by destruct (for_each _ _ _).
Qed.

Lemma keep_alives_app a n m :
  keep_alives task_tracker a (n + m)
  = keep_alives task_tracker a n ++ keep_alives task_tracker (a + n) m.
Proof.
  unfold keep_alives. destruct task_tracker; [|done].
  by rewrite seq_app, fmap_app.
Qed.

Lemma keep_alives_prefix a n m :
  n ≤ m → keep_alives task_tracker a n `prefix_of` keep_alives task_tracker a m.
Proof.
  intros Hle. replace m with (n + (m - n)) by lia.
  rewrite keep_alives_app. by apply prefix_app_r.
Qed.

(** The loop over the mini-batches: reports for an initial part of the
    batches, for all of them when the loop completes. *)
Lemma batch_loop_calls (l : layer block) x bs : ∀ a y tr,
  ∃ j, j ≤ length bs
       ∧ (io_for (dist_inference_batch g l x task_tracker)
            (zip (seq a (length bs)) bs) y tr).2
         = tr ++ keep_alives task_tracker a j
       ∧ (∀ y', (io_for (dist_inference_batch g l x task_tracker)
                   (zip (seq a (length bs)) bs) y tr).1 = Ok y' →
                j = length bs).
Proof.
  induction bs as [|b bs IH]; intros a y tr.
  - exists 0. simpl. split; [done|]. split; [|done].
    unfold keep_alives. destruct task_tracker; simpl; by rewrite app_nil_r.
  - change (zip (seq a (length (b :: bs))) (b :: bs))
      with ((a, b) :: zip (seq (S a) (length bs)) bs).
    rewrite io_for_cons.
    pose proof (dist_inference_batch_calls l x y a b tr) as Hb.
    destruct (dist_inference_batch g l x task_tracker y (a, b) tr)
      as [[y1| |] tr1]; simpl in Hb; subst tr1.
    + destruct (IH (S a) y1 (tr ++ keep_alives task_tracker a 1))
        as (j & Hj & Htr & Hok).
      exists (S j). split; [simpl; lia|]. split.
      * rewrite Htr, <- app_assoc. f_equal.
        change (S j) with (1 + j). rewrite keep_alives_app.
        by replace (a + 1) with (S a) by lia.
      * intros y' Hy'. simpl. f_equal. by eapply Hok.
    + exists 1. simpl. split; [lia|]. split; [done|]. discriminate.
    + exists 1. simpl. split; [lia|]. split; [done|]. discriminate.
Qed.

Local Abbreviation calls_of i :=
  (layer_calls node_split DistNodeDataLoader g enc batch_size fanout
     task_tracker i).

(** One layer: an initial part of its calls, all of them when it
    completes. *)
Lemma dist_inference_layer_calls xy i l tr :
  ∃ evs,
    (dist_inference_layer node_split DistNodeDataLoader g enc batch_size
       fanout task_tracker xy (i, l) tr).2 = tr ++ evs
    ∧ evs `prefix_of` calls_of i
    ∧ (∀ xy', (dist_inference_layer node_split DistNodeDataLoader g enc
                 batch_size fanout task_tracker xy (i, l) tr).1 = Ok xy' →
              evs = calls_of i).
Proof.
  unfold dist_inference_layer, layer_calls.
  destruct (alloc_outputs_spec g enc i tr) as (y0 & Hy0 & _).
  rewrite io_bind_eq, Hy0, io_bind_eq. unfold enumerate.
  set (bs := DistNodeDataLoader g _ fanout batch_size i).
  destruct (batch_loop_calls l xy.1 bs 0 y0
              (tr ++ (alloc_event g enc i <$> ntypes g)))
    as (j & Hj & Htr & Hok).
  destruct (io_for _ _ y0 _) as [[y1| |] tr1]; simpl in Htr; subst tr1.
  - rewrite (Hok y1 eq_refl). unfold io_bind, emit, io_ret. simpl.
    eexists. split; [by rewrite <- !app_assoc|]. split; [done|]. done.
  - simpl. eexists. split; [by rewrite <- app_assoc|]. split; [|discriminate].
    apply prefix_app. etrans; [by apply keep_alives_prefix|].
    by apply prefix_app_r.
  - simpl. eexists. split; [by rewrite <- app_assoc|]. split; [|discriminate].
    apply prefix_app. etrans; [by apply keep_alives_prefix|].
    by apply prefix_app_r.
Qed.

Lemma layers_loop_calls ls : ∀ a xy tr,
  ∃ evs,
    (io_for (dist_inference_layer node_split DistNodeDataLoader g enc
               batch_size fanout task_tracker)
       (zip (seq a (length ls)) ls) xy tr).2 = tr ++ evs
    ∧ evs `prefix_of` flat_map (λ i, calls_of i) (seq a (length ls))
    ∧ (∀ xy', (io_for (dist_inference_layer node_split DistNodeDataLoader g
                         enc batch_size fanout task_tracker)
                 (zip (seq a (length ls)) ls) xy tr).1 = Ok xy' →
              evs = flat_map (λ i, calls_of i) (seq a (length ls))).
Proof.
  induction ls as [|l ls IH]; intros a xy tr.
  - exists []. simpl. by rewrite app_nil_r.
  - change (zip (seq a (length (l :: ls))) (l :: ls))
      with ((a, l) :: zip (seq (S a) (length ls)) ls).
    rewrite io_for_cons.
    destruct (dist_inference_layer_calls xy a l tr) as (evs & Htr & Hpre & Hok).
    destruct (dist_inference_layer _ _ _ _ _ _ _ xy (a, l) tr)
      as [[xy1| |] tr1]; simpl in Htr; subst tr1.
    + rewrite (Hok xy1 eq_refl).
      destruct (IH (S a) xy1 (tr ++ calls_of a)) as (evs' & Htr' & Hpre' & Hok').
      exists (calls_of a ++ evs'). split; [by rewrite Htr', <- app_assoc|].
      simpl. split; [by apply prefix_app|].
      intros xy' Hxy'. f_equal. by eapply Hok'.
    + exists evs. simpl. split; [done|]. split; [|discriminate].
      etrans; [exact Hpre|]. by apply prefix_app_r.
    + exists evs. simpl. split; [done|]. split; [|discriminate].
      etrans; [exact Hpre|]. by apply prefix_app_r.
Qed.

End DistInferenceCalls.

(** X8.  A run of [dist_inference] never hangs.  It raises
    [UnboundLocalError] exactly when the encoder has no layer, and then it
    has made no call at all; with at least one layer it returns or raises
    one of [IndexError], [AssertionError], [KeyError], [RuntimeError]. *)
Theorem dist_inference_failures {block : Type}
    (node_split : DistGraph → string → list nat)
    (DistNodeDataLoader :
       DistGraph → odict (list nat) → nat → nat → nat → list (batch block))
    (g : DistGraph) (enc : GraphConvEncoder block)
    (node_feats : gmap string Tensor) (batch_size fanout : nat)
    (task_tracker : option unit) (tr : list inf_event) :
  let run := dist_inference node_split DistNodeDataLoader g enc node_feats
               batch_size fanout task_tracker tr in
  match run.1 with
  | Ok _ => layers enc ≠ []
  | Raise e =>
      if batch_error e then layers enc ≠ []
      else e = UnboundLocalError ∧ layers enc = [] ∧ run.2 = tr
  | Hang => False
  end.
Proof.
  intros run. subst run. unfold dist_inference, io_bind.
  pose proof (fails_only_io_for batch_error
    (dist_inference_layer node_split DistNodeDataLoader g enc batch_size
       fanout task_tracker) (enumerate (layers enc))
    (fails_only_layer node_split DistNodeDataLoader g enc batch_size fanout
       task_tracker) (FTensor <$> node_feats, None) tr) as Hfail.
  destruct (io_for _ (enumerate (layers enc)) _ tr) as [[xy| |] tr1] eqn:Hloop;
    simpl in Hfail.
  - pose proof Hloop as Hloop'.
    apply dist_inference_layers_loop in Hloop' as (_ & _ & Hlast).
    destruct (layers enc) as [|l ls] eqn:Hls.
    + subst xy. simpl. split_and!; try done.
      unfold enumerate in Hloop. simpl in Hloop. unfold io_ret in Hloop.
      by injection Hloop as <-.
    + destruct Hlast as (y & -> & _). simpl. done.
  - simpl. rewrite Hfail. intros Hnil. rewrite Hnil in Hloop. discriminate.
  - done.
Qed.

(** X9.  Whatever its outcome, a run of [dist_inference] has made an
    initial part of the calls of a complete run, which are, layer after
    layer: the allocation of one output tensor per node type, one
    keep-alive report per mini-batch (numbered from 0 in every layer, and
    only with a task tracker), one barrier.  A run that returns has made
    all of them. *)
Theorem dist_inference_calls {block : Type}
    (node_split : DistGraph → string → list nat)
    (DistNodeDataLoader :
       DistGraph → odict (list nat) → nat → nat → nat → list (batch block))
    (g : DistGraph) (enc : GraphConvEncoder block)
    (node_feats : gmap string Tensor) (batch_size fanout : nat)
    (task_tracker : option unit) (tr : list inf_event) :
  let run := dist_inference node_split DistNodeDataLoader g enc node_feats
               batch_size fanout task_tracker tr in
  let all := inference_calls node_split DistNodeDataLoader g enc batch_size
               fanout task_tracker in
  ∃ evs, run.2 = tr ++ evs
         ∧ evs `prefix_of` all
         ∧ (∀ y, run.1 = Ok y → evs = all).
Proof.
  intros run all. subst run all. unfold dist_inference, inference_calls.
  unfold io_bind, enumerate.
  destruct (layers_loop_calls node_split DistNodeDataLoader g enc batch_size
              fanout task_tracker (layers enc) 0
              (FTensor <$> node_feats, None) tr) as (evs & Htr & Hpre & Hok).
  destruct (io_for _ _ _ tr) as [[xy| |] tr1]; simpl in Htr; subst tr1.
  - exists evs. specialize (Hok xy eq_refl). subst evs.
    destruct xy.2; simpl; done.
  - exists evs. simpl. split_and!; done.
  - exists evs. simpl. split_and!; done.
Qed.

(** *** The features of a mini-batch *)

Lemma odict_get_None {V} (d : odict V) k : k ∉ d.*1 → odict_get d k = None.
Proof.
  induction d as [|[k' v'] d IH]; simpl; [done|]. intros Hk.
  apply not_elem_of_cons in Hk as [Hne Hk].
  destruct (String.eqb k' k) eqn:Heq; [|by apply IH].
  apply String.eqb_eq in Heq. by subst.
Qed.

Lemma odict_get_lookup {V} (d : odict V) k v :
  NoDup d.*1 → (k, v) ∈ d → odict_get d k = Some v.
Proof.
  induction d as [|[k' v'] d IH]; simpl; intros Hnd Hin.
  - by apply elem_of_nil in Hin.
  - apply NoDup_cons in Hnd as [Hk' Hnd].
    apply elem_of_cons in Hin as [[= <- <-]|Hin].
    + by rewrite String.eqb_refl.
    + destruct (String.eqb k' k) eqn:Heq; [|by apply IH].
      apply String.eqb_eq in Heq as ->. destruct Hk'.
      apply list_elem_of_fmap. by exists (k, v).
Qed.

Lemma odict_set_keys_fresh {V} (d : odict V) k v :
  k ∉ d.*1 → (odict_set d k v).*1 = d.*1 ++ [k].
Proof.
  induction d as [|[k' v'] d IH]; [done|].
  rewrite fmap_cons. intros Hk. apply not_elem_of_cons in Hk as [Hne Hk].
  cbn [odict_set]. destruct (String.eqb k' k) eqn:Heq.
  - apply String.eqb_eq in Heq. simpl in Hne. by subst.
  - rewrite fmap_cons, IH by done. done.
Qed.

(** [gather] picks the rows at the ids, or finds an id out of range. *)
Lemma gather_spec rows ids :
  match gather rows ids with
  | Ok rs => Forall2 (λ i r, rows !! i = Some r) ids rs
  | Raise e => e = IndexError ∧ ∃ i, i ∈ ids ∧ length rows ≤ i
  | Hang => False
  end.
Proof.
  induction ids as [|i ids IH]; simpl; [constructor|].
  unfold list_item. destruct (rows !! i) as [r|] eqn:Hr; simpl.
  - destruct (gather rows ids) as [rs|e|]; simpl; [|..|done].
    + by constructor.
    + destruct IH as (-> & i' & Hi' & Hlen). split; [done|].
      exists i'. split; [by right|done].
  - split; [done|]. exists i. split; [by left|].
    by apply lookup_ge_None.
Qed.

Lemma lookup_feats_loop x (input_nodes : odict (list nat)) ks : ∀ h,
  NoDup input_nodes.*1 → NoDup ks → ks ⊆ input_nodes.*1 →
  (∀ k, k ∈ ks → k ∉ h.*1) →
  match for_each (lookup_feats_body x input_nodes) ks h with
  | Ok h' =>
      h'.*1 = h.*1 ++ ks
      ∧ (∀ k, k ∉ ks → odict_get h' k = odict_get h k)
      ∧ ∀ k ids, k ∈ ks → (k, ids) ∈ input_nodes →
          ∃ f rows, x !! k = Some f
            ∧ odict_get h' k
              = Some (mk_Tensor (length ids, feats_width f) rows)
            ∧ Forall2 (λ i r, feats_rows f !! i = Some r) ids rows
  | Raise e =>
      (e = KeyError ∧ ∃ k, k ∈ ks ∧ x !! k = None)
      ∨ (e = IndexError
         ∧ ∃ k ids f i, k ∈ ks ∧ (k, ids) ∈ input_nodes ∧ x !! k = Some f
                        ∧ i ∈ ids ∧ length (feats_rows f) ≤ i)
  | Hang => False
  end.
Proof.
  induction ks as [|k ks IH]; intros h Hnd Hks Hsub Hfresh.
  - simpl. rewrite app_nil_r. split_and!; try done.
    intros k ids Hk. by apply elem_of_nil in Hk.
  - apply NoDup_cons in Hks as [Hk Hks].
    assert (Hin : k ∈ input_nodes.*1) by (apply Hsub; by left).
    apply list_elem_of_fmap in Hin as ([k0 ids0] & -> & Hin). simpl in *.
    cbn [for_each]. unfold lookup_feats_body at 1, gmap_item, odict_item.
    destruct (x !! k0) as [f|] eqn:Hx; simpl.
    2:{ left. split; [done|]. exists k0. split; [by left|done]. }
    rewrite (odict_get_lookup _ _ _ Hnd Hin). simpl.
    unfold feats_getitem.
    pose proof (gather_spec (feats_rows f) ids0) as Hg.
    destruct (gather (feats_rows f) ids0) as [rows|e|]; simpl; [| |done].
    2:{ destruct Hg as (-> & i & Hi & Hlen). right. split; [done|].
        exists k0, ids0, f, i. split_and!; try done. by left. }
    set (t := mk_Tensor _ rows).
    assert (Hk0 : k0 ∉ h.*1) by (apply Hfresh; by left).
    specialize (IH (odict_set h k0 t) Hnd Hks).
    destruct (for_each _ ks (odict_set h k0 t)) as [h'|e|].
    + destruct IH as (Hkeys & Hold & Hnew).
      { intros k' Hk'. apply Hsub. by right. }
      { intros k' Hk'. rewrite odict_set_keys_fresh by done.
        rewrite elem_of_app, list_elem_of_singleton.
        intros [?| ->]; [|done]. eapply Hfresh; [by right|done]. }
      split_and!.
      * rewrite Hkeys, odict_set_keys_fresh by done.
        by rewrite <- app_assoc.
      * intros k' Hk'. apply not_elem_of_cons in Hk' as [Hne Hk'].
        rewrite Hold by done. by apply odict_get_set_ne.
      * intros k' ids' Hk' Hin'. apply elem_of_cons in Hk' as [->|Hk'].
        -- assert (ids' = ids0) as ->.
           { pose proof (odict_get_lookup _ _ _ Hnd Hin) as H1.
             pose proof (odict_get_lookup _ _ _ Hnd Hin') as H2. congruence. }
           exists f, rows. split_and!; try done.
           rewrite Hold by done. apply odict_get_set_eq.
        -- by apply Hnew.
    + destruct IH as [(-> & k' & Hk' & Hx')
                     |(-> & k' & ids' & f' & i & Hk' & ? & ? & ? & ?)].
      { intros k' Hk'. apply Hsub. by right. }
      { intros k' Hk'. rewrite odict_set_keys_fresh by done.
        rewrite elem_of_app, list_elem_of_singleton.
        intros [?| ->]; [|done]. eapply Hfresh; [by right|done]. }
      * left. split; [done|]. exists k'. split; [by right|done].
      * right. split; [done|]. exists k', ids', f', i.
        split_and!; try done. by right.
    + apply IH.
      * intros k' Hk'. apply Hsub. by right.
      * intros k' Hk'. rewrite odict_set_keys_fresh by done.
        rewrite elem_of_app, list_elem_of_singleton.
        intros [?| ->]; [|done]. eapply Hfresh; [by right|done].
Qed.

(** X10.  The features handed to a layer: for input nodes given as a
    dictionary, [lookup_feats] returns one tensor per key, in the order of
    the keys, with one row per id, the row of [x[k]] at that id, and the
    width of [x[k]].  It raises [KeyError] only for a key without
    features and [IndexError] only for an id beyond the rows of its
    features. *)
Theorem lookup_feats_spec (x : gmap string feats)
    (input_nodes : odict (list nat)) :
  NoDup input_nodes.*1 →
  match lookup_feats x input_nodes with
  | Ok h =>
      h.*1 = input_nodes.*1
      ∧ ∀ k ids, (k, ids) ∈ input_nodes →
          ∃ f rows, x !! k = Some f
            ∧ odict_get h k
              = Some (mk_Tensor (length ids, feats_width f) rows)
            ∧ Forall2 (λ i r, feats_rows f !! i = Some r) ids rows
  | Raise e =>
      (e = KeyError ∧ ∃ k, k ∈ input_nodes.*1 ∧ x !! k = None)
      ∨ (e = IndexError
         ∧ ∃ k ids f i, (k, ids) ∈ input_nodes ∧ x !! k = Some f
                        ∧ i ∈ ids ∧ length (feats_rows f) ≤ i)
  | Hang => False
  end.
Proof.
  intros Hnd. unfold lookup_feats, odict_keys.
  pose proof (lookup_feats_loop x input_nodes input_nodes.*1 [] Hnd Hnd) as H.
  destruct (for_each _ _ _) as [h|e|].
  - destruct H as (Hkeys & _ & Hnew); [done|intros k _; apply not_elem_of_nil|].
    split; [done|]. intros k ids Hin. apply Hnew; [|done].
    apply list_elem_of_fmap. by exists (k, ids).
  - destruct H as [H|(-> & k & ids & f & i & _ & H)];
      [done|intros k _; apply not_elem_of_nil|by left|].
    right. split; [done|]. by exists k, ids, f, i.
  - apply H; [done|intros k _; apply not_elem_of_nil].
Qed.

Lemma lookup_feats_spec_witness :
  let x := FTensor <$> Demo.node_feats2 in
  ∃ h, lookup_feats x [("n1", [1; 0; 1]); ("n0", [0])] = Ok h
       ∧ h.*1 = ["n1"; "n0"]
       ∧ odict_get h "n1"
         = Some (mk_Tensor (3, 2) [[7; 8]; [5; 6]; [7; 8]]%Z).
Proof.
  intros x.
  pose proof (lookup_feats_spec x [("n1", [1; 0; 1]); ("n0", [0])]) as H.
  destruct (lookup_feats x [("n1", [1; 0; 1]); ("n0", [0])]) as [h|e|] eqn:Hrun.
  - exists h. split; [done|].
    destruct H as [Hkeys _].
    { apply (bool_decide_unpack _). vm_compute. exact I. }
    split; [exact Hkeys|].
    vm_compute in Hrun. injection Hrun as <-. vm_compute. reflexivity.
  - vm_compute in Hrun. discriminate.
  - vm_compute in Hrun. discriminate.
Defined.

(** ** Theorems about the edge-prediction trainer *)

Import EpTrainer.

Lemma snoc_eq_middle {A} (tr pre post : list A) (e x : A) :
  tr ++ [e] = pre ++ x :: post →
  (post = [] ∧ tr = pre ∧ e = x)
  ∨ (∃ post', post = post' ++ [e] ∧ tr = pre ++ x :: post').
Proof.
  destruct post as [|p post _] using rev_ind; intros H.
  - left. apply app_inj_tail in H as [-> ->]. done.
  - right. exists post.
    replace (pre ++ x :: post ++ [p]) with ((pre ++ x :: post) ++ [p]) in H
      by (by rewrite <- app_assoc).
    apply app_inj_tail in H as [-> ->]. done.
Qed.

Lemma stops_training_nil : stops_training [].
Proof. intros pre s post H. by destruct pre. Qed.

Lemma stop_seen_snoc tr e :
  stop_seen (tr ++ [e]) = (stop_seen tr || is_stop e)%bool.
Proof. unfold stop_seen. rewrite existsb_app. simpl. by rewrite orb_false_r. Qed.

Lemma stop_seen_middle pre s post :
  stop_seen (pre ++ EvDoEarlyStop s true :: post) = true.
Proof.
  unfold stop_seen. rewrite existsb_app. simpl. apply orb_true_r.
Qed.

(** An event that is not part of training may always follow. *)
Lemma stops_training_snoc_other tr e :
  stops_training tr → is_training e = false → stops_training (tr ++ [e]).
Proof.
  intros Htr He pre s post Heq.
  apply snoc_eq_middle in Heq as [(-> & _ & _)|(post' & -> & ->)].
  - constructor.
  - apply Forall_app. split; [by eapply Htr|]. by repeat constructor.
Qed.

(** Any event may follow as long as no stop has been signalled. *)
Lemma stops_training_snoc_quiet tr e :
  stop_seen tr = false → stops_training (tr ++ [e]).
Proof.
  intros Hq pre s post Heq.
  apply snoc_eq_middle in Heq as [(-> & _ & _)|(post' & -> & ->)].
  - constructor.
  - by rewrite stop_seen_middle in Hq.
Qed.

Section TrainerFacts.

Context {ES : Type}.
Implicit Types (w : world ES) (b : bool).

Lemma flag_inv_stops b w : flag_inv b w → stops_training (trace w).
Proof. by intros [H _]. Qed.

Lemma flag_inv_true w : stops_training (trace w) → flag_inv true w.
Proof. intros H. split; [done|discriminate]. Qed.

(** Adding one event that is not a stop keeps the invariant, provided that
    it is no training event or that the flag is down. *)
Lemma flag_inv_snoc b (s : ES) tr e :
  @flag_inv ES b (mk_world s tr) →
  is_stop e = false → (is_training e = true → b = false) →
  ∀ s', @flag_inv ES b (mk_world s' (tr ++ [e])).
Proof.
  intros [Hs Hq] Hns Htr s'. simpl in *. split; simpl.
  - destruct (is_training e) eqn:He.
    + apply stops_training_snoc_quiet. auto.
    + by apply stops_training_snoc_other.
  - intros Hb. rewrite stop_seen_snoc, Hns, (Hq Hb). done.
Qed.

Lemma log_spec b e :
  is_stop e = false → (is_training e = true → b = false) →
  triple (flag_inv b) (log e) (λ _, flag_inv b) (λ w, stops_training (trace w)).
Proof.
  intros Hns Htr [s tr] Hinv. simpl. by eapply flag_inv_snoc.
Qed.

Lemma call_do_eval_spec b ev n epoch_end :
  triple (flag_inv b) (call_do_eval ev n epoch_end) (λ _, flag_inv b)
    (λ w, stops_training (trace w)).
Proof.
  intros [s tr] Hinv. unfold call_do_eval. simpl.
  destruct (do_eval ES ev n epoch_end s) as [r s'].
  by eapply flag_inv_snoc.
Qed.

Lemma call_evaluate_spec b ev n :
  triple (flag_inv b) (call_evaluate ev n) (λ _, flag_inv b)
    (λ w, stops_training (trace w)).
Proof.
  intros [s tr] Hinv. unfold call_evaluate. simpl.
  destruct (evaluate ES ev n s) as [r s'].
  by eapply flag_inv_snoc.
Qed.

(** The answer of [do_early_stop] is what raises the flag. *)
Lemma call_do_early_stop_spec b ev v :
  triple (flag_inv b) (call_do_early_stop ev v)
    (λ r, flag_inv (if r then true else b))
    (λ w, stops_training (trace w)).
Proof.
  intros [s tr] Hinv. unfold call_do_early_stop. simpl.
  destruct (do_early_stop ES ev v s) as [[|] s'].
  - apply flag_inv_true. simpl.
    apply stops_training_snoc_other; [by destruct Hinv | done].
  - by eapply flag_inv_snoc.
Qed.

Ltac tbind := eapply triple_bind; [ | intros ?; cbv beta ].
Ltac tlog :=
  apply log_spec; [reflexivity | first [discriminate | intros _; reflexivity]].
Ltac tlift :=
  apply triple_lift;
  [intros ?; apply flag_inv_stops
  | let H := fresh in intros ? ? _ H; exact H].
Ltac tret := apply triple_ret; intros ? ?; try assumption.

Lemma eval_spec b self val_loader test_loader mini_batch_infer n :
  triple (flag_inv b)
    (eval (ES:=ES) self val_loader test_loader mini_batch_infer n)
    (λ _, flag_inv b) (λ w, stops_training (trace w)).
Proof.
  unfold eval.
  tbind; [tlog|]. tbind.
  { destruct mini_batch_infer.
    - tbind; [tlog|]. tlog.
    - tbind; [tlift|]. tbind; [tlog|]. tbind; [tlog|]. tlog. }
  tbind; [tlog|]. tbind; [tlift|]. tbind; [apply call_evaluate_spec|].
  tbind; [tlog|]. tbind; [case_decide; [tlog|tret]|]. tret.
Qed.

Lemma maybe_eval_spec b self val_loader test_loader mini_batch_infer n
    epoch_end :
  triple (flag_inv b)
    (maybe_eval (ES:=ES) self val_loader test_loader mini_batch_infer n
       epoch_end b)
    (λ ve, flag_inv ve.2) (λ w, stops_training (trace w)).
Proof.
  unfold maybe_eval. destruct (evaluator self) as [ev|]; [|tret].
  tbind; [apply call_do_eval_spec|]. destruct a; [|tret].
  tbind; [apply eval_spec|]. tbind; [apply call_do_early_stop_spec|]. tret.
Qed.

Lemma maybe_save_spec b epoch i val_score save_model_per_iters :
  triple (flag_inv b)
    (maybe_save (ES:=ES) epoch i val_score save_model_per_iters)
    (λ _, flag_inv b) (λ w, stops_training (trace w)).
Proof.
  unfold maybe_save. tbind; [tlift|].
  destruct (_ && _ && _)%bool; [tlog|tret].
Qed.

Lemma gather_inputs_spec batch :
  triple (flag_inv false) (gather_inputs (ES:=ES) batch)
    (λ _, flag_inv false) (λ w, stops_training (trace w)).
Proof.
  unfold gather_inputs. destruct batch as [[input_nodes batch_graph] blocks].
  tbind; [tlift|]. tbind; [tlog|]. tbind; [tlift|]. tbind; [tlift|]. tlog.
Qed.

Lemma forward_backward_spec self epoch i n :
  triple (flag_inv false) (forward_backward (ES:=ES) self epoch i n)
    (λ _, flag_inv false) (λ w, stops_training (trace w)).
Proof.
  unfold forward_backward.
  do 5 (tbind; [tlog|]). case_decide; [tlog|tret].
Qed.

Lemma train_step_spec self val_loader test_loader mini_batch_infer
    save_model_per_iters epoch st ib :
  early_stop st = false →
  triple (flag_inv false)
    (train_step (ES:=ES) self val_loader test_loader mini_batch_infer
       save_model_per_iters epoch st ib)
    (λ st', flag_inv (early_stop st')) (λ w, stops_training (trace w)).
Proof.
  intros Hst. unfold train_step. destruct ib as [i batch]. rewrite Hst.
  tbind; [tlog|]. tbind; [apply gather_inputs_spec|].
  tbind; [apply forward_backward_spec|]. tbind; [apply maybe_eval_spec|].
  tbind; [apply maybe_save_spec|]. tret.
Qed.

Lemma step_loop_spec self val_loader test_loader mini_batch_infer
    save_model_per_iters epoch bs : ∀ st,
  early_stop st = false →
  triple (flag_inv false)
    (step_loop (ES:=ES) self val_loader test_loader mini_batch_infer
       save_model_per_iters epoch bs st)
    (λ st', flag_inv (early_stop st')) (λ w, stops_training (trace w)).
Proof.
  induction bs as [|ib bs IH]; intros st Hst; simpl.
  - apply triple_ret. intros w Hw. cbv beta. by rewrite Hst.
  - tbind; [by apply train_step_spec|].
    destruct (early_stop a) eqn:Ha.
    + apply triple_ret. intros w Hw. exact Hw.
    + eapply triple_conseq; [by apply IH | | done].
      intros w Hw. by rewrite <- Ha.
Qed.

Lemma run_epoch_spec self train_loader val_loader test_loader
    mini_batch_infer save_model_per_iters epoch st :
  early_stop st = false →
  triple (flag_inv false)
    (run_epoch (ES:=ES) self train_loader val_loader test_loader
       mini_batch_infer save_model_per_iters epoch st)
    (λ st', flag_inv (early_stop st')) (λ w, stops_training (trace w)).
Proof.
  intros Hst. unfold run_epoch.
  tbind; [tlog|]. tbind; [by apply step_loop_spec|].
  tbind; [tlog|]. tbind; [case_decide; [tlog|tret]|].
  tbind; [apply maybe_eval_spec|]. tbind; [tlog|]. tbind; [tlog|]. tret.
Qed.

Lemma epoch_loop_spec self train_loader val_loader test_loader
    mini_batch_infer save_model_per_iters epochs : ∀ st,
  early_stop st = false →
  triple (flag_inv false)
    (epoch_loop (ES:=ES) self train_loader val_loader test_loader
       mini_batch_infer save_model_per_iters epochs st)
    (λ st', flag_inv (early_stop st')) (λ w, stops_training (trace w)).
Proof.
  induction epochs as [|epoch epochs IH]; intros st Hst; simpl.
  - apply triple_ret. intros w Hw. cbv beta. by rewrite Hst.
  - tbind; [by apply run_epoch_spec|].
    destruct (early_stop a) eqn:Ha.
    + apply triple_ret. intros w Hw. exact Hw.
    + eapply triple_conseq; [by apply IH | | done].
      intros w Hw. by rewrite <- Ha.
Qed.

Lemma fit_spec self train_loader n_epochs val_loader test_loader
    mini_batch_infer save_model_path save_model_per_iters :
  triple (flag_inv false)
    (fit (ES:=ES) self train_loader n_epochs val_loader test_loader
       mini_batch_infer save_model_path save_model_per_iters)
    (λ _ w, stops_training (trace w)) (λ w, stops_training (trace w)).
Proof.
  unfold fit.
  tbind; [tlift|]. tbind; [tlog|]. tbind; [by apply epoch_loop_spec|].
  match goal with
  | st : loop_state |- _ =>
      eapply triple_conseq with (Q' := λ _, flag_inv (early_stop st));
        [|done|intros ? ?; apply flag_inv_stops]
  end.
  tbind; [tlog|]. case_decide; [|tret].
  tbind; [tlog|]. destruct (save_perf_results_path _ self); [tlog|tret].
Qed.

End TrainerFacts.

(** C3.  In every run of [fit], whether it returns or raises, no event of
    a training step and no start of an epoch comes after [do_early_stop]
    has answered [True], be it after a step or at the end of an epoch. *)
Theorem fit_stops_after_early_stop {ES : Type}
    (self : GSgnnEdgePredictionTrainer ES) (train_loader : DataLoader)
    (n_epochs : nat) (val_loader test_loader : option DataLoader)
    (mini_batch_infer : bool) (save_model_path : option string)
    (save_model_per_iters : option Z) (s : ES) :
  stops_training
    (trace (fit self train_loader n_epochs val_loader test_loader
              mini_batch_infer save_model_path save_model_per_iters
              (mk_world s [])).2).
Proof.
  pose proof (fit_spec self train_loader n_epochs val_loader test_loader
                mini_batch_infer save_model_path save_model_per_iters
                (mk_world s [])) as H.
  destruct (fit _ _ _ _ _ _ _ _ _) as [[[]| |] w']; simpl;
    apply H; (split; [apply stops_training_nil | reflexivity]).
Qed.

(** *** What a step adds to the trace *)

Section Emits.

Context {ES : Type}.
Variable ok : event → bool.

Lemma emits_only_ret {A} (a : A) : emits_only (ES:=ES) ok (io_ret a).
Proof. intros w. exists []. by rewrite app_nil_r. Qed.

Lemma emits_only_lift {A} (r : result A) : emits_only (ES:=ES) ok (io_lift r).
Proof. intros w. exists []. by rewrite app_nil_r. Qed.

Lemma emits_only_bind {A B} (m : io (world ES) A) (k : A → io (world ES) B) :
  emits_only ok m → (∀ a, emits_only ok (k a)) → emits_only ok (io_bind m k).
Proof.
  intros Hm Hk w. unfold io_bind.
  destruct (Hm w) as (evs & Htr & Hok).
  destruct (m w) as [[a| |] w1]; simpl in *; [|by exists evs..].
  destruct (Hk a w1) as (evs' & Htr' & Hok').
  exists (evs ++ evs'). rewrite Htr', Htr, forallb_app, Hok, Hok'.
  by rewrite app_assoc.
Qed.

Lemma emits_only_log e : ok e = true → emits_only (ES:=ES) ok (log e).
Proof. intros He w. exists [e]. simpl. by rewrite He. Qed.

(** From here on [ok] only restricts the events at the head of a step. *)
Hypothesis ok_other : ∀ e, is_step_head e = false → ok e = true.

Lemma emits_only_call_do_eval ev n epoch_end :
  emits_only (ES:=ES) ok (call_do_eval ev n epoch_end).
Proof.
  intros w. unfold call_do_eval. destruct (do_eval _ _ _ _ _) as [r s].
  eexists [_]. simpl. by rewrite ok_other.
Qed.

Lemma emits_only_call_evaluate ev n :
  emits_only (ES:=ES) ok (call_evaluate ev n).
Proof.
  intros w. unfold call_evaluate. destruct (evaluate _ _ _ _) as [r s].
  eexists [_]. simpl. by rewrite ok_other.
Qed.

Lemma emits_only_call_do_early_stop ev v :
  emits_only (ES:=ES) ok (call_do_early_stop ev v).
Proof.
  intros w. unfold call_do_early_stop. destruct (do_early_stop _ _ _ _) as [r s].
  eexists [_]. simpl. by rewrite ok_other.
Qed.

Ltac emits :=
  repeat lazymatch goal with
    | |- emits_only _ (io_ret _) => apply emits_only_ret
    | |- emits_only _ (io_lift _) => apply emits_only_lift
    | |- emits_only _ (log _) =>
        apply emits_only_log; apply ok_other; reflexivity
    | |- emits_only _ (call_do_eval _ _ _) => apply emits_only_call_do_eval
    | |- emits_only _ (call_evaluate _ _) => apply emits_only_call_evaluate
    | |- emits_only _ (call_do_early_stop _ _) =>
        apply emits_only_call_do_early_stop
    | |- emits_only _ (io_bind _ _) => apply emits_only_bind; [|intros ?]
    | |- emits_only _ (if decide _ then _ else _) => case_decide
    | |- emits_only _ (if ?b then _ else _) => destruct b
    end.

Lemma emits_only_eval self val_loader test_loader mini_batch_infer n :
  emits_only (ES:=ES) ok (eval self val_loader test_loader mini_batch_infer n).
Proof. unfold eval. emits. Qed.

Lemma emits_only_maybe_eval self val_loader test_loader mini_batch_infer n
    epoch_end b :
  emits_only (ES:=ES) ok
    (maybe_eval self val_loader test_loader mini_batch_infer n epoch_end b).
Proof.
  unfold maybe_eval. destruct (evaluator self); emits.
  apply emits_only_eval.
Qed.

Lemma emits_only_maybe_save epoch i val_score save_model_per_iters :
  emits_only (ES:=ES) ok (maybe_save epoch i val_score save_model_per_iters).
Proof. unfold maybe_save. emits. Qed.

Lemma emits_only_forward_backward self epoch i n :
  emits_only (ES:=ES) ok (forward_backward self epoch i n).
Proof. unfold forward_backward. emits. Qed.

(** *** Code that returns *)

Lemma runs_ret {A} (a : A) : runs (ES:=ES) ok (io_ret a).
Proof. intros [s tr]. exists a, s, []. simpl. by rewrite app_nil_r. Qed.

Lemma runs_lift {A} (a : A) : runs (ES:=ES) ok (io_lift (Ok a)).
Proof. intros [s tr]. exists a, s, []. simpl. by rewrite app_nil_r. Qed.

Lemma runs_bind {A B} (m : io (world ES) A) (k : A → io (world ES) B) :
  runs ok m → (∀ a, runs ok (k a)) → runs ok (io_bind m k).
Proof.
  intros Hm Hk w. unfold io_bind.
  destruct (Hm w) as (a & s & evs & -> & Hok).
  destruct (Hk a (mk_world s (trace w ++ evs))) as (b & s' & evs' & -> & Hok').
  exists b, s', (evs ++ evs'). simpl.
  by rewrite forallb_app, Hok, Hok', app_assoc.
Qed.

Lemma runs_log e : is_step_head e = false → runs (ES:=ES) ok (log e).
Proof.
  intros He w. exists tt, (ev_state w), [e]. simpl. by rewrite ok_other.
Qed.

Lemma runs_call_do_eval ev n epoch_end :
  runs (ES:=ES) ok (call_do_eval ev n epoch_end).
Proof.
  intros w. unfold call_do_eval. destruct (do_eval _ _ _ _ _) as [r s].
  eexists r, s, [_]. simpl. by rewrite ok_other.
Qed.

Lemma runs_call_evaluate ev n : runs (ES:=ES) ok (call_evaluate ev n).
Proof.
  intros w. unfold call_evaluate. destruct (evaluate _ _ _ _) as [r s].
  eexists r, s, [_]. simpl. by rewrite ok_other.
Qed.

Lemma runs_call_do_early_stop ev v :
  runs (ES:=ES) ok (call_do_early_stop ev v).
Proof.
  intros w. unfold call_do_early_stop. destruct (do_early_stop _ _ _ _) as [r s].
  eexists r, s, [_]. simpl. by rewrite ok_other.
Qed.

Ltac runs_go :=
  repeat lazymatch goal with
    | |- runs _ (io_ret _) => apply runs_ret
    | |- runs _ (io_lift (Ok _)) => apply runs_lift
    | |- runs _ (log _) => apply runs_log; reflexivity
    | |- runs _ (call_do_eval _ _ _) => apply runs_call_do_eval
    | |- runs _ (call_evaluate _ _) => apply runs_call_evaluate
    | |- runs _ (call_do_early_stop _ _) => apply runs_call_do_early_stop
    | |- runs _ (io_bind _ _) => apply runs_bind; [|intros ?]
    | |- runs _ (if decide _ then _ else _) => case_decide
    | |- runs _ (if ?b then _ else _) => destruct b
    end.

Lemma runs_forward_backward self epoch i n :
  runs (ES:=ES) ok (forward_backward self epoch i n).
Proof. unfold forward_backward. runs_go. Qed.

(** Once the configuration check has passed, an evaluation returns. *)
Lemma runs_maybe_eval self val_loader test_loader mini_batch_infer n
    epoch_end b :
  check_config self val_loader = Ok tt →
  runs (ES:=ES) ok
    (maybe_eval self val_loader test_loader mini_batch_infer n epoch_end b).
Proof.
  unfold check_config, maybe_eval, eval. intros Hcheck.
  destruct (evaluator self) as [ev|]; [|runs_go].
  destruct val_loader as [vl|]; [|discriminate Hcheck].
  simpl. runs_go.
Qed.

End Emits.

(** *** The edge-type requirement of a step *)

Section StepFacts.

Context {ES : Type}.
Implicit Types (w : world ES).

Lemma world_eta w : mk_world (ev_state w) (trace w ++ []) = w.
Proof. destruct w. simpl. by rewrite app_nil_r. Qed.

Lemma etypes_length bg : length (etypes bg) = length (canonical_etypes bg).
Proof. unfold etypes. apply length_fmap. Qed.

(** Without exactly one edge type the inputs of a step are not gathered:
    the assertion on the node types or the one on the edge types fails,
    and no labels have been asked for. *)
Lemma gather_inputs_not_single input_nodes bg (blocks : nat) w :
  length (etypes bg) ≠ 1 →
  ∃ evs,
    gather_inputs (input_nodes, bg, blocks) w
    = (Raise AssertionError, mk_world (ev_state w) (trace w ++ evs))
    ∧ forallb (λ e, negb (is_get_labels e)) evs = true.
Proof.
  intros Hne. unfold gather_inputs, io_bind, io_lift, log.
  destruct input_nodes as [ids|d]; simpl.
  - destruct (bool_decide (length (bg_ntypes bg) = 1)) eqn:Hnt; simpl.
    + apply bool_decide_eq_true in Hnt.
      destruct (bg_ntypes bg) as [|k [|]]; try discriminate. simpl.
      rewrite bool_decide_eq_false_2 by done. simpl. by eexists [_].
    + exists []. by rewrite world_eta.
  - rewrite bool_decide_eq_false_2 by done. simpl. by eexists [_].
Qed.

(** With exactly one edge type and accepted input nodes the labels are
    gathered under the unique canonical edge type. *)
Lemma gather_inputs_single input_nodes bg (blocks : nat) c w :
  canonical_etypes bg = [c] → input_nodes_accepted bg input_nodes →
  ∃ d,
    gather_inputs (input_nodes, bg, blocks) w
    = (Ok tt, mk_world (ev_state w)
                (trace w ++ [EvGetNodeFeats d;
                             EvGetLabels c (edge_ids bg c.1.2)])).
Proof.
  intros Hc Hacc. unfold gather_inputs, io_bind, io_lift, log.
  assert (He : bool_decide (length (etypes bg) = 1) = true).
  { apply bool_decide_eq_true. by rewrite etypes_length, Hc. }
  destruct input_nodes as [ids|d]; simpl in *.
  - rewrite bool_decide_eq_true_2 by done. simpl.
    destruct (bg_ntypes bg) as [|k [|]]; try discriminate. simpl.
    rewrite He, Hc. simpl. eexists. by rewrite <- app_assoc.
  - rewrite He, Hc. simpl. eexists. by rewrite <- app_assoc.
Qed.

Lemma gather_inputs_rejected input_nodes bg (blocks : nat) w :
  ¬ input_nodes_accepted bg input_nodes →
  gather_inputs (input_nodes, bg, blocks) w = (Raise AssertionError, w).
Proof.
  intros Hacc. unfold gather_inputs, io_bind, io_lift.
  destruct input_nodes as [ids|d]; simpl in *; [|done].
  by rewrite bool_decide_eq_false_2.
Qed.

Lemma train_step_unfold self val_loader test_loader mini_batch_infer
    save_model_per_iters epoch st i batch w :
  train_step self val_loader test_loader mini_batch_infer
    save_model_per_iters epoch st (i, batch) w
  = match gather_inputs batch
            (mk_world (ev_state w)
               (trace w ++ [EvTrainStep epoch i (total_steps st + 1)])) with
    | (Ok _, w1) =>
        (forward_backward self epoch i (total_steps st + 1) ;;
         let! ve := maybe_eval self val_loader test_loader mini_batch_infer
                      (total_steps st + 1) false (early_stop st) in
         maybe_save epoch i ve.1 save_model_per_iters ;;
         io_ret {| total_steps := total_steps st + 1; early_stop := ve.2 |})
          w1
    | (Raise e, w1) => (Raise e, w1)
    | (Hang, w1) => (Hang, w1)
    end.
Proof. reflexivity. Qed.

End StepFacts.

(** C6.  A training step requires exactly one edge type in the batch graph:
    with any other number the step raises [AssertionError] and has asked
    for no labels; with the single canonical edge type [c] every gathering
    of labels in the step is keyed by [c] with the ids of its edges, and it
    takes place as soon as the input nodes pass their own check. *)
Theorem train_step_single_edge_type {ES : Type}
    (self : GSgnnEdgePredictionTrainer ES)
    (val_loader test_loader : option DataLoader) (mini_batch_infer : bool)
    (save_model_per_iters : option Z) (epoch : nat) (st : loop_state)
    (i : nat) (input_nodes : GnnEncoderBase.nodes_arg) (bg : BatchGraph)
    (blocks : nat) (w : world ES) :
  let step := train_step self val_loader test_loader mini_batch_infer
                save_model_per_iters epoch st
                (i, (input_nodes, bg, blocks)) in
  (length (etypes bg) ≠ 1 →
     ∃ evs, step w = (Raise AssertionError,
                      mk_world (ev_state w) (trace w ++ evs))
            ∧ forallb (λ e, negb (is_get_labels e)) evs = true)
  ∧ (∀ c, canonical_etypes bg = [c] →
       length (etypes bg) = 1
       ∧ ∃ evs, trace (step w).2 = trace w ++ evs
                ∧ forallb (label_key_ok c (edge_ids bg c.1.2)) evs = true
                ∧ (input_nodes_accepted bg input_nodes →
                   EvGetLabels c (edge_ids bg c.1.2) ∈ evs)).
Proof.
  intros step. subst step. split.
  - intros Hne. rewrite train_step_unfold.
    destruct (gather_inputs_not_single input_nodes bg blocks
                (mk_world (ev_state w)
                   (trace w ++ [EvTrainStep epoch i (total_steps st + 1)]))
                Hne) as (evs & -> & Hevs).
    exists (EvTrainStep epoch i (total_steps st + 1) :: evs). simpl.
    by rewrite <- app_assoc.
  - intros c Hc. split; [by rewrite etypes_length, Hc|].
    rewrite train_step_unfold.
    set (w0 := mk_world _ _).
    assert (Hdec : input_nodes_accepted bg input_nodes
                   ∨ ¬ input_nodes_accepted bg input_nodes).
    { destruct input_nodes; simpl; [|by left].
      destruct (decide (length (bg_ntypes bg) = 1)); [by left|by right]. }
    destruct Hdec as [Hacc|Hrej].
    + destruct (gather_inputs_single input_nodes bg blocks c w0 Hc Hacc)
        as (d & ->).
      set (rest := io_bind _ _).
      assert (Hrest : emits_only (label_key_ok c (edge_ids bg c.1.2)) rest).
      { subst rest. apply emits_only_bind;
          [apply emits_only_forward_backward; by intros []|intros _].
        apply emits_only_bind;
          [apply emits_only_maybe_eval; by intros []|intros ve].
        apply emits_only_bind;
          [apply emits_only_maybe_save; by intros []|intros _].
        apply emits_only_ret. }
      destruct (Hrest (mk_world (ev_state w0)
                  (trace w0 ++ [EvGetNodeFeats d;
                                EvGetLabels c (edge_ids bg c.1.2)])))
        as (evs & Htr & Hok).
      rewrite Htr. subst w0. simpl.
      exists ([EvTrainStep epoch i (total_steps st + 1); EvGetNodeFeats d;
               EvGetLabels c (edge_ids bg c.1.2)] ++ evs).
      split; [by rewrite <- !app_assoc|]. split.
      * simpl. rewrite Hok. by rewrite bool_decide_eq_true_2.
      * intros _. set_solver.
    + rewrite (gather_inputs_rejected _ _ _ _ Hrej). subst w0. simpl.
      exists [EvTrainStep epoch i (total_steps st + 1)]. done.
Qed.

Example fit_stops_demo :
  let run := fit Demo.stopping_trainer
               (Demo.loader_of [Demo.one_etype_batch; Demo.one_etype_batch;
                                Demo.one_etype_batch])
               3 (Some (Demo.loader_of [])) None true None (Some 5%Z)
               (mk_world 0 []) in
  run.1 = Ok tt
  ∧ filter (λ e, is_training e = true ∧ is_step_head e = false
                 ∨ is_train_step e = true ∨ is_stop e = true) (trace run.2)
    = [EvEpochStart 0;
       EvTrainStep 0 0 1; EvForward; EvZeroGrad; EvBackward; EvOptimizerStep;
       EvLogMetric 1; EvPrintBatch 0 0;
       EvTrainStep 0 1 2; EvForward; EvZeroGrad; EvBackward; EvOptimizerStep;
       EvLogMetric 2;
       EvDoEarlyStop 2 true].
Proof. split; vm_compute; reflexivity. Qed.

Lemma train_step_single_edge_type_witness :
  (∃ evs,
     train_step Demo.plain_trainer None None true (Some 5%Z) 0
       (mk_loop_state 0 false) (0, Demo.two_etype_batch) (mk_world tt [])
     = (Raise AssertionError, mk_world tt evs)
     ∧ forallb (λ e, negb (is_get_labels e)) evs = true)
  ∧ EvGetLabels ("n0", "r0", "n0") [4; 5]
    ∈ trace (train_step Demo.plain_trainer None None true (Some 5%Z) 0
               (mk_loop_state 0 false) (0, Demo.one_etype_batch)
               (mk_world tt [])).2.
Proof.
  split.
  - destruct (train_step_single_edge_type Demo.plain_trainer None None true
                (Some 5%Z) 0 (mk_loop_state 0 false) 0
                (GnnEncoderBase.NDict [("n0", [0])])
                (mk_BatchGraph ["n0"]
                   [("n0", "r0", "n0"); ("n0", "r1", "n0")] (λ _, [0]))
                1 (mk_world tt [])) as [H _].
    destruct H as (evs & Hrun & Hevs); [simpl; lia|].
    exists evs. split; [exact Hrun | exact Hevs].
  - destruct (train_step_single_edge_type Demo.plain_trainer None None true
                (Some 5%Z) 0 (mk_loop_state 0 false) 0
                (GnnEncoderBase.NDict [("n0", [0; 1])])
                (mk_BatchGraph ["n0"] [("n0", "r0", "n0")] (λ _, [4; 5]))
                1 (mk_world tt [])) as [_ H].
    destruct (H ("n0", "r0", "n0") eq_refl) as (_ & evs & Htr & _ & Hin).
    refine (eq_ind _ (λ t, EvGetLabels ("n0", "r0", "n0") [4; 5] ∈ t) _ _
              (eq_sym Htr)).
    apply Hin. exact I.
Defined.

(** *** The configuration check *)

(** C5.  With an evaluator and no validation loader [fit] raises
    [AssertionError] at once, the world untouched, so that no training
    step has run; with a validation loader, or without evaluator, the
    check passes. *)
Theorem fit_checks_val_loader {ES : Type}
    (self : GSgnnEdgePredictionTrainer ES) (train_loader : DataLoader)
    (n_epochs : nat) (test_loader : option DataLoader)
    (mini_batch_infer : bool) (save_model_path : option string)
    (save_model_per_iters : option Z) (w : world ES) :
  (evaluator self ≠ None →
     fit self train_loader n_epochs None test_loader mini_batch_infer
       save_model_path save_model_per_iters w
     = (Raise AssertionError, w))
  ∧ (∀ val_loader, val_loader ≠ None ∨ evaluator self = None →
       check_config self val_loader = Ok tt
       ∧ ∃ evs, trace (fit self train_loader n_epochs val_loader test_loader
                         mini_batch_infer save_model_path
                         save_model_per_iters w).2
                = trace w ++ EvSysTracker "start training" :: evs).
Proof.
  split.
  - intros Hev. unfold fit, io_bind, io_lift, check_config.
    destruct (evaluator self); [reflexivity | done].
  - intros val_loader Hok.
    assert (Hcheck : check_config self val_loader = Ok tt).
    { unfold check_config. destruct (evaluator self) as [ev|]; [|done].
      destruct Hok as [Hvl|]; [|done].
      unfold py_assert. by rewrite bool_decide_eq_true_2. }
    split; [exact Hcheck|].
    unfold fit. unfold io_bind at 1. rewrite Hcheck. unfold io_lift.
    unfold io_bind at 1, log at 1.
    set (rest := io_bind _ _).
    assert (Hrest : emits_only (λ _, true) rest).
    { subst rest. apply emits_only_bind; [|intros st].
      - generalize (mk_loop_state 0 false). generalize (seq 0 n_epochs).
        intros epochs. induction epochs as [|epoch epochs IH]; intros st;
          simpl; [apply emits_only_ret|].
        apply emits_only_bind; [|intros st'; destruct (early_stop st');
                                  [apply emits_only_ret | apply IH]].
        unfold run_epoch.
        apply emits_only_bind; [by apply emits_only_log|intros _].
        apply emits_only_bind; [|intros st'].
        + generalize (GnnEncoderBase.enumerate (batches train_loader epoch)).
          intros bs. revert st.
          induction bs as [|ib bs IHb]; intros st; simpl;
            [apply emits_only_ret|].
          apply emits_only_bind; [|intros st'; destruct (early_stop st');
                                    [apply emits_only_ret | apply IHb]].
          unfold train_step. destruct ib as [i [[inn bg] blocks]].
          apply emits_only_bind; [by apply emits_only_log|intros _].
          apply emits_only_bind; [|intros _].
          { unfold gather_inputs.
            apply emits_only_bind; [apply emits_only_lift|intros d].
            apply emits_only_bind; [by apply emits_only_log|intros _].
            apply emits_only_bind; [apply emits_only_lift|intros _].
            apply emits_only_bind; [apply emits_only_lift|intros c].
            by apply emits_only_log. }
          apply emits_only_bind;
            [by apply emits_only_forward_backward|intros _].
          apply emits_only_bind; [by apply emits_only_maybe_eval|intros ve].
          apply emits_only_bind; [by apply emits_only_maybe_save|intros _].
          apply emits_only_ret.
        + apply emits_only_bind; [by apply emits_only_log|intros _].
          apply emits_only_bind;
            [case_decide; [by apply emits_only_log|apply emits_only_ret]
            |intros _].
          apply emits_only_bind; [by apply emits_only_maybe_eval|intros ve].
          apply emits_only_bind; [by apply emits_only_log|intros _].
          apply emits_only_bind; [by apply emits_only_log|intros _].
          apply emits_only_ret.
      - apply emits_only_bind; [by apply emits_only_log|intros _].
        case_decide; [|apply emits_only_ret].
        apply emits_only_bind; [by apply emits_only_log|intros _].
        destruct (save_perf_results_path _ self);
          [by apply emits_only_log|apply emits_only_ret]. }
    destruct (Hrest (mk_world (ev_state w)
                (trace w ++ [EvSysTracker "start training"])))
      as (evs & Htr & _).
    exists evs. rewrite Htr. simpl. by rewrite <- app_assoc.
Qed.

Lemma fit_checks_val_loader_witness :
  fit Demo.stopping_trainer (Demo.loader_of [Demo.one_etype_batch]) 2 None
    None true None (Some 1%Z) (mk_world 0 [])
  = (Raise AssertionError, mk_world 0 [])
  ∧ check_config Demo.stopping_trainer (Some (Demo.loader_of [])) = Ok tt
  ∧ check_config Demo.plain_trainer None = Ok tt.
Proof.
  split_and!.
  - apply (fit_checks_val_loader Demo.stopping_trainer). discriminate.
  - apply (fit_checks_val_loader Demo.stopping_trainer (Demo.loader_of []) 0
             None true None None (mk_world 0 [])).
    left. discriminate.
  - apply (fit_checks_val_loader Demo.plain_trainer (Demo.loader_of []) 0
             None true None None (mk_world tt [])).
    by right.
Defined.

(** *** The default [save_model_per_iters] *)

Lemma io_bind_raise {S A B} (m : io S A) (k : A → io S B) s e s' :
  m s = (Raise e, s') → io_bind m k s = (Raise e, s').
Proof. intros H. unfold io_bind. by rewrite H. Qed.

Lemma io_bind_ok {S A B} (m : io S A) (k : A → io S B) s a s' :
  m s = (Ok a, s') → io_bind m k s = k a s'.
Proof. intros H. unfold io_bind. by rewrite H. Qed.

Lemma no_train_step_filter evs :
  forallb (λ e, negb (is_train_step e)) evs = true →
  filter (λ e, is_train_step e = true) evs = [].
Proof.
  induction evs as [|e evs IH]; simpl; [done|].
  intros [He Hevs]%andb_true_iff.
  rewrite filter_cons. destruct (decide (is_train_step e = true)) as [Ht|_].
  - rewrite Ht in He. discriminate.
  - by apply IH.
Qed.

(** With [None] the comparison of the checkpoint condition is what a step
    that got that far ends on. *)
Lemma train_step_raises_on_none {ES : Type}
    (self : GSgnnEdgePredictionTrainer ES)
    (val_loader test_loader : option DataLoader) (mini_batch_infer : bool)
    (epoch : nat) (st : loop_state) (i : nat)
    (input_nodes : GnnEncoderBase.nodes_arg) (bg : BatchGraph) (blocks : nat)
    (w : world ES) :
  check_config self val_loader = Ok tt →
  input_nodes_accepted bg input_nodes →
  length (etypes bg) = 1 →
  ∃ s evs,
    train_step self val_loader test_loader mini_batch_infer None epoch st
      (i, (input_nodes, bg, blocks)) w
    = (Raise TypeError,
       mk_world s (trace w ++ EvTrainStep epoch i (total_steps st + 1) :: evs))
    ∧ forallb (λ e, negb (is_train_step e)) evs = true.
Proof.
  intros Hcheck Hacc Hlen.
  assert (∃ c, canonical_etypes bg = [c]) as [c Hc].
  { rewrite etypes_length in Hlen.
    destruct (canonical_etypes bg) as [|c [|]]; try discriminate. by exists c. }
  rewrite train_step_unfold.
  destruct (gather_inputs_single input_nodes bg blocks c
              (mk_world (ev_state w)
                 (trace w ++ [EvTrainStep epoch i (total_steps st + 1)]))
              Hc Hacc) as (d & ->).
  set (ok := λ e, negb (is_train_step e)).
  assert (Hok : ∀ e, is_step_head e = false → ok e = true) by by intros [].
  match goal with |- context [mk_world ?s ?tr] => set (w1 := mk_world s tr) end.
  destruct (runs_forward_backward ok Hok self epoch i (total_steps st + 1) w1)
    as ([] & s2 & evs2 & Hfb & Hev2).
  rewrite (io_bind_ok _ _ _ _ _ Hfb).
  destruct (runs_maybe_eval ok Hok self val_loader test_loader
              mini_batch_infer (total_steps st + 1) false (early_stop st)
              Hcheck (mk_world s2 (trace w1 ++ evs2)))
    as (ve & s3 & evs3 & Hme & Hev3).
  rewrite (io_bind_ok _ _ _ _ _ Hme).
  exists s3, ([EvGetNodeFeats d; EvGetLabels c (edge_ids bg c.1.2)]
              ++ evs2 ++ evs3).
  split.
  - subst w1. simpl. unfold io_bind, maybe_save, io_lift. simpl.
    by rewrite <- !app_assoc.
  - rewrite !forallb_app, Hev2, Hev3. done.
Qed.

(** C9 (amended).  With the default [save_model_per_iters = None], at least
    one epoch, a configuration that passes the check of [fit] and a first
    mini-batch that passes the assertions of a step, [fit] raises
    [TypeError] in its first training step, which is the only one begun;
    with an integer the checkpoint condition never raises. *)
Theorem fit_default_save_iters_raises {ES : Type}
    (self : GSgnnEdgePredictionTrainer ES) (train_loader : DataLoader)
    (n_epochs : nat) (val_loader test_loader : option DataLoader)
    (mini_batch_infer : bool) (save_model_path : option string)
    (input_nodes : GnnEncoderBase.nodes_arg) (bg : BatchGraph) (blocks : nat)
    (bs : list train_batch) (w : world ES) :
  0 < n_epochs →
  check_config self val_loader = Ok tt →
  batches train_loader 0 = (input_nodes, bg, blocks) :: bs →
  input_nodes_accepted bg input_nodes →
  length (etypes bg) = 1 →
  let run := fit self train_loader n_epochs val_loader test_loader
               mini_batch_infer save_model_path None w in
  run.1 = Raise TypeError
  ∧ (∃ evs, trace run.2 = trace w ++ evs
            ∧ length (filter (λ e, is_train_step e = true) evs) = 1)
  ∧ (∀ n epoch i val_score (w' : world ES),
       (maybe_save epoch i val_score (Some n) w').1 = Ok tt).
Proof.
  intros Hn Hcheck Hb Hacc Hlen run.
  destruct n_epochs as [|n]; [lia|].
  set (w1 := mk_world (ev_state w)
               (trace w ++ [EvSysTracker "start training"])).
  set (w2 := mk_world (ev_state w1) (trace w1 ++ [EvEpochStart 0])).
  destruct (train_step_raises_on_none self val_loader test_loader
              mini_batch_infer 0 (mk_loop_state 0 false) 0 input_nodes bg
              blocks w2 Hcheck Hacc Hlen) as (s & evs & Hstep & Hevs).
  assert (Hrun : run
    = (Raise TypeError,
       mk_world s (trace w2 ++ EvTrainStep 0 0 (0 + 1) :: evs))).
  { subst run. unfold fit.
    unfold io_bind at 1. rewrite Hcheck. unfold io_lift.
    unfold io_bind at 1, log at 1. fold w1.
    apply io_bind_raise.
    change (seq 0 (S n)) with (0 :: seq 1 n).
    cbn [epoch_loop]. apply io_bind_raise.
    unfold run_epoch. unfold io_bind at 1, log at 1. fold w2.
    apply io_bind_raise.
    rewrite Hb.
    change (GnnEncoderBase.enumerate ((input_nodes, bg, blocks) :: bs))
      with ((0, (input_nodes, bg, blocks))
              :: zip (seq 1 (length bs)) bs).
    cbn [step_loop]. apply io_bind_raise. exact Hstep. }
  rewrite Hrun. split_and!.
  - reflexivity.
  - exists ([EvSysTracker "start training"; EvEpochStart 0;
             EvTrainStep 0 0 (0 + 1)] ++ evs).
    split.
    + subst w2 w1. simpl. by rewrite <- !app_assoc.
    + rewrite filter_app, (no_train_step_filter evs Hevs). reflexivity.
  - intros k epoch i val_score w'. unfold maybe_save, io_bind, io_lift.
    simpl. by destruct (_ && _ && _)%bool.
Qed.

Lemma fit_default_save_iters_raises_witness :
  let run := fit Demo.stopping_trainer
               (Demo.loader_of [Demo.one_etype_batch]) 2
               (Some (Demo.loader_of [])) None true None None
               (mk_world 0 []) in
  run.1 = Raise TypeError
  ∧ ∃ evs, trace run.2 = [] ++ evs
           ∧ length (filter (λ e, is_train_step e = true) evs) = 1.
Proof.
  intros run.
  destruct (fit_default_save_iters_raises Demo.stopping_trainer
              (Demo.loader_of [Demo.one_etype_batch]) 2
              (Some (Demo.loader_of [])) None true None
              (GnnEncoderBase.NDict [("n0", [0; 1])])
              (mk_BatchGraph ["n0"] [("n0", "r0", "n0")] (λ _, [4; 5]))
              1 [] (mk_world 0 []))
    as (H1 & H2 & _);
    [lia | reflexivity | reflexivity | exact I | reflexivity | ].
  split; [exact H1 | exact H2].
Defined.

(** C9 as stated fails: with the default [None] and a loader that yields a
    mini-batch, a batch over two edge types ends the first step on the
    assertion of the step, and with [n_epochs = 0] no step runs at all. *)
Lemma fit_default_save_iters_counterexample :
  (fit Demo.plain_trainer (Demo.loader_of [Demo.two_etype_batch]) 1
     None None true None None (mk_world tt [])).1
  = Raise AssertionError
  ∧ (fit Demo.plain_trainer (Demo.loader_of [Demo.one_etype_batch]) 0
       None None true None None (mk_world tt [])).1
    = Ok tt.
Proof. split; vm_compute; reflexivity. Qed.

(** ** Further properties of the trainer *)

Lemma follow_snoc {P} (step : P → event → option P) evs : ∀ p p' e p'',
  follow step p evs = Some p' → step p' e = Some p'' →
  follow step p (evs ++ [e]) = Some p''.
Proof.
  induction evs as [|e0 evs IH]; intros p p' e p'' Hf He; simpl in *.
  - injection Hf as ->. by rewrite He.
  - destruct (step p e0) as [p1|]; [|discriminate]. by eapply IH.
Qed.

Lemma follow_guarded {ES} (self : GSgnnEdgePredictionTrainer ES)
    mini_batch_infer save_model_per_iters train_loader n_epochs evs :
  ∀ p p',
  follow (guarded self mini_batch_infer save_model_per_iters train_loader
            n_epochs) p evs = Some p' →
  follow (advance train_loader n_epochs) p evs = Some p'
  ∧ forallb (permitted self mini_batch_infer save_model_per_iters) evs = true.
Proof.
  induction evs as [|e evs IH]; intros p p' Hf; simpl in *; [done|].
  unfold guarded in Hf at 1.
  destruct (permitted self mini_batch_infer save_model_per_iters e);
    [|discriminate].
  destruct (advance train_loader n_epochs p e) as [p1|]; [|discriminate].
  by apply IH.
Qed.

Section ProgressFacts.

Context {ES : Type}.
Variable self : GSgnnEdgePredictionTrainer ES.
Variable mini_batch_infer : bool.
Variable save_model_per_iters : option Z.
Variable train_loader : DataLoader.
Variable n_epochs : nat.
Variable tr0 : list event.

Local Abbreviation R :=
  (reached self mini_batch_infer save_model_per_iters train_loader n_epochs
     tr0).
Local Abbreviation F :=
  (in_order self mini_batch_infer save_model_per_iters train_loader n_epochs
     tr0).
Local Abbreviation G :=
  (guarded self mini_batch_infer save_model_per_iters train_loader n_epochs).

Lemma reached_snoc p p' e (s s' : ES) tr :
  R p (mk_world s tr) → G p e = Some p' → R p' (mk_world s' (tr ++ [e])).
Proof.
  intros (evs & Htr & Hf) Hg. simpl in *. exists (evs ++ [e]).
  split; [by rewrite Htr, app_assoc|]. by eapply follow_snoc.
Qed.

Lemma log_reached p p' e :
  G p e = Some p' → triple (R p) (log e) (λ _, R p') F.
Proof. intros Hg [s tr] Hr. simpl. by eapply reached_snoc. Qed.

Lemma lift_reached {A} p (r : result A) :
  triple (R p) (io_lift r) (λ _, R p) F.
Proof. apply triple_lift; [intros s Hs; by exists p|done]. Qed.

Lemma ret_reached {A} p (a : A) (Q : A → world ES → Prop) :
  (∀ w, R p w → Q a w) → triple (R p) (io_ret a) Q F.
Proof. apply triple_ret. Qed.

Lemma triple_pre {S A} (P : S → Prop) (m : io S A) (Q : A → S → Prop)
    (E : S → Prop) :
  (∀ s, P s → ∃ P' : S → Prop, P' s ∧ triple P' m Q E) → triple P m Q E.
Proof.
  intros H s HP. destruct (H s HP) as (P' & HP' & Ht). exact (Ht s HP').
Qed.

Lemma triple_lift_ok {S A B} (P : S → Prop) (a : A) (k : A → io S B)
    (Q : B → S → Prop) (E : S → Prop) :
  triple P (k a) Q E → triple P (io_bind (io_lift (Ok a)) k) Q E.
Proof. intros H s HP. exact (H s HP). Qed.

Lemma triple_lift_raise {S A B} (P : S → Prop) e (k : A → io S B)
    (Q : B → S → Prop) (E : S → Prop) :
  (∀ s, P s → E s) → triple P (io_bind (io_lift (Raise e)) k) Q E.
Proof. intros H s HP. simpl. auto. Qed.

Lemma triple_if {S A} (b : bool) (P : S → Prop) (m1 m2 : io S A)
    (Q : A → S → Prop) (E : S → Prop) :
  (b = true → triple P m1 Q E) → (b = false → triple P m2 Q E) →
  triple P (if b then m1 else m2) Q E.
Proof. destruct b; auto. Qed.

Ltac side_ok :=
  repeat split;
  first [ done | lia | congruence | (simpl in *; lia) | tauto ].

Ltac guarded_ok :=
  unfold guarded, permitted, advance, set_score, set_stop, close;
  cbn [p_steps p_epochs p_batches p_open p_stop p_score];
  repeat first
    [ rewrite bool_decide_eq_true_2 by side_ok
    | rewrite decide_True by side_ok
    | match goal with
      | H : has_evaluator _ = true |- _ => rewrite H
      | H : mini_batch_infer = _ |- _ => rewrite H
      end
    | rewrite orb_true_r
    | progress cbn [andb orb negb] ];
  try reflexivity.

Ltac rbind := eapply triple_bind; [ | intros ?; cbv beta ].
Ltac rlog := eapply log_reached; guarded_ok.
Ltac rlift := apply lift_reached.
Ltac rret := apply ret_reached; intros ? ?; try assumption.

Lemma call_do_eval_reached p ev n epoch_end :
  has_evaluator self = true → n = p_steps p → p_open p = true →
  p_score p = None →
  triple (R p) (call_do_eval ev n epoch_end) (λ _, R p) F.
Proof.
  intros Hev -> Ho Hs [s tr] Hr. unfold call_do_eval. simpl.
  destruct (do_eval ES ev (p_steps p) epoch_end s) as [r s'].
  eapply reached_snoc; [exact Hr|guarded_ok].
Qed.

Lemma call_evaluate_reached p ev n :
  has_evaluator self = true → n = p_steps p → p_open p = true →
  triple (R p) (call_evaluate ev n) (λ vt, R (set_score (Some vt.1) p)) F.
Proof.
  intros Hev -> Ho [s tr] Hr. unfold call_evaluate. simpl.
  destruct (evaluate ES ev (p_steps p) s) as [vt s'].
  eapply reached_snoc; [exact Hr|guarded_ok].
Qed.

Lemma call_do_early_stop_reached p ev v :
  has_evaluator self = true → p_score p = Some v →
  triple (R p) (call_do_early_stop ev v)
    (λ r, R (set_stop (r || p_stop p) p)) F.
Proof.
  intros Hev Hs [s tr] Hr. unfold call_do_early_stop. simpl.
  destruct (do_early_stop ES ev v s) as [r s'].
  eapply reached_snoc; [exact Hr|guarded_ok].
Qed.

Lemma eval_reached p val_loader test_loader n :
  has_evaluator self = true → n = p_steps p → p_open p = true →
  triple (R p) (eval self val_loader test_loader mini_batch_infer n)
    (λ v, R (set_score (Some v) p)) F.
Proof.
  intros Hev -> Ho. unfold eval.
  rbind; [rlog|]. rbind.
  { apply triple_if; intros Hmbi.
    - rbind; [rlog|]. rlog.
    - rbind; [rlift|]. rbind; [rlog|]. rbind; [rlog|]. rlog. }
  rbind; [rlog|]. rbind; [rlift|].
  rbind; [by apply call_evaluate_reached|].
  rbind; [rlog|]. rbind; [case_decide; [rlog|rret]|]. rret.
Qed.

Lemma maybe_eval_reached p val_loader test_loader n epoch_end b :
  n = p_steps p → p_open p = true → p_score p = None → b = p_stop p →
  triple (R p)
    (maybe_eval self val_loader test_loader mini_batch_infer n epoch_end b)
    (λ ve w, R (set_stop ve.2 (set_score ve.1 p)) w
             ∧ (ve.2 = false → b = false)) F.
Proof.
  intros -> Ho Hs ->. unfold maybe_eval.
  destruct (evaluator self) as [ev|] eqn:Hevr.
  - assert (Hev : has_evaluator self = true)
      by (unfold has_evaluator; by rewrite Hevr).
    rbind; [by apply call_do_eval_reached|]. destruct a.
    + rbind; [by apply eval_reached|].
      rbind; [by apply call_do_early_stop_reached|].
      apply triple_ret. intros w Hw. simpl. split.
      * by destruct a0.
      * by destruct a0.
    + apply triple_ret. intros w Hw. simpl. split; [|done].
      destruct p; simpl in *; by subst.
  - apply triple_ret. intros w Hw. simpl. split; [|done].
    destruct p; simpl in *; by subst.
Qed.

Lemma maybe_save_reached p epoch i val_score o :
  o = save_model_per_iters →
  S epoch = p_epochs p → S i = p_batches p → p_open p = true →
  val_score = p_score p →
  triple (R p) (maybe_save epoch i val_score o) (λ _, R p) F.
Proof.
  intros Hn He Hi Ho Hv. unfold maybe_save.
  destruct o as [n|]; simpl.
  - apply triple_lift_ok.
    destruct (bool_decide (0 < n)%Z) eqn:H1; simpl; [|rret].
    destruct (bool_decide (Z.of_nat i `mod` n = 0)%Z) eqn:H2; simpl; [|rret].
    destruct (bool_decide (i ≠ 0)) eqn:H3; simpl; [|rret].
    apply bool_decide_eq_true in H1, H2, H3.
    eapply log_reached. guarded_ok. rewrite <- Hn.
    rewrite bool_decide_eq_true_2 by done. guarded_ok.
  - apply triple_lift_raise. intros w Hw. by exists p.
Qed.

Lemma gather_inputs_reached p batch :
  triple (R p) (gather_inputs batch) (λ _, R p) F.
Proof.
  unfold gather_inputs. destruct batch as [[input_nodes batch_graph] blocks].
  rbind; [rlift|]. rbind; [rlog|]. rbind; [rlift|]. rbind; [rlift|]. rlog.
Qed.

Lemma forward_backward_reached p epoch i n :
  n = p_steps p → S epoch = p_epochs p → S i = p_batches p →
  p_open p = true →
  triple (R p) (forward_backward self epoch i n) (λ _, R p) F.
Proof.
  intros -> He Hi Ho. unfold forward_backward.
  do 4 (rbind; [rlog|]). rbind; [rlog|].
  case_decide; [rlog|rret].
Qed.

Lemma train_step_reached val_loader test_loader epoch st i batch sc :
  i < length (batches train_loader epoch) →
  triple (R (mk_progress (total_steps st) (S epoch) i true (early_stop st) sc))
    (train_step self val_loader test_loader mini_batch_infer
       save_model_per_iters epoch st (i, batch))
    (λ st' w,
       (∃ sc', R (mk_progress (total_steps st') (S epoch) (S i) true
                    (early_stop st') sc') w)
       ∧ total_steps st' = total_steps st + 1) F.
Proof.
  intros Hi. unfold train_step.
  rbind; [rlog|]. rbind; [apply gather_inputs_reached|].
  rbind; [apply forward_backward_reached; reflexivity|].
  rbind; [apply maybe_eval_reached; reflexivity|].
  apply triple_pre. intros w [Hw _]. eexists. split; [exact Hw|].
  rbind; [apply maybe_save_reached; reflexivity|].
  apply triple_ret. intros w' Hw'. simpl. split; [|done]. by eexists.
Qed.

Lemma step_loop_reached val_loader test_loader epoch l : ∀ a st sc,
  a + length l = length (batches train_loader epoch) →
  triple (R (mk_progress (total_steps st) (S epoch) a true (early_stop st) sc))
    (step_loop self val_loader test_loader mini_batch_infer
       save_model_per_iters epoch (zip (seq a (length l)) l) st)
    (λ st' w,
       ∃ a' sc', R (mk_progress (total_steps st') (S epoch) a' true
                      (early_stop st') sc') w
                 ∧ (early_stop st' = false →
                    total_steps st' = total_steps st + length l)) F.
Proof.
  induction l as [|b l IH]; intros a st sc Hlen.
  - simpl. apply triple_ret. intros w Hw. exists a, sc. split; [done|].
    intros _. lia.
  - change (zip (seq a (length (b :: l))) (b :: l))
      with ((a, b) :: zip (seq (S a) (length l)) l).
    cbn [step_loop]. simpl in Hlen.
    rbind; [apply train_step_reached; lia|].
    apply triple_pre. intros w [(sc' & Hw) Htot].
    eexists. split; [exact Hw|]. clear w Hw.
    destruct (early_stop a0) eqn:Hstop.
    + apply triple_ret. intros w Hw. exists (S a), sc'. rewrite Hstop.
      split; [done|discriminate].
    + eapply triple_conseq; [apply (IH (S a) a0 sc'); lia| |].
      * intros w Hw. by rewrite Hstop.
      * intros st' w (a' & sc'' & Hw & Hall). exists a', sc''.
        split; [done|]. intros Hst'. rewrite (Hall Hst'), Htot. simpl. lia.
Qed.

Lemma run_epoch_reached val_loader test_loader epoch st b :
  epoch < n_epochs →
  triple (R (mk_progress (total_steps st) epoch b false (early_stop st) None))
    (run_epoch self train_loader val_loader test_loader mini_batch_infer
       save_model_per_iters epoch st)
    (λ st' w,
       ∃ b', R (mk_progress (total_steps st') (S epoch) b' false
                  (early_stop st') None) w
             ∧ (early_stop st' = false →
                total_steps st'
                = total_steps st + length (batches train_loader epoch))) F.
Proof.
  intros He. unfold run_epoch.
  rbind; [rlog|].
  rbind; [apply (step_loop_reached val_loader test_loader epoch
                   (batches train_loader epoch) 0 st None); lia|].
  apply triple_pre. intros w (a' & sc' & Hw & Hall).
  eexists. split; [exact Hw|]. clear w Hw.
  rbind; [rlog|]. rbind; [case_decide; [rlog|rret]|].
  rbind; [apply maybe_eval_reached; reflexivity|].
  apply triple_pre. intros w [Hw Hflag]. eexists. split; [exact Hw|].
  clear w Hw.
  rbind; [rlog|]. rbind; [rlog|].
  apply triple_ret. intros w Hw. simpl. exists a'. split; [exact Hw|].
  intros Hst. apply Hall. by apply Hflag.
Qed.

Lemma batches_of_epochs_cons a k :
  batches_of_epochs train_loader a (S k)
  = length (batches train_loader a) + batches_of_epochs train_loader (S a) k.
Proof. reflexivity. Qed.

Lemma epoch_loop_reached val_loader test_loader k : ∀ a st b,
  a + k = n_epochs →
  triple (R (mk_progress (total_steps st) a b false (early_stop st) None))
    (epoch_loop self train_loader val_loader test_loader mini_batch_infer
       save_model_per_iters (seq a k) st)
    (λ st' w,
       ∃ ep b', R (mk_progress (total_steps st') ep b' false
                     (early_stop st') None) w
                ∧ (early_stop st' = false →
                   ep = n_epochs
                   ∧ total_steps st'
                     = total_steps st + batches_of_epochs train_loader a k))
    F.
Proof.
  induction k as [|k IH]; intros a st b Hk.
  - simpl. apply triple_ret. intros w Hw. exists a, b. split; [done|].
    intros _. unfold batches_of_epochs. simpl. lia.
  - cbn [seq epoch_loop].
    rbind; [apply run_epoch_reached; lia|].
    apply triple_pre. intros w (b' & Hw & Hall).
    eexists. split; [exact Hw|]. clear w Hw.
    destruct (early_stop a0) eqn:Hstop.
    + apply triple_ret. intros w Hw. exists (S a), b'. rewrite Hstop.
      split; [done|discriminate].
    + eapply triple_conseq; [apply (IH (S a) a0 b'); lia| |].
      * intros w Hw. by rewrite Hstop.
      * intros st' w (ep & b'' & Hw & Hrest). exists ep, b''.
        split; [done|]. intros Hst'. destruct (Hrest Hst') as [-> ->].
        split; [done|]. rewrite batches_of_epochs_cons, (Hall eq_refl). lia.
Qed.

Lemma fit_reached val_loader test_loader save_model_path :
  triple (R start)
    (fit self train_loader n_epochs val_loader test_loader mini_batch_infer
       save_model_path save_model_per_iters)
    (λ _ w,
       ∃ p, R p w ∧ p_open p = false
            ∧ (p_stop p = false →
               p_epochs p = n_epochs
               ∧ p_steps p = batches_of_epochs train_loader 0 n_epochs)) F.
Proof.
  unfold fit.
  rbind; [rlift|]. rbind; [rlog|].
  rbind; [apply (epoch_loop_reached val_loader test_loader n_epochs 0
                   (mk_loop_state 0 false) 0); lia|].
  apply triple_pre. intros w (ep & b' & Hw & Hall).
  eexists. split; [exact Hw|]. clear w Hw.
  eapply triple_conseq with
    (Q' := λ _, R (mk_progress (total_steps a1) ep b' false (early_stop a1)
                     None)); [|done|].
  2:{ intros _ w Hw. eexists. split; [exact Hw|]. simpl. split; [done|].
      intros Hst. destruct (Hall Hst) as [-> ->]. done. }
  rbind; [rlog|]. case_decide as Hcase; [|rret].
  destruct Hcase as [Hrank Hev].
  assert (Hhas : has_evaluator self = true).
  { unfold has_evaluator. by destruct (evaluator self). }
  rbind; [rlog|].
  destruct (save_perf_results_path _ self) as [path|] eqn:Hpath; [|rret].
  rlog.
Qed.

End ProgressFacts.

(** X11.  The calls of any run of [fit], whether it returns or raises,
    come in the order that [advance] requires: epochs numbered from 0
    without gaps, each begun only when the one before has saved its final
    checkpoint; within an epoch the steps carry the indices of the batches
    of the loader, from 0 without gaps, and the count of all steps since
    the start of the run, which is also what the logged loss, the
    evaluator and the metrics receive; the score handed to
    [do_early_stop] and to a checkpoint is the one of the evaluation just
    made, and [None] without one.  A run that returns has closed every
    epoch it began and, unless [do_early_stop] answered [True], has
    begun all [n_epochs] epochs and trained on every batch of each. *)
Theorem fit_calls_in_order {ES : Type}
    (self : GSgnnEdgePredictionTrainer ES) (train_loader : DataLoader)
    (n_epochs : nat) (val_loader test_loader : option DataLoader)
    (mini_batch_infer : bool) (save_model_path : option string)
    (save_model_per_iters : option Z) (w : world ES) :
  let run := fit self train_loader n_epochs val_loader test_loader
               mini_batch_infer save_model_path save_model_per_iters w in
  ∃ evs p,
    trace run.2 = trace w ++ evs
    ∧ follow (advance train_loader n_epochs) start evs = Some p
    ∧ (run.1 = Ok tt →
       p_open p = false
       ∧ (p_stop p = false →
          p_epochs p = n_epochs
          ∧ p_steps p = batches_of_epochs train_loader 0 n_epochs)).
Proof.
  intros run. subst run.
  pose proof (fit_reached self mini_batch_infer save_model_per_iters
                train_loader n_epochs (trace w) val_loader test_loader
                save_model_path w) as H.
  destruct (fit _ _ _ _ _ _ _ _ w) as [[[]| |] w']; simpl in *.
  - destruct H as (p & (evs & Htr & Hf) & Hopen & Hall).
    { exists []. by rewrite app_nil_r. }
    apply follow_guarded in Hf as [Hf _]. by exists evs, p.
  - destruct H as (p & evs & Htr & Hf).
    { exists []. by rewrite app_nil_r. }
    apply follow_guarded in Hf as [Hf _]. by exists evs, p.
  - destruct H as (p & evs & Htr & Hf).
    { exists []. by rewrite app_nil_r. }
    apply follow_guarded in Hf as [Hf _]. by exists evs, p.
Qed.

(** X12.  What a trainer calls at all, in any run of [fit]: it prints and
    logs results on rank 0 only, and a batch only at every twentieth
    index; it evaluates, predicts and asks about an early stop only with
    an evaluator, and predicts by the chosen way of inference only; it
    saves a checkpoint within an epoch only with a positive
    [save_model_per_iters], at batch indices of the epoch that are
    positive multiples of it. *)
Theorem fit_calls_permitted {ES : Type}
    (self : GSgnnEdgePredictionTrainer ES) (train_loader : DataLoader)
    (n_epochs : nat) (val_loader test_loader : option DataLoader)
    (mini_batch_infer : bool) (save_model_path : option string)
    (save_model_per_iters : option Z) (w : world ES) :
  let run := fit self train_loader n_epochs val_loader test_loader
               mini_batch_infer save_model_path save_model_per_iters w in
  ∃ evs,
    trace run.2 = trace w ++ evs
    ∧ forallb (permitted self mini_batch_infer save_model_per_iters) evs
      = true.
Proof.
  intros run. subst run.
  pose proof (fit_reached self mini_batch_infer save_model_per_iters
                train_loader n_epochs (trace w) val_loader test_loader
                save_model_path w) as H.
  destruct (fit _ _ _ _ _ _ _ _ w) as [[[]| |] w']; simpl in *.
  - destruct H as (p & (evs & Htr & Hf) & _).
    { exists []. by rewrite app_nil_r. }
    apply follow_guarded in Hf as [_ Hf]. by exists evs.
  - destruct H as (p & evs & Htr & Hf).
    { exists []. by rewrite app_nil_r. }
    apply follow_guarded in Hf as [_ Hf]. by exists evs.
  - destruct H as (p & evs & Htr & Hf).
    { exists []. by rewrite app_nil_r. }
    apply follow_guarded in Hf as [_ Hf]. by exists evs.
Qed.

Example fit_calls_demo :
  let run := fit Demo.stopping_trainer
               (Demo.loader_of [Demo.one_etype_batch; Demo.one_etype_batch;
                                Demo.one_etype_batch])
               3 (Some (Demo.loader_of [])) None true None (Some 1%Z)
               (mk_world 0 []) in
  run.1 = Ok tt
  ∧ follow (advance (Demo.loader_of [Demo.one_etype_batch;
                                     Demo.one_etype_batch;
                                     Demo.one_etype_batch]) 3)
      start (trace run.2)
    = Some (mk_progress 2 1 2 false true None)
  ∧ omap (λ e, match e with
                | EvSaveTopk epoch i v => Some (epoch, i, v)
                | _ => None
                end) (trace run.2)
    = [(0, Some 1, Some 2%Z); (0, None, None)].
Proof. split_and!; vm_compute; reflexivity. Qed.

(** *** Runs that return *)

Section Returns.

Context {ES : Type}.
Variable self : GSgnnEdgePredictionTrainer ES.
Variables val_loader test_loader : option DataLoader.
Variable mini_batch_infer : bool.
Variable n : Z.
Hypothesis config_ok : check_config self val_loader = Ok tt.

Local Abbreviation any := (λ _ : event, true).

Lemma any_other : ∀ e, is_step_head e = false → any e = true.
Proof. done. Qed.

Lemma runs_log_any e : runs (ES:=ES) any (log e).
Proof. intros w. by exists tt, (ev_state w), [e]. Qed.

Lemma runs_gather_inputs batch :
  batch_accepted batch → runs (ES:=ES) any (gather_inputs batch).
Proof.
  destruct batch as [[input_nodes bg] blocks]. intros [Hacc Hlen] w.
  simpl in Hacc, Hlen.
  assert (∃ c, canonical_etypes bg = [c]) as [c Hc].
  { rewrite etypes_length in Hlen.
    destruct (canonical_etypes bg) as [|c [|]]; try discriminate. by exists c. }
  destruct (gather_inputs_single input_nodes bg blocks c w Hc Hacc)
    as (d & ->).
  by eexists tt, _, _.
Qed.

Lemma runs_maybe_save epoch i val_score :
  runs (ES:=ES) any (maybe_save epoch i val_score (Some n)).
Proof.
  unfold maybe_save. apply runs_bind; [apply runs_lift|intros positive].
  destruct (_ && _ && _)%bool; [apply runs_log_any|apply runs_ret].
Qed.

Lemma runs_train_step epoch st i batch :
  batch_accepted batch →
  runs (ES:=ES) any
    (train_step self val_loader test_loader mini_batch_infer (Some n) epoch
       st (i, batch)).
Proof.
  intros Hb. unfold train_step.
  apply runs_bind; [apply runs_log_any|intros _].
  apply runs_bind; [by apply runs_gather_inputs|intros _].
  apply runs_bind; [apply runs_forward_backward, any_other|intros _].
  apply runs_bind; [by apply runs_maybe_eval|intros ve].
  apply runs_bind; [apply runs_maybe_save|intros _].
  apply runs_ret.
Qed.

Lemma runs_step_loop epoch bs : ∀ st,
  (∀ ib, ib ∈ bs → batch_accepted ib.2) →
  runs (ES:=ES) any
    (step_loop self val_loader test_loader mini_batch_infer (Some n) epoch
       bs st).
Proof.
  induction bs as [|[i b] bs IH]; intros st Hbs; simpl; [apply runs_ret|].
  apply runs_bind.
  - apply runs_train_step. apply (Hbs (i, b)). by left.
  - intros st'. destruct (early_stop st'); [apply runs_ret|].
    apply IH. intros ib Hib. apply Hbs. by right.
Qed.

Lemma runs_run_epoch train_loader epoch st :
  (∀ b, b ∈ batches train_loader epoch → batch_accepted b) →
  runs (ES:=ES) any
    (run_epoch self train_loader val_loader test_loader mini_batch_infer
       (Some n) epoch st).
Proof.
  intros Hb. unfold run_epoch.
  apply runs_bind; [apply runs_log_any|intros _].
  apply runs_bind.
  { apply runs_step_loop. intros [i b] Hib. apply Hb. simpl.
    unfold GnnEncoderBase.enumerate in Hib.
    apply elem_of_zip_r in Hib. exact Hib. }
  intros st'.
  apply runs_bind; [apply runs_log_any|intros _].
  apply runs_bind; [case_decide; [apply runs_log_any|apply runs_ret]|intros _].
  apply runs_bind; [by apply runs_maybe_eval|intros ve].
  apply runs_bind; [apply runs_log_any|intros _].
  apply runs_bind; [apply runs_log_any|intros _].
  apply runs_ret.
Qed.

Lemma runs_epoch_loop train_loader epochs : ∀ st,
  (∀ epoch b, epoch ∈ epochs → b ∈ batches train_loader epoch →
     batch_accepted b) →
  runs (ES:=ES) any
    (epoch_loop self train_loader val_loader test_loader mini_batch_infer
       (Some n) epochs st).
Proof.
  induction epochs as [|epoch epochs IH]; intros st Hb; simpl;
    [apply runs_ret|].
  apply runs_bind.
  - apply runs_run_epoch. intros b. apply Hb. by left.
  - intros st'. destruct (early_stop st'); [apply runs_ret|].
    apply IH. intros e b He. apply Hb. by right.
Qed.

End Returns.

(** X13.  With a configuration that passes the check at the head of
    [fit], mini-batches that pass the assertions of a step and an integer
    [save_model_per_iters], [fit] returns, whatever the evaluator
    answers. *)
Theorem fit_returns {ES : Type}
    (self : GSgnnEdgePredictionTrainer ES) (train_loader : DataLoader)
    (n_epochs : nat) (val_loader test_loader : option DataLoader)
    (mini_batch_infer : bool) (save_model_path : option string)
    (n : Z) (w : world ES) :
  check_config self val_loader = Ok tt →
  (∀ epoch b, epoch < n_epochs → b ∈ batches train_loader epoch →
     batch_accepted b) →
  (fit self train_loader n_epochs val_loader test_loader mini_batch_infer
     save_model_path (Some n) w).1 = Ok tt.
Proof.
  intros Hcheck Hb.
  assert (Hruns : runs (λ _, true)
            (fit self train_loader n_epochs val_loader test_loader
               mini_batch_infer save_model_path (Some n))).
  { unfold fit. rewrite Hcheck.
    apply runs_bind; [apply runs_lift|intros _].
    apply runs_bind; [apply runs_log_any|intros _].
    apply runs_bind.
    { apply runs_epoch_loop; [done|]. intros epoch b He. apply Hb.
      apply elem_of_seq in He. lia. }
    intros st.
    apply runs_bind; [apply runs_log_any|intros _].
    case_decide; [|apply runs_ret].
    apply runs_bind; [apply runs_log_any|intros _].
    destruct (save_perf_results_path _ self);
      [apply runs_log_any|apply runs_ret]. }
  destruct (Hruns w) as ([] & s & evs & -> & _). reflexivity.
Qed.

Lemma fit_returns_witness :
  (fit Demo.stopping_trainer
     (Demo.loader_of [Demo.one_etype_batch; Demo.one_etype_batch]) 2
     (Some (Demo.loader_of [])) None false None (Some 0%Z)
     (mk_world 0 [])).1 = Ok tt.
Proof.
  apply fit_returns; [reflexivity|].
  intros epoch b _ Hb. simpl in Hb.
  assert (b = Demo.one_etype_batch) as ->.
  { apply elem_of_cons in Hb as [->|Hb]; [done|].
    apply elem_of_cons in Hb as [->|Hb]; [done|].
    by apply elem_of_nil in Hb. }
  split; [exact I|reflexivity].
Defined.
